(** * Dependency explorer: the graph query engine and the package selection

    A shallow embedding of
    - [ui/lib/packages.ts] (closures, orphan test, sorting, broken-dependency
      processing, counting),
    - the sub-graph extraction of the Investigate view, and
    - the package selection step of [collect-deps.sh],
    followed by the properties stated about them. *)

From Stdlib Require Import ZArith String Ascii.
From stdpp Require Import base list strings gmap sorting.

Local Open Scope string_scope.
Local Open Scope list_scope.

(** ** JavaScript containers *)

(** A JS [Set<string>] iterates in insertion order and holds no value twice:
    it is modelled by the list of its members in insertion order. *)
Module JsSet.
Abbreviation t := (list string).
Definition empty : t := [].
Definition has (s : t) (x : string) : bool := bool_decide (x ∈ s).
Definition add (s : t) (x : string) : t := if has s x then s else s ++ [x].
(** [Array.from(s)] *)
Definition to_array (s : t) : list string := s.
End JsSet.

(** [l.forEach(f)] where the callback updates a state [S] and may fail to
    return (the recursion of the closures is bounded by a fuel). *)
Fixpoint forEach {A S : Type} (f : A -> S -> option S) (l : list A) (s : S)
  : option S :=
  match l with
  | [] => Some s
  | x :: l' =>
      match f x s with
      | Some s' => forEach f l' s'
      | None => None
      end
  end.

(** ** The data model *)

(** Modelled from the spec: the declaration of [PackageNode] in
    [types/package] is not part of the sources.  The fields that every object
    literal of [packages.ts] sets are mandatory; [broken] and the fields that
    only the collected JSON carries are optional ([None] is [undefined]). *)
Record PackageNode := mkPackageNode {
  id : string;
  explicit : bool;
  version : string;
  depends_on : list string;
  required_by : list string;
  broken : option bool;
  repo : option string;
  locally_built : option bool;
  url : option string;
  optional_depends_on : option (list string);
  optional_required_by : option (list string);
}.

(** Truthiness of an optional boolean field: [undefined] is falsy. *)
Definition truthy (b : option bool) : bool :=
  match b with
  | Some true => true
  | _ => false
  end.

(** [nodes.find((n) => n.id === packageId)] *)
Definition find_node (packageId : string) (nodes : list PackageNode)
  : option PackageNode :=
  List.find (fun n => String.eqb (id n) packageId) nodes.

(** ** [ui/lib/packages.ts] *)

Fixpoint collectPackageTree (fuel : nat) (packageId : string)
    (nodes : list PackageNode) (result : JsSet.t) : option JsSet.t :=
  match fuel with
  | O => None
  | S fuel' =>
      if JsSet.has result packageId then Some result
      else
        let result := JsSet.add result packageId in
        match find_node packageId nodes with
        | None => Some result
        | Some pkg =>
            forEach (fun dep r => collectPackageTree fuel' dep nodes r)
                    (depends_on pkg) result
        end
  end.

Fixpoint collectReversePackageTree (fuel : nat) (packageId : string)
    (nodes : list PackageNode) (result : JsSet.t) : option JsSet.t :=
  match fuel with
  | O => None
  | S fuel' =>
      if JsSet.has result packageId then Some result
      else
        let result := JsSet.add result packageId in
        match find_node packageId nodes with
        | None => Some result
        | Some pkg =>
            forEach (fun parent r => collectReversePackageTree fuel' parent nodes r)
                    (required_by pkg) result
        end
  end.

(** A recursion depth that every closure over [nodes] stays below: each
    nested call first adds a name that was not in the set, and the names that
    can be added are the start and the targets of the edge lists. *)
Definition enough_fuel (edges : PackageNode -> list string)
    (nodes : list PackageNode) : nat :=
  S (S (length (flat_map edges nodes))).

Definition isOrphaned (pkg : PackageNode) : bool :=
  negb (explicit pkg) && (length (required_by pkg) =? 0)%nat.

(** [nodeMap]: the [forEach] of [nodeMap.set(node.id, node)]. *)
Definition build_nodeMap (nodes : list PackageNode) : gmap string PackageNode :=
  foldl (fun m node => <[id node := node]> m) ∅ nodes.

Definition Map_has (m : gmap string PackageNode) (k : string) : bool :=
  bool_decide (is_Some (m !! k)).

(** [{...node, required_by: node.required_by.filter((dep) => nodeMap.has(dep))}] *)
Definition clean_node (nodeMap : gmap string PackageNode) (node : PackageNode)
  : PackageNode :=
  {| id := id node;
     explicit := explicit node;
     version := version node;
     depends_on := depends_on node;
     required_by := List.filter (fun dep => Map_has nodeMap dep) (required_by node);
     broken := broken node;
     repo := repo node;
     locally_built := locally_built node;
     url := url node;
     optional_depends_on := optional_depends_on node;
     optional_required_by := optional_required_by node |}.

(** The object literal of a synthetic node; the fields it does not mention
    are absent. *)
Definition synthetic_node (dep : string) : PackageNode :=
  {| id := dep;
     explicit := false;
     version := "missing";
     depends_on := [];
     required_by := [];
     broken := Some true;
     repo := None;
     locally_built := None;
     url := None;
     optional_depends_on := None;
     optional_required_by := None |}.

(** The two nested [forEach] that fill [brokenDeps]. *)
Definition detect_broken (nodeMap : gmap string PackageNode)
    (cleanedNodes : list PackageNode) : JsSet.t :=
  foldl (fun brokenDeps node =>
           foldl (fun brokenDeps dep =>
                    if negb (Map_has nodeMap dep) then JsSet.add brokenDeps dep
                    else brokenDeps)
                 brokenDeps (depends_on node))
        JsSet.empty cleanedNodes.

Definition processBrokenDependencies (nodes : list PackageNode)
  : list PackageNode :=
  if (length nodes =? 0)%nat then []
  else
    let nodeMap := build_nodeMap nodes in
    let cleanedNodes := map (clean_node nodeMap) nodes in
    let brokenDeps := detect_broken nodeMap cleanedNodes in
    let syntheticNodes := map synthetic_node (JsSet.to_array brokenDeps) in
    cleanedNodes ++ syntheticNodes.

Record PackageCounts := mkPackageCounts {
  count_explicit : Z;
  count_dependency : Z;
  count_broken : Z;
  count_total : Z;
}.

Definition countPackages (nodes : list PackageNode) : PackageCounts :=
  let explicit_ :=
    Z.of_nat (length (List.filter (fun n => explicit n && negb (truthy (broken n))) nodes)) in
  let broken_ :=
    Z.of_nat (length (List.filter (fun n => truthy (broken n)) nodes)) in
  {| count_explicit := explicit_;
     count_dependency := (Z.of_nat (length nodes) - explicit_ - broken_)%Z;
     count_broken := broken_;
     count_total := Z.of_nat (length nodes) |}.

(** [Array.prototype.sort(compareFn)]: the sort is stable, so for a consistent
    comparator its result is the one a stable insertion sort gives. *)
Fixpoint insert_sorted {A : Type} (compareFn : A -> A -> Z) (x : A) (l : list A)
  : list A :=
  match l with
  | [] => [x]
  | y :: l' =>
      if (compareFn x y <=? 0)%Z then x :: y :: l'
      else y :: insert_sorted compareFn x l'
  end.

Definition Array_sort {A : Type} (compareFn : A -> A -> Z) (l : list A) : list A :=
  foldr (insert_sorted compareFn) [] l.

(** The elements of the array that [sortPackagesByName] returns; the array
    itself is its argument, see [InStore.sortPackagesByName].
    [localeCompare] is the collation of the host's locale. *)
Definition sorted_by_name (localeCompare : string -> string -> Z)
    (packages : list PackageNode) : list PackageNode :=
  Array_sort (fun a b => localeCompare (id a) (id b)) packages.

(** ** The sub-graph of the Investigate view *)

Module Investigate.

Inductive DependencyDirection := forward | reverse | both.

Record PackageLink (LinkType : Type) := mkPackageLink {
source : string;
target : string;
type : LinkType;
}.
Arguments mkPackageLink {LinkType}.
Arguments source {LinkType}.
Arguments target {LinkType}.
Arguments type {LinkType}.

Record SubGraph (LinkType : Type) := mkSubGraph {
sg_nodes : list PackageNode;
sg_links : list (PackageLink LinkType);
}.
Arguments mkSubGraph {LinkType}.
Arguments sg_nodes {LinkType}.
Arguments sg_links {LinkType}.

Section View.
(** [getLinkType] comes from [lib/packageTypeUtils], which is not part of
    the sources: it is a parameter.  Its first argument is the result of a
    [find], which is [undefined] for a name without a record. *)
Context {LinkType : Type}.
Variable getLinkType : option PackageNode -> PackageNode -> LinkType.
(** The [nodes] property of the component. *)
Variable nodes : list PackageNode.

(** The state of the link loop: [linkSet] and [subLinks]. *)
Definition addForwardLinks (node : PackageNode) (treePackageIds : JsSet.t)
    (st : JsSet.t * list (PackageLink LinkType))
  : JsSet.t * list (PackageLink LinkType) :=
  foldl (fun '(linkSet, subLinks) dep =>
           if JsSet.has treePackageIds dep then
             let linkKey := id node +:+ "->" +:+ dep in
             if negb (JsSet.has linkSet linkKey) then
               (JsSet.add linkSet linkKey,
                subLinks ++ [mkPackageLink (id node) dep
                               (getLinkType (find_node dep nodes) node)])
             else (linkSet, subLinks)
           else (linkSet, subLinks))
        st (depends_on node).

Definition addReverseLinks (node : PackageNode) (treePackageIds : JsSet.t)
    (st : JsSet.t * list (PackageLink LinkType))
  : JsSet.t * list (PackageLink LinkType) :=
  foldl (fun '(linkSet, subLinks) parent =>
           if JsSet.has treePackageIds parent then
             let linkKey := parent +:+ "->" +:+ id node in
             if negb (JsSet.has linkSet linkKey) then
               (JsSet.add linkSet linkKey,
                subLinks ++ [mkPackageLink parent (id node)
                               (getLinkType (find_node parent nodes) node)])
             else (linkSet, subLinks)
           else (linkSet, subLinks))
        st (required_by node).

(** "Collect packages based on direction". *)
Definition collect_ids (fuel : nat) (direction : DependencyDirection)
    (selectedId : string) : option JsSet.t :=
  match direction with
  | forward => collectPackageTree fuel selectedId nodes JsSet.empty
  | reverse => collectReversePackageTree fuel selectedId nodes JsSet.empty
  | both =>
      match collectPackageTree fuel selectedId nodes JsSet.empty with
      | None => None
      | Some treePackageIds =>
          match collectReversePackageTree fuel selectedId nodes JsSet.empty with
          | None => None
          | Some treePackageIdsReverse =>
              Some (foldl JsSet.add treePackageIds treePackageIdsReverse)
          end
      end
  end.

(** "Build links based on direction". *)
Definition build_links (direction : DependencyDirection)
    (treePackageIds : JsSet.t) (subNodes : list PackageNode)
  : JsSet.t * list (PackageLink LinkType) :=
  foldl (fun st node =>
           let st :=
             match direction with
             | forward | both => addForwardLinks node treePackageIds st
             | reverse => st
             end in
           match direction with
           | reverse | both => addReverseLinks node treePackageIds st
           | forward => st
           end)
        (JsSet.empty, []) subNodes.

Definition subGraphData (fuel : nat) (selectedPackage : option PackageNode)
    (direction : DependencyDirection) : option (SubGraph LinkType) :=
  match selectedPackage with
  | None => Some (mkSubGraph [] [])
  | Some selected =>
      match collect_ids fuel direction (id selected) with
      | None => None
      | Some treePackageIds =>
          let subNodes :=
            List.filter (fun n => JsSet.has treePackageIds (id n)) nodes in
          let subLinks := snd (build_links direction treePackageIds subNodes) in
          Some (mkSubGraph subNodes subLinks)
      end
  end.
End View.

(** The fuel that both closures of a sub-graph stay below. *)
Definition view_fuel (nodes : list PackageNode) : nat :=
enough_fuel depends_on nodes + enough_fuel required_by nodes.

End Investigate.

(** ** The query operations on the JavaScript store

    Arrays and sets are objects: a function that receives one receives a
    reference, and what it does to the object is seen by every holder of the
    reference.  The store maps a location to the object it holds; records are
    values, since no operation assigns to a field of a record. *)

Module InStore.

Inductive Obj (LinkType : Type) :=
| NodeArray (a : list PackageNode)
| StringSet (s : list string)
| LinkArray (a : list (Investigate.PackageLink LinkType)).
Arguments NodeArray {LinkType}.
Arguments StringSet {LinkType}.
Arguments LinkArray {LinkType}.

Section Store.
Context {LinkType : Type}.

(** A computation on the store; [None] when it gets stuck (a location that
    holds no object of the expected kind) or runs out of fuel. *)
Definition M (A : Type) : Type :=
  list (Obj LinkType) -> option (A * list (Obj LinkType)).

Definition ret {A : Type} (x : A) : M A := fun st => Some (x, st).

Definition bind {A B : Type} (m : M A) (k : A -> M B) : M B :=
  fun st =>
    match m st with
    | Some (x, st') => k x st'
    | None => None
    end.

Definition lift {A : Type} (o : option A) : M A :=
  fun st =>
    match o with
    | Some x => Some (x, st)
    | None => None
    end.

(** A new object, at a location that held nothing. *)
Definition alloc (o : Obj LinkType) : M nat :=
  fun st => Some (length st, st ++ [o]).

Definition read_nodes (l : nat) : M (list PackageNode) :=
  fun st =>
    match st !! l with
    | Some (NodeArray a) => Some (a, st)
    | _ => None
    end.

Definition read_set (l : nat) : M (list string) :=
  fun st =>
    match st !! l with
    | Some (StringSet s) => Some (s, st)
    | _ => None
    end.

(** An update in place of the object at [l]. *)
Definition write (l : nat) (o : Obj LinkType) : M unit :=
  fun st => if decide (l < length st) then Some (tt, <[l := o]> st) else None.

Local Notation "'let*' x := m 'in' k" := (bind m (fun x => k))
  (at level 10, x name, m at level 100, k at level 200, only parsing).

(** [return packages.sort(...)]: the sort is in place and the result is the
    argument. *)
Definition sortPackagesByName (localeCompare : string -> string -> Z)
    (packages : nat) : M nat :=
  let* a := read_nodes packages in
  let* _ := write packages (NodeArray (sorted_by_name localeCompare a)) in
  ret packages.

Definition processBrokenDependencies (nodes : nat) : M nat :=
  let* a := read_nodes nodes in
  alloc (NodeArray (processBrokenDependencies a)).

Definition countPackages (nodes : nat) : M PackageCounts :=
  let* a := read_nodes nodes in
  ret (countPackages a).

Definition collectPackageTree (fuel : nat) (packageId : string)
    (nodes result : nat) : M unit :=
  let* a := read_nodes nodes in
  let* s := read_set result in
  let* s' := lift (collectPackageTree fuel packageId a s) in
  write result (StringSet s').

Definition collectReversePackageTree (fuel : nat) (packageId : string)
    (nodes result : nat) : M unit :=
  let* a := read_nodes nodes in
  let* s := read_set result in
  let* s' := lift (collectReversePackageTree fuel packageId a s) in
  write result (StringSet s').

(** The sub-graph is made of two new arrays. *)
Definition subGraphData
    (getLinkType : option PackageNode -> PackageNode -> LinkType)
    (fuel : nat) (nodes : nat) (selectedPackage : option PackageNode)
    (direction : Investigate.DependencyDirection) : M (nat * nat) :=
  let* a := read_nodes nodes in
  let* g := lift (Investigate.subGraphData getLinkType a fuel selectedPackage direction) in
  let* n := alloc (NodeArray (Investigate.sg_nodes g)) in
  let* l := alloc (LinkArray (Investigate.sg_links g)) in
  ret (n, l).
End Store.

End InStore.

(** ** The package selection of [collect-deps.sh] (step 2.5) *)

Module CollectDeps.

(** [FILTER_MODE] with its [FILTER_VALUE].  For [--first] and [--last] it is
  the argument as it was typed, digits that passed [^[0-9]+$]: the shell
  reads their number only where the [case] uses them.  For [--random] it is
  the number that [shuf] reads from the digits, in base ten; for [--select]
  the names that [IFS=',' read -ra] splits the value into. *)
Inductive Filter :=
| first (FILTER_VALUE : string)
| last (FILTER_VALUE : string)
| random (FILTER_VALUE : nat)
| select (names : list string).

(** What the [case] leaves: [selected_packages], or the exit of the script. *)
Inductive Outcome :=
| Selected (selected_packages : list string)
| Exit (status : nat).

(** [printf '%s\n' "${a[@]}"]: a line per element, and one empty line when
  there is no element. *)
Definition printf_lines (a : list string) : list string :=
match a with
| [] => [""]
| _ => a
end.

(** [shuf -n N]: the first [N] lines of the permutation of its input that
  [shuf] draws; all of them when there are fewer. *)
Definition shuf_n (shuffled : list string) (n : nat) : list string :=
take n shuffled.

(** [$(...)] drops the newlines that end the output: the empty lines at the
  end are lost. *)
Fixpoint command_substitution (lines : list string) : list string :=
match lines with
| [] => []
| l :: rest =>
    match command_substitution rest with
    | [] => if String.eqb l "" then [] else [l]
    | rest' => l :: rest'
    end
end.

(** [mapfile -t a <<<"${text}"]: the here-string ends the text with a
  newline, so an empty text is one empty line. *)
Definition mapfile_here_string (lines : list string) : list string :=
match lines with
| [] => [""]
| _ => lines
end.

(** The integers of shell arithmetic are signed and 64 bits wide; a result
  out of range wraps around. *)
Definition intmax_t (z : Z) : Z := ((z + 2 ^ 63) mod 2 ^ 64 - 2 ^ 63)%Z.

(** The digits of a numeric constant of an arithmetic expression, read from
  left to right: [val = (val * base) + c], and a digit that is not below the
  base is the error [value too great for base].  (The strings read here hold
  digits only, as the option loop admits no other.) *)
Fixpoint strlong (base val : Z) (digits : string) : option Z :=
match digits with
| EmptyString => Some val
| String c digits =>
    let c := (Z.of_N (N_of_ascii c) - 48)%Z in
    if ((0 <=? c) && (c <? base))%Z
    then strlong base (intmax_t (val * base + c)) digits
    else None
end.

(** [FILTER_VALUE] as the arithmetic expression that [--first] and [--last]
  make of it.  It holds digits only, so it is one constant: with a leading
  [0] the remaining digits are octal, otherwise all of them are decimal. *)
Definition arith_value (FILTER_VALUE : string) : option Z :=
match FILTER_VALUE with
| EmptyString => Some 0%Z
| String c digits =>
    if Ascii.eqb c "0"%char then strlong 8 0 digits
    else strlong 10 0 FILTER_VALUE
end.

(** [start_idx=$((${#explicit_array[@]} - FILTER_VALUE))] and its clamp;
  [None] when the expression is in error. *)
Definition start_idx (explicit_array : list string) (FILTER_VALUE : string)
  : option Z :=
match arith_value FILTER_VALUE with
| None => None
| Some value =>
    let start_idx := intmax_t (Z.of_nat (length explicit_array) - value) in
    Some (if (start_idx <? 0)%Z then 0%Z else start_idx)
end.

(** [declare -A all_packages_map] as the loop
  [all_packages_map["${pkg}"]=1] over [all_packages] has filled it before
  the [case].  (The names of [all_packages] are not empty: an empty one is a
  bad array subscript, which ends the script in that loop.) *)
Definition all_packages_map (all_packages : list string) : gmap string string :=
foldl (fun installed pkg => <[pkg := "1"]> installed) ∅ all_packages.

(** The loop of [--select] over [selected_packages].  It ends the script at
  the first [pkg] for which [[[ -z ${all_packages_map[${pkg}]-} ]]] holds,
  the entry being unset or empty, or which is empty itself and so a bad
  array subscript: [Some pkg].  [None] when it runs through. *)
Fixpoint verify_installed (installed : gmap string string)
  (selected_packages : list string) : option string :=
match selected_packages with
| [] => None
| pkg :: rest =>
    if String.eqb pkg "" then Some pkg
    else if String.eqb (default "" (installed !! pkg)) "" then Some pkg
    else verify_installed installed rest
end.

(** The [case "${FILTER_MODE}"].  [shuffled] is the permutation of its input
  lines that [shuf] draws.  Under [set -e] an expansion in error ends the
  script with status 1, as [exit 1] does. *)
Definition select_packages (filter : Filter)
  (explicit_array all_packages shuffled : list string) : Outcome :=
match filter with
| first FILTER_VALUE =>
    (* "${explicit_array[@]:0:FILTER_VALUE}" *)
    match arith_value FILTER_VALUE with
    | None => Exit 1
    | Some len =>
        if (len <? 0)%Z then Exit 1 (* substring expression < 0 *)
        else Selected (take (Z.to_nat len) explicit_array)
    end
| last FILTER_VALUE =>
    match start_idx explicit_array FILTER_VALUE with
    | None => Exit 1
    | Some start_idx =>
        (* "${explicit_array[@]:start_idx}" *)
        Selected (drop (Z.to_nat start_idx) explicit_array)
    end
| random FILTER_VALUE =>
    let random_pkgs := command_substitution (shuf_n shuffled FILTER_VALUE) in
    Selected (mapfile_here_string random_pkgs)
| select names =>
    match verify_installed (all_packages_map all_packages) names with
    | Some _ => Exit 1
    | None => Selected names
    end
end.

(** The permutations that [shuf] can draw for [--random]. *)
Definition shuf_draws (explicit_array shuffled : list string) : Prop :=
Permutation (printf_lines explicit_array) shuffled.

End CollectDeps.

(** The number that a string of digits denotes in base ten: [Some N] for
    the decimal numeral of [N] without a leading zero, [0] being written
    [0]; [None] for every other string. *)
Fixpoint decimal_digits (val : Z) (s : string) : option Z :=
  match s with
  | EmptyString => Some val
  | String c s' =>
      if (Ascii.leb "0" c && Ascii.leb c "9")%char
      then decimal_digits (10 * val + (Z.of_N (N_of_ascii c) - 48)) s'
      else None
  end.

Definition decimal_numeral (s : string) : option Z :=
  match s with
  | EmptyString => None
  | String c s' =>
      if Ascii.eqb c "0"%char
      then (if String.eqb s' "" then Some 0%Z else None)
      else decimal_digits 0 s
  end.

(** Twelve explicitly installed packages, in the order of their listing. *)
Definition example_explicit : list string :=
  ["p01"; "p02"; "p03"; "p04"; "p05"; "p06";
   "p07"; "p08"; "p09"; "p10"; "p11"; "p12"].

(** The code-unit order of two names; on names made of lower-case ASCII
    letters and digits every locale's [localeCompare] has its sign. *)
Definition codeUnitCompare (a b : string) : Z :=
  match String.compare a b with
  | Lt => (-1)%Z
  | Eq => 0%Z
  | Gt => 1%Z
  end.

(** ** Notions used by the properties *)

(** The names that are keys of the graph. *)
Definition is_key (nodes : list PackageNode) (name : string) : Prop :=
  name ∈ map id nodes.

#[export] Instance is_key_dec (nodes : list PackageNode) (name : string)
  : Decision (is_key nodes name).
Proof. unfold is_key. apply _. Defined.

(** A missing dependency: the target of a [depends_on] edge of some node
    that is no key of the graph. *)
Definition missing_target (nodes : list PackageNode) (dep : string) : Prop :=
  (exists n, n ∈ nodes /\ dep ∈ depends_on n) /\ ~ is_key nodes dep.

(** A record is real when it is not flagged as broken. *)
Definition real (n : PackageNode) : Prop := truthy (broken n) = false.

(** Edge symmetry among the real records of a list: every [depends_on] edge
    has its [required_by] counterpart. *)
Definition symmetric_edges (nodes : list PackageNode) : Prop :=
  forall a b, a ∈ nodes -> b ∈ nodes -> real a -> real b ->
    id b ∈ depends_on a -> id a ∈ required_by b.

(** The graph of the end-to-end example. *)
Definition example_A : PackageNode :=
  {| id := "A"; explicit := true; version := "1.0";
     depends_on := ["B"]; required_by := [];
     broken := None; repo := None; locally_built := None; url := None;
     optional_depends_on := None; optional_required_by := None |}.

Definition example_B : PackageNode :=
  {| id := "B"; explicit := false; version := "1.0";
     depends_on := ["C"]; required_by := ["A"];
     broken := None; repo := None; locally_built := None; url := None;
     optional_depends_on := None; optional_required_by := None |}.

Definition example_graph : list PackageNode := [example_A; example_B].

(** A package whose only missing target is an optional one. *)
Definition example_optional : PackageNode :=
  {| id := "X"; explicit := true; version := "1.0";
     depends_on := []; required_by := [];
     broken := None; repo := None; locally_built := None; url := None;
     optional_depends_on := Some ["Y"]; optional_required_by := Some [] |}.

(** Two real packages with a [depends_on] edge that has no [required_by]
    counterpart. *)
Definition example_one_way : list PackageNode :=
  [ {| id := "A"; explicit := true; version := "1.0";
       depends_on := ["B"]; required_by := [];
       broken := None; repo := None; locally_built := None; url := None;
       optional_depends_on := None; optional_required_by := None |};
    {| id := "B"; explicit := false; version := "1.0";
       depends_on := []; required_by := [];
       broken := None; repo := None; locally_built := None; url := None;
       optional_depends_on := None; optional_required_by := None |} ].

(** ** Closures and reachability *)

Section Closure.
Variable edges : PackageNode -> list string.
Variable nodes : list PackageNode.

(** The two closures differ in the edge list they follow: [collect] is
    their common shape, over any edge list. *)
Fixpoint collect (fuel : nat) (packageId : string) (result : JsSet.t)
  : option JsSet.t :=
  match fuel with
  | O => None
  | S fuel' =>
      if JsSet.has result packageId then Some result
      else
        let result := JsSet.add result packageId in
        match find_node packageId nodes with
        | None => Some result
        | Some pkg => forEach (fun dep r => collect fuel' dep r) (edges pkg) result
        end
  end.

(** An edge of the graph: [y] is in the edge list of the record of [x]. *)
Definition edge_of (x y : string) : Prop :=
  exists pkg, find_node x nodes = Some pkg /\ y ∈ edges pkg.

(** [y] is reached from [x] by following edges, zero or more times. *)
Definition reachable (x y : string) : Prop := rtc edge_of x y.

(** The targets of the graph that are not yet in [result], with repetition:
    what bounds the depth of the recursion. *)
Definition pending (result : list string) : nat :=
  length (List.filter (fun x => negb (JsSet.has result x)) (flat_map edges nodes)).

(** Every member of [result] outside of [grey] has its edges inside. *)
Definition closed_except (grey : string -> Prop) (result : list string) : Prop :=
  forall x y, x ∈ result -> ~ grey x -> edge_of x y -> y ∈ result.
End Closure.

(** ** Links of a sub-graph *)

(** The key of [linkSet] for the pair of a source and a target. *)
Definition link_key (source target : string) : string :=
  source +:+ "->" +:+ target.

Definition key_of {LinkType : Type} (l : Investigate.PackageLink LinkType)
  : string :=
  link_key (Investigate.source l) (Investigate.target l).

(** The ordered pair of a link. *)
Definition link_pair {LinkType : Type} (l : Investigate.PackageLink LinkType)
  : string * string :=
  (Investigate.source l, Investigate.target l).

(** What both link helpers do with a candidate link: push it unless its key
    is in [linkSet]. *)
Definition push_link {LinkType : Type} (linkKey : string)
    (link : Investigate.PackageLink LinkType)
    (st : list string * list (Investigate.PackageLink LinkType))
  : list string * list (Investigate.PackageLink LinkType) :=
  if negb (JsSet.has (fst st) linkKey)
  then (JsSet.add (fst st) linkKey, snd st ++ [link])
  else st.

(** The scan of one adjacency list: the candidates that pass the test [c]
    are pushed. *)
Definition scan_links {LinkType : Type} (c : string -> bool)
    (k : string -> string) (mk : string -> Investigate.PackageLink LinkType)
    (l : list string)
    (st : list string * list (Investigate.PackageLink LinkType))
  : list string * list (Investigate.PackageLink LinkType) :=
  foldl (fun st x => if c x then push_link (k x) (mk x) st else st) st l.

(** [linkSet] holds the keys of [subLinks], in the same order, each once. *)
Definition links_inv {LinkType : Type}
    (st : list string * list (Investigate.PackageLink LinkType)) : Prop :=
  fst st = map key_of (snd st) /\ NoDup (fst st).

(** The pairs that the scan of the included nodes proposes: [s -> t] is in
    the [depends_on] list of an included [s] when the direction has the
    forward edges, or [s] is in the [required_by] list of an included [t] when
    it has the reverse edges; the other endpoint is in the node set too. *)
Definition link_from (direction : Investigate.DependencyDirection)
    (treePackageIds : list string) (subNodes : list PackageNode)
    (s t : string) : Prop :=
  (direction <> Investigate.reverse /\
   exists n, n ∈ subNodes /\ s = id n /\ t ∈ depends_on n /\ t ∈ treePackageIds) \/
  (direction <> Investigate.forward /\
   exists n, n ∈ subNodes /\ t = id n /\ s ∈ required_by n /\ s ∈ treePackageIds).

(** A name without the character [>]: package names are made of
    alphanumerics and [-], [+], [.], [@], [_]. *)
Fixpoint no_gt (s : string) : bool :=
  match s with
  | EmptyString => true
  | String c s' => negb (Ascii.eqb c ">"%char) && no_gt s'
  end.

(** The names that can be the source of a link have no [>]. *)
Definition plain_names (nodes : list PackageNode) : bool :=
  forallb (fun n => no_gt (id n) && forallb no_gt (required_by n)) nodes.

(** Two packages that depend on each other. *)
Definition example_mutual_A : PackageNode :=
  {| id := "A"; explicit := true; version := "1.0";
     depends_on := ["B"]; required_by := ["B"];
     broken := None; repo := None; locally_built := None; url := None;
     optional_depends_on := None; optional_required_by := None |}.

Definition example_mutual_B : PackageNode :=
  {| id := "B"; explicit := false; version := "1.0";
     depends_on := ["A"]; required_by := ["A"];
     broken := None; repo := None; locally_built := None; url := None;
     optional_depends_on := None; optional_required_by := None |}.

Definition example_mutual : list PackageNode :=
  [example_mutual_A; example_mutual_B].

(** ** Frames of the store *)

(** [st'] is [st] with new objects after it: nothing that was in the store has
    changed. *)
Definition only_allocates {LinkType : Type}
    (st st' : list (InStore.Obj LinkType)) : Prop :=
  exists new, st' = st ++ new.

(** [st'] is [st] but for the object at [l]. *)
Definition only_updates {LinkType : Type} (l : nat)
    (st st' : list (InStore.Obj LinkType)) : Prop :=
  length st' = length st /\ forall l', l' <> l -> st' !! l' = st !! l'.

(** A comparator that orders any two names one way or the other. *)
Definition total_compare (compareFn : string -> string -> Z) : Prop :=
  forall x y, (0 < compareFn x y)%Z -> (compareFn y x <= 0)%Z.

(** A store whose only object is the array of [B] and [A], in that order. *)
Definition example_store : list (InStore.Obj unit) :=
  [InStore.NodeArray [example_B; example_A]].

(** ** The remaining functions of [ui/lib/packages.ts] *)

(** [collectDependencies]: the state of the recursion is the pair of the
    sets [visited] and [result]. *)
Fixpoint collectDependencies (fuel : nat) (packageId : string)
    (nodes : list PackageNode) (visited result : JsSet.t)
  : option (JsSet.t * JsSet.t) :=
  match fuel with
  | O => None
  | S fuel' =>
      if JsSet.has visited packageId then Some (visited, result)
      else
        let visited := JsSet.add visited packageId in
        match find_node packageId nodes with
        | None => Some (visited, result)
        | Some pkg =>
            forEach (fun dep st =>
                       collectDependencies fuel' dep nodes (fst st)
                         (JsSet.add (snd st) dep))
                    (depends_on pkg) (visited, result)
        end
  end.

(** [y] is reached from [x] by following edges, once or more. *)
Definition reachable_by_edges (edges : PackageNode -> list string)
    (nodes : list PackageNode) (x y : string) : Prop :=
  tc (edge_of edges nodes) x y.

(** The edges of every visited name outside of [grey] end in [result]. *)
Definition targets_collected (nodes : list PackageNode) (grey : string -> Prop)
    (st : list string * list string) : Prop :=
  forall x y, x ∈ fst st -> ~ grey x -> edge_of depends_on nodes x y -> y ∈ snd st.

(** [l] is the beginning of [l']. *)
Definition extends_list (l l' : list string) : Prop := exists new, l' = l ++ new.

(** A graph without dangling edges: every name in a [depends_on] or a
    [required_by] list is a key. *)
Definition closed_graph (nodes : list PackageNode) : Prop :=
  forall n, n ∈ nodes ->
    (forall d, d ∈ depends_on n -> is_key nodes d) /\
    (forall r, r ∈ required_by n -> is_key nodes r).

(** A comparator that is transitive and gives zero on equal names. *)
Definition transitive_compare (compareFn : string -> string -> Z) : Prop :=
  forall x y z,
    (compareFn x y <= 0)%Z -> (compareFn y z <= 0)%Z -> (compareFn x z <= 0)%Z.

Definition reflexive_compare (compareFn : string -> string -> Z) : Prop :=
  forall x, compareFn x x = 0%Z.

(** ** The package list of the Investigate view *)

Module InvestigateList.

(** ["all"], ["explicit"] and ["dependency"]. *)
Inductive InvestigateFilterType :=
| filter_all
| filter_explicit
| filter_dependency.

Section List.
Context {LinkType : Type}.
(** [fuzzyMatch] comes from [lib/search], which is not part of the sources:
    it is a parameter. *)
Variable fuzzyMatch : string -> string -> bool.
Variable localeCompare : string -> string -> Z.

Local Notation "'let*' x := m 'in' k" := (InStore.bind m (fun x => k))
  (at level 10, x name, m at level 100, k at level 200, only parsing).

(** The elements of [filteredPackages]. *)
Definition filtered_list (nodes : list PackageNode) (searchQuery : string)
    (filterType : InvestigateFilterType) : list PackageNode :=
  let filtered := List.filter (fun n => fuzzyMatch searchQuery (id n)) nodes in
  let filtered :=
    match filterType with
    | filter_explicit => List.filter (fun n => explicit n) filtered
    | filter_dependency => List.filter (fun n => negb (explicit n)) filtered
    | filter_all => filtered
    end in
  sorted_by_name localeCompare filtered.

(** [filteredPackages] on the store: each [filter] makes a new array, and
    the last one is sorted in place. *)
Definition filteredPackages (nodes : nat) (searchQuery : string)
    (filterType : InvestigateFilterType) : InStore.M (LinkType := LinkType) nat :=
  let* a := InStore.read_nodes nodes in
  let* filtered :=
    InStore.alloc
      (InStore.NodeArray (List.filter (fun n => fuzzyMatch searchQuery (id n)) a)) in
  let* filtered :=
    match filterType with
    | filter_explicit =>
        let* f := InStore.read_nodes filtered in
        InStore.alloc (InStore.NodeArray (List.filter (fun n => explicit n) f))
    | filter_dependency =>
        let* f := InStore.read_nodes filtered in
        InStore.alloc (InStore.NodeArray (List.filter (fun n => negb (explicit n)) f))
    | filter_all => InStore.ret filtered
    end in
  InStore.sortPackagesByName localeCompare filtered.
End List.

End InvestigateList.

(** ** More steps of [collect-deps.sh] *)

Module CollectDepsSteps.

(** *** The command line *)

(** The variables that the option loop sets. *)
Record Options := mkOptions {
  DEBUG : bool;
  FILTER_MODE : string;
  FILTER_VALUE : string;
}.

(** [DEBUG=false], [FILTER_MODE=""], [FILTER_VALUE=""]. *)
Definition initial_options : Options :=
  {| DEBUG := false; FILTER_MODE := ""; FILTER_VALUE := "" |}.

Definition is_digit (c : ascii) : bool :=
  (Ascii.leb "0" c && Ascii.leb c "9")%char.

Fixpoint all_digits (s : string) : bool :=
  match s with
  | EmptyString => true
  | String c s' => is_digit c && all_digits s'
  end.

(** [[[ $2 =~ ^[0-9]+$ ]]] *)
Definition numeric (s : string) : bool :=
  negb (String.eqb s "") && all_digits s.

Inductive Parsed :=
| Parsed_ok (options : Options)
| Parsed_exit (status : nat).

(** [while [[ $# -gt 0 ]]; do case "$1" in ... esac; done]: an option with
    a value shifts by two. *)
Fixpoint parse_args (args : list string) (o : Options) : Parsed :=
  match args with
  | [] => Parsed_ok o
  | arg :: rest =>
      if String.eqb arg "--debug" || String.eqb arg "-d" then
        parse_args rest
          {| DEBUG := true; FILTER_MODE := FILTER_MODE o;
             FILTER_VALUE := FILTER_VALUE o |}
      else if String.eqb arg "--first" || String.eqb arg "-f" then
        match rest with
        | value :: rest' =>
            if numeric value then
              parse_args rest'
                {| DEBUG := DEBUG o; FILTER_MODE := "first"; FILTER_VALUE := value |}
            else Parsed_exit 1
        | [] => Parsed_exit 1
        end
      else if String.eqb arg "--last" || String.eqb arg "-l" then
        match rest with
        | value :: rest' =>
            if numeric value then
              parse_args rest'
                {| DEBUG := DEBUG o; FILTER_MODE := "last"; FILTER_VALUE := value |}
            else Parsed_exit 1
        | [] => Parsed_exit 1
        end
      else if String.eqb arg "--random" || String.eqb arg "-r" then
        match rest with
        | value :: rest' =>
            if numeric value then
              parse_args rest'
                {| DEBUG := DEBUG o; FILTER_MODE := "random"; FILTER_VALUE := value |}
            else Parsed_exit 1
        | [] => Parsed_exit 1
        end
      else if String.eqb arg "--select" || String.eqb arg "-s" then
        match rest with
        | value :: rest' =>
            if negb (String.eqb value "") then
              parse_args rest'
                {| DEBUG := DEBUG o; FILTER_MODE := "select"; FILTER_VALUE := value |}
            else Parsed_exit 1
        | [] => Parsed_exit 1
        end
      else Parsed_exit 1
  end.

(** What the later steps rely on: a numeric mode has a value made of
    digits, the select mode has a value, no mode has no value. *)
Definition valid_options (o : Options) : Prop :=
  (FILTER_MODE o = "" /\ FILTER_VALUE o = "") \/
  ((FILTER_MODE o = "first" \/ FILTER_MODE o = "last" \/ FILTER_MODE o = "random")
   /\ numeric (FILTER_VALUE o) = true) \/
  (FILTER_MODE o = "select" /\ FILTER_VALUE o <> "").

(** *** Associative arrays *)

(** ["${M[${k}]-}"]: the value of the key, or the empty string. *)
Definition get (M : gmap string string) (k : string) : string :=
  default "" (M !! k).

(** [[[ -n ... ]]] *)
Definition non_empty (s : string) : bool := negb (String.eqb s "").

(** *** The restriction to the selected trees (step 2.5) *)

(** The loop over the lines of one [pactree_out]. *)
Definition include_lines (included_packages : gmap string string)
    (pactree_out : list string) : gmap string string :=
  foldl (fun inc dep_pkg =>
           if non_empty dep_pkg then <[dep_pkg := "1"]> inc else inc)
        included_packages pactree_out.

(** "Building complete dependency tree": [pactree_o pkg] is the cleaned,
    sorted output of the pipeline for [pkg], or [None] when the pipeline
    fails, which ends the script ([set -euo pipefail]). *)
Definition build_included (pactree_o : string -> option (list string))
    (selected_packages : list string) : option (gmap string string) :=
  forEach (fun pkg inc =>
             match pactree_o pkg with
             | Some pactree_out => Some (include_lines inc pactree_out)
             | None => None
             end)
          selected_packages ∅.

(** [filtered_packages]. *)
Definition filter_packages (included_packages : gmap string string)
    (all_packages : list string) : list string :=
  List.filter (fun pkg => non_empty (get included_packages pkg)) all_packages.

(** [new_explicit_count]. *)
Definition count_explicit_in (EXPLICIT : gmap string string)
    (filtered_packages : list string) : nat :=
  length (List.filter (fun pkg => non_empty (get EXPLICIT pkg)) filtered_packages).

(** The new [all_packages] and [explicit_count], or the exit. *)
Definition restrict_packages (pactree_o : string -> option (list string))
    (EXPLICIT : gmap string string)
    (selected_packages all_packages : list string)
  : option (list string * nat) :=
  match build_included pactree_o selected_packages with
  | Some included_packages =>
      let filtered_packages := filter_packages included_packages all_packages in
      Some (filtered_packages, count_explicit_in EXPLICIT filtered_packages)
  | None => None
  end.

(** *** The repository of a package (steps 6 and 8) *)



End CollectDepsSteps.

(** ** [ui/lib/d3Utils.ts] *)

Module D3Utils.

(** An element of the selection [svg.selectAll(".node")]: the id of the
    datum bound to it and its class list.  Every such element is taken to
    have a datum, as the filters read [d.id]. *)
Record NodeElement := mkNodeElement {
  datum_id : string;
  classList : list string;
}.

(** [selection.classed(name, value)] on one element, for a [name] that is
    one class token: [classList.add] or [classList.remove] of that token.
    (d3 splits a name at white space and treats each part in this way; the
    names passed in this module, [selected] and [list-selected], are one
    token each.) *)
Definition classed (name : string) (value : bool) (e : NodeElement)
  : NodeElement :=
  {| datum_id := datum_id e;
     classList :=
       if value then
         if bool_decide (name ∈ classList e) then classList e
         else classList e ++ [name]
       else List.filter (fun c => negb (String.eqb c name)) (classList e) |}.

(** [.filter((d) => d.id === selectedId).classed(name, true)] within the
    selection. *)
Definition classed_where (name selectedId : string) (e : NodeElement)
  : NodeElement :=
  if String.eqb (datum_id e) selectedId then classed name true e else e.

(** The truthiness of a [string | null]. *)
Definition truthy_id (selectedId : option string) : bool :=
  match selectedId with
  | Some s => negb (String.eqb s "")
  | None => false
  end.

(** [svg] is [svgRef.current]: [None] when there is no element, otherwise
    the elements of class [node] below it, in document order. *)
Definition updateNodeSelection (svg : option (list NodeElement))
    (selectedNodeId : option string) (sidebarHidden : bool)
  : option (list NodeElement) :=
  match svg with
  | None => None
  | Some nodes =>
      let nodes := map (classed "selected" false) nodes in
      Some (if truthy_id selectedNodeId && negb sidebarHidden
            then map (classed_where "selected" (default "" selectedNodeId)) nodes
            else nodes)
  end.

Definition updateDualSelection (svg : option (list NodeElement))
    (listSelectedId graphSelectedId : option string) (sidebarHidden : bool)
  : option (list NodeElement) :=
  match svg with
  | None => None
  | Some nodes =>
      let nodes :=
        map (classed "list-selected" false) (map (classed "selected" false) nodes) in
      let nodes :=
        if truthy_id listSelectedId
        then map (classed_where "list-selected" (default "" listSelectedId)) nodes
        else nodes in
      Some (if truthy_id graphSelectedId && negb sidebarHidden
            then map (classed_where "selected" (default "" graphSelectedId)) nodes
            else nodes)
  end.

Definition clearNodeSelection (svg : option (list NodeElement))
  : option (list NodeElement) :=
  match svg with
  | None => None
  | Some nodes =>
      Some (map (classed "list-selected" false)
              (map (classed "selected" false) nodes))
  end.

End D3Utils.

(** One element through the three steps of [updateDualSelection]: [tl] and
    [tg] tell whether the second and the third step are taken. *)
Definition dual_element (l g : string) (tl tg : bool) (e : D3Utils.NodeElement)
  : D3Utils.NodeElement :=
  let e1 := D3Utils.classed "list-selected" false
              (D3Utils.classed "selected" false e) in
  let e2 := if tl then D3Utils.classed_where "list-selected" l e1 else e1 in
  if tg then D3Utils.classed_where "selected" g e2 else e2.

(** The classes that are no selection class. *)
Definition keep_class (c : string) : bool :=
  negb (String.eqb c "selected") && negb (String.eqb c "list-selected").

(** * Properties *)

(** ** Containers *)

Lemma JsSet_has_true (s : list string) (x : string) :
  JsSet.has s x = true <-> x ∈ s.
Proof. unfold JsSet.has. apply bool_decide_eq_true. Qed.

Lemma JsSet_has_false (s : list string) (x : string) :
  JsSet.has s x = false <-> x ∉ s.
Proof. unfold JsSet.has. apply bool_decide_eq_false. Qed.

Lemma JsSet_elem_of_add (s : list string) (x y : string) :
  y ∈ JsSet.add s x <-> y ∈ s \/ y = x.
Proof.
  unfold JsSet.add. destruct (JsSet.has s x) eqn:Hx.
  - apply JsSet_has_true in Hx. split; [tauto | intros [?| ->]; done].
  - rewrite elem_of_app, list_elem_of_singleton. tauto.
Qed.

Lemma JsSet_NoDup_add (s : list string) (x : string) :
  NoDup s -> NoDup (JsSet.add s x).
Proof.
  intros Hs. unfold JsSet.add. destruct (JsSet.has s x) eqn:Hx; [done |].
  apply JsSet_has_false in Hx. apply NoDup_app. split; [done |].
  split; [| apply NoDup_singleton].
  intros y Hy ->%list_elem_of_singleton. done.
Qed.

Lemma find_node_Some (packageId : string) (nodes : list PackageNode) (pkg : PackageNode) :
  find_node packageId nodes = Some pkg -> pkg ∈ nodes /\ id pkg = packageId.
Proof.
  unfold find_node. intros H. apply find_some in H as [Hin Heq].
  split; [by apply list_elem_of_In | by apply String.eqb_eq].
Qed.

Lemma find_node_None (packageId : string) (nodes : list PackageNode) :
  find_node packageId nodes = None <-> packageId ∉ map id nodes.
Proof.
  unfold find_node. induction nodes as [| n nodes IH]; simpl.
  - split; [intros _; apply not_elem_of_nil | done].
  - rewrite not_elem_of_cons. destruct (String.eqb_spec (id n) packageId) as [-> | Hne].
    + split; [done | intros [? _]; done].
    + rewrite IH. split; [intros ?; split; congruence | tauto].
Qed.

(** ** Orphans *)

(** C3, as the code has it: a record is classified as orphaned exactly when
    its explicit flag is false and its requiredBy list is empty; the broken
    flag is not looked at. *)
Theorem isOrphaned_iff (pkg : PackageNode) :
  isOrphaned pkg = true <-> explicit pkg = false /\ required_by pkg = [].
Proof.
  unfold isOrphaned. rewrite andb_true_iff, negb_true_iff, Nat.eqb_eq.
  split; intros [He Hr]; split; try done.
  - by destruct (required_by pkg).
  - by rewrite Hr.
Qed.

(** C3 fails as stated: the synthetic record of a missing package is broken
    and still classified as orphaned. *)
Lemma isOrphaned_broken_counterexample :
  ~ (isOrphaned (synthetic_node "libfoo") = true <->
     explicit (synthetic_node "libfoo") = false /\
     required_by (synthetic_node "libfoo") = [] /\
     truthy (broken (synthetic_node "libfoo")) = false).
Proof. simpl. intros [H _]. by destruct (H eq_refl) as (_ & _ & ?). Qed.

(** ** Counting *)

Lemma filter_length_split {A : Type} (p q r : A -> bool) (l : list A) :
  (forall x, (p x, q x, r x) = (true, false, false) \/
             (p x, q x, r x) = (false, true, false) \/
             (p x, q x, r x) = (false, false, true)) ->
  length (List.filter p l) + length (List.filter q l) + length (List.filter r l)
  = length l.
Proof.
  intros Hpart. induction l as [| x l IH]; [done |]. simpl.
  destruct (Hpart x) as [H | [H | H]]; injection H as -> -> ->; simpl; lia.
Qed.

(** C4: the counts add up to the total; [explicit] counts the explicit nodes
    that are not broken, [broken] the broken ones, and [dependency], the
    total minus these two, counts the nodes that are neither. *)
Theorem countPackages_invariant (nodes : list PackageNode) :
  let c := countPackages nodes in
  (count_explicit c + count_dependency c + count_broken c = count_total c)%Z /\
  count_total c = Z.of_nat (length nodes) /\
  count_explicit c =
    Z.of_nat (length (List.filter (fun n => explicit n && negb (truthy (broken n))) nodes)) /\
  count_broken c =
    Z.of_nat (length (List.filter (fun n => truthy (broken n)) nodes)) /\
  (count_dependency c = count_total c - count_explicit c - count_broken c)%Z /\
  count_dependency c =
    Z.of_nat (length (List.filter (fun n => negb (explicit n) && negb (truthy (broken n))) nodes)).
Proof.
  simpl. repeat split; try lia.
  pose proof (filter_length_split
    (fun n => explicit n && negb (truthy (broken n)))
    (fun n => negb (explicit n) && negb (truthy (broken n)))
    (fun n => truthy (broken n)) nodes) as H.
  rewrite <- H at 1.
  - lia.
  - intros x. destruct (explicit x), (truthy (broken x)); simpl; tauto.
Qed.

(** ** Broken dependencies *)

Section BrokenDependencies.
Variable nodes : list PackageNode.

Lemma build_nodeMap_lookup (m : gmap string PackageNode) (l : list PackageNode)
    (k : string) :
  is_Some (foldl (fun m node => <[id node := node]> m) m l !! k) <->
  is_Some (m !! k) \/ k ∈ map id l.
Proof.
  revert m. induction l as [| n l IH]; intros m; simpl.
  - rewrite elem_of_nil. tauto.
  - rewrite IH, elem_of_cons, lookup_insert_is_Some.
    destruct (decide (id n = k)) as [Heq | Hne]; intuition congruence.
Qed.

Lemma Map_has_nodeMap (k : string) :
  Map_has (build_nodeMap nodes) k = true <-> is_key nodes k.
Proof.
  unfold Map_has, build_nodeMap, is_key.
  rewrite bool_decide_eq_true, build_nodeMap_lookup, lookup_empty.
  split; [intros [[? ?] | ?]; done | tauto].
Qed.

Lemma Map_has_nodeMap_false (k : string) :
  Map_has (build_nodeMap nodes) k = false <-> ~ is_key nodes k.
Proof. rewrite <- Map_has_nodeMap. by destruct (Map_has _ k). Qed.

(** The inner loop adds the targets that are no key, each once. *)
Lemma detect_inner (m : gmap string PackageNode) (deps acc : list string) :
  let acc' :=
    foldl (fun brokenDeps dep =>
             if negb (Map_has m dep) then JsSet.add brokenDeps dep
             else brokenDeps) acc deps in
  (NoDup acc -> NoDup acc') /\
  (forall d, d ∈ acc' <-> d ∈ acc \/ (d ∈ deps /\ Map_has m d = false)).
Proof.
  revert acc. induction deps as [| x deps IH]; intros acc; simpl.
  - split; [done |]. intros d. rewrite elem_of_nil. tauto.
  - destruct (IH (if negb (Map_has m x) then JsSet.add acc x else acc))
      as [IHnd IHin].
    split.
    + intros Hnd. apply IHnd. destruct (Map_has m x); simpl; [done |].
      by apply JsSet_NoDup_add.
    + intros d. rewrite IHin, elem_of_cons.
      destruct (Map_has m x) eqn:Hx; simpl.
      * split; [tauto |]. intros [? | [[-> | ?] ?]]; [tauto | congruence | tauto].
      * rewrite JsSet_elem_of_add.
        split; [intros [[? | ->] | [? ?]]; tauto | tauto].
Qed.

Lemma detect_outer (m : gmap string PackageNode) (l : list PackageNode)
    (acc : list string) :
  let acc' :=
    foldl (fun brokenDeps node =>
             foldl (fun brokenDeps dep =>
                      if negb (Map_has m dep) then JsSet.add brokenDeps dep
                      else brokenDeps)
                   brokenDeps (depends_on node)) acc l in
  (NoDup acc -> NoDup acc') /\
  (forall d, d ∈ acc' <->
             d ∈ acc \/ ((exists n, n ∈ l /\ d ∈ depends_on n) /\ Map_has m d = false)).
Proof.
  revert acc. induction l as [| n l IH]; intros acc; simpl.
  - split; [done |]. intros d. split; [tauto |].
    intros [? | [(n & Hn & _) _]]; [done |]. by apply elem_of_nil in Hn.
  - destruct (detect_inner m (depends_on n) acc) as [Ind Iin].
    simpl in Ind, Iin.
    match goal with |- context [foldl _ ?a l] => destruct (IH a) as [IHnd IHin] end.
    split; [tauto |].
    intros d. rewrite IHin, Iin. split.
    + intros [[? | [? ?]] | [(n' & Hn' & Hd) ?]]; [tauto | |].
      * right. split; [| done]. exists n. split; [apply elem_of_cons; tauto | done].
      * right. split; [| done]. exists n'. split; [apply elem_of_cons; tauto | done].
    + intros [? | [(n' & Hn' & Hd) ?]]; [tauto |].
      apply elem_of_cons in Hn' as [-> | Hn']; [tauto |].
      right. split; [| done]. by exists n'.
Qed.

Lemma detect_broken_spec :
  let brokenDeps := detect_broken (build_nodeMap nodes)
                      (map (clean_node (build_nodeMap nodes)) nodes) in
  NoDup brokenDeps /\ (forall d, d ∈ brokenDeps <-> missing_target nodes d).
Proof.
  destruct (detect_outer (build_nodeMap nodes)
              (map (clean_node (build_nodeMap nodes)) nodes) JsSet.empty)
    as [Hnd Hin].
  split; [apply Hnd, NoDup_nil_2 |].
  intros d. unfold detect_broken. rewrite Hin. unfold missing_target, JsSet.empty.
  rewrite Map_has_nodeMap_false, elem_of_nil. split.
  - intros [[] | [(c & Hc & Hd) Hk]]. split; [| done].
    apply list_elem_of_fmap in Hc as (n & -> & Hn). by exists n.
  - intros [(n & Hn & Hd) Hk]. right. split; [| done].
    exists (clean_node (build_nodeMap nodes) n). split; [| done].
    apply list_elem_of_fmap. by exists n.
Qed.

Lemma processBrokenDependencies_unfold :
  processBrokenDependencies nodes =
    map (clean_node (build_nodeMap nodes)) nodes ++
    map synthetic_node
      (detect_broken (build_nodeMap nodes)
         (map (clean_node (build_nodeMap nodes)) nodes)).
Proof. unfold processBrokenDependencies. by destruct nodes. Qed.

Lemma clean_node_required_by (n : PackageNode) :
  required_by (clean_node (build_nodeMap nodes) n) =
    List.filter (fun r => bool_decide (is_key nodes r)) (required_by n).
Proof.
  simpl. apply List.filter_ext. intros r.
  destruct (Map_has (build_nodeMap nodes) r) eqn:Hr.
  - apply Map_has_nodeMap in Hr. by rewrite bool_decide_eq_true_2.
  - apply Map_has_nodeMap_false in Hr. by rewrite bool_decide_eq_false_2.
Qed.
End BrokenDependencies.

Lemma filter_id_cleaned (nodes : list PackageNode) (m : gmap string PackageNode)
    (d : string) :
  ~ is_key nodes d ->
  List.filter (fun r => String.eqb (id r) d) (map (clean_node m) nodes) = [].
Proof.
  unfold is_key. induction nodes as [| n nodes IH]; simpl; [done |].
  rewrite not_elem_of_cons. intros [Hne Hk].
  destruct (String.eqb_spec (id n) d); [congruence | by apply IH].
Qed.

Lemma filter_id_synthetic (l : list string) (d : string) :
  NoDup l ->
  List.filter (fun r => String.eqb (id r) d) (map synthetic_node l) =
    if bool_decide (d ∈ l) then [synthetic_node d] else [].
Proof.
  induction 1 as [| x l Hx Hnd IH]; simpl; [done |].
  rewrite IH. destruct (String.eqb_spec x d) as [-> | Hne].
  - rewrite (bool_decide_eq_false_2 _ Hx).
    by rewrite bool_decide_eq_true_2 by (apply elem_of_cons; tauto).
  - destruct (decide (d ∈ l)) as [Hin | Hnin].
    + rewrite (bool_decide_eq_true_2 _ Hin).
      by rewrite bool_decide_eq_true_2 by (apply elem_of_cons; tauto).
    + rewrite (bool_decide_eq_false_2 _ Hnin).
      rewrite bool_decide_eq_false_2; [done |].
      rewrite not_elem_of_cons. split; [congruence | done].
Qed.

(** C1, as the code has it: every target of a [depends_on] edge that is no
    key of the graph gets exactly one synthetic record (broken, version
    "missing", no edges), whatever the number of its referrers; the synthetic
    records are appended to the cleaned records of the input and nothing else
    is; a cleaned record keeps every field of its original but [required_by],
    which keeps the entries that are keys, and so keeps [depends_on].  The
    optional edges play no part. *)
Theorem processBrokenDependencies_synthesis (nodes : list PackageNode) :
  let out := processBrokenDependencies nodes in
  (forall d, missing_target nodes d ->
     List.filter (fun r => String.eqb (id r) d) out = [synthetic_node d] /\
     broken (synthetic_node d) = Some true /\
     version (synthetic_node d) = "missing" /\
     depends_on (synthetic_node d) = [] /\
     required_by (synthetic_node d) = []) /\
  (exists brokenDeps,
     out = take (length nodes) out ++ map synthetic_node brokenDeps /\
     NoDup brokenDeps /\
     forall d, d ∈ brokenDeps <-> missing_target nodes d) /\
  Forall2 (fun n c =>
             id c = id n /\ explicit c = explicit n /\ version c = version n /\
             depends_on c = depends_on n /\ broken c = broken n /\
             repo c = repo n /\ locally_built c = locally_built n /\
             url c = url n /\
             optional_depends_on c = optional_depends_on n /\
             optional_required_by c = optional_required_by n /\
             required_by c =
               List.filter (fun r => bool_decide (is_key nodes r)) (required_by n))
          nodes (take (length nodes) out).
Proof.
  intros out. subst out. rewrite processBrokenDependencies_unfold.
  destruct (detect_broken_spec nodes) as [Hnd Hin]. simpl in Hnd, Hin.
  set (m := build_nodeMap nodes) in *.
  set (bd := detect_broken m (map (clean_node m) nodes)) in *.
  assert (Htake : take (length nodes) (map (clean_node m) nodes ++ map synthetic_node bd)
                  = map (clean_node m) nodes).
  { rewrite take_app_length'; [done | by rewrite length_map]. }
  rewrite Htake. split; [| split].
  - intros d Hd. split; [| done].
    rewrite List.filter_app, filter_id_cleaned by apply Hd.
    rewrite filter_id_synthetic by done.
    apply Hin in Hd. by rewrite bool_decide_eq_true_2.
  - by exists bd.
  - apply Forall2_fmap_r, Forall_Forall2_diag, Forall_forall.
    intros n _. repeat split. apply clean_node_required_by.
Qed.

(** C1 fails as stated for the optional edges: the target ["Y"] of an
    optional edge of [X] is no key of the graph, and the output holds no
    record of that name. *)
Lemma processBrokenDependencies_optional_counterexample :
  optional_depends_on example_optional = Some ["Y"] /\
  ~ is_key [example_optional] "Y" /\
  processBrokenDependencies [example_optional] = [example_optional] /\
  ~ (exists r, r ∈ processBrokenDependencies [example_optional] /\ id r = "Y").
Proof.
  assert (Hout : processBrokenDependencies [example_optional] = [example_optional])
    by (by vm_compute).
  rewrite Hout. repeat split.
  - unfold is_key. simpl. by intros ?%list_elem_of_singleton.
  - intros (r & ->%list_elem_of_singleton & Hid). done.
Qed.

(** ** Edge symmetry *)

(** C10, as the code has it: the cleanup keeps the edge symmetry of the real
    records; it adds no [required_by] entry, so it does not establish it. *)
Theorem processBrokenDependencies_symmetric (nodes : list PackageNode) :
  symmetric_edges nodes -> symmetric_edges (processBrokenDependencies nodes).
Proof.
  intros Hsym a b. rewrite processBrokenDependencies_unfold.
  set (m := build_nodeMap nodes).
  assert (Hreal : forall c,
            c ∈ map (clean_node m) nodes ++ map synthetic_node
                  (detect_broken m (map (clean_node m) nodes)) ->
            real c -> exists n, n ∈ nodes /\ c = clean_node m n).
  { intros c Hc Hr. apply elem_of_app in Hc as [Hc | Hc].
    - apply list_elem_of_fmap in Hc as (n & -> & Hn). by exists n.
    - apply list_elem_of_fmap in Hc as (d & -> & _). done. }
  intros Ha Hb Hra Hrb Hdep.
  destruct (Hreal a Ha Hra) as (na & Hna & ->).
  destruct (Hreal b Hb Hrb) as (nb & Hnb & ->).
  subst m. rewrite clean_node_required_by.
  apply list_elem_of_In, List.filter_In. split.
  - apply list_elem_of_In. by apply (Hsym na nb).
  - apply bool_decide_eq_true. unfold is_key. simpl.
    apply list_elem_of_fmap. by exists na.
Qed.

Lemma example_graph_symmetric : symmetric_edges example_graph.
Proof.
  intros a b Ha Hb _ _. unfold example_graph in *.
  apply elem_of_cons in Ha as [-> | ->%list_elem_of_singleton];
  apply elem_of_cons in Hb as [-> | ->%list_elem_of_singleton]; simpl;
    intros Hd; try (by apply list_elem_of_singleton in Hd);
    by apply list_elem_of_singleton.
Defined.

Lemma processBrokenDependencies_symmetric_witness :
  symmetric_edges (processBrokenDependencies example_graph).
Proof.
  apply (processBrokenDependencies_symmetric example_graph).
  exact example_graph_symmetric.
Defined.

(** C10 fails as stated: the cleanup of a graph whose real records [A] and
    [B] have the edge [A -> B] only in [depends_on] yields the same two
    records, still without the [required_by] entry. *)
Lemma processBrokenDependencies_symmetry_counterexample :
  ~ symmetric_edges (processBrokenDependencies example_one_way).
Proof.
  assert (Hout : processBrokenDependencies example_one_way = example_one_way)
    by (by vm_compute).
  rewrite Hout. intros Hsym. unfold example_one_way in Hsym.
  match type of Hsym with
  | symmetric_edges [?a; ?b] =>
      specialize (Hsym a b (list_elem_of_here _ _)
                    (list_elem_of_further _ _ _ (list_elem_of_here _ _))
                    eq_refl eq_refl (list_elem_of_here _ _))
  end.
  simpl in Hsym. by apply elem_of_nil in Hsym.
Qed.

(** ** The end-to-end example *)

(** C5: on the graph of [A] (explicit, depends on [B]) and [B] (a
    dependency, depends on the absent [C], required by [A]) the processing
    yields three records: [A] and [B] as they were, and a third one named
    [C] that is not explicit, has version [missing], no edge, and is broken;
    the counts of that list are 1 explicit, 1 dependency, 1 broken, 3 in
    total; the forward closure from [A] is A, B, C and the reverse closure
    from [B] is B, A, over the input as over the output. *)
Theorem end_to_end_example :
  processBrokenDependencies example_graph =
    [ {| id := "A"; explicit := true; version := "1.0";
         depends_on := ["B"]; required_by := [];
         broken := None; repo := None; locally_built := None; url := None;
         optional_depends_on := None; optional_required_by := None |};
      {| id := "B"; explicit := false; version := "1.0";
         depends_on := ["C"]; required_by := ["A"];
         broken := None; repo := None; locally_built := None; url := None;
         optional_depends_on := None; optional_required_by := None |};
      {| id := "C"; explicit := false; version := "missing";
         depends_on := []; required_by := [];
         broken := Some true; repo := None; locally_built := None;
         url := None;
         optional_depends_on := None; optional_required_by := None |} ] /\
  processBrokenDependencies example_graph =
    [example_A; example_B; synthetic_node "C"] /\
  map id (processBrokenDependencies example_graph) = ["A"; "B"; "C"] /\
  map broken (processBrokenDependencies example_graph) =
    [None; None; Some true] /\
  broken (synthetic_node "C") = Some true /\
  countPackages (processBrokenDependencies example_graph) =
    {| count_explicit := 1; count_dependency := 1; count_broken := 1;
       count_total := 3 |} /\
  collectPackageTree (enough_fuel depends_on example_graph) "A" example_graph
    JsSet.empty = Some ["A"; "B"; "C"] /\
  collectReversePackageTree (enough_fuel required_by example_graph) "B"
    example_graph JsSet.empty = Some ["B"; "A"] /\
  (let out := processBrokenDependencies example_graph in
   collectPackageTree (enough_fuel depends_on out) "A" out JsSet.empty =
     Some ["A"; "B"; "C"] /\
   collectReversePackageTree (enough_fuel required_by out) "B" out JsSet.empty =
     Some ["B"; "A"]).
Proof. repeat split; by vm_compute. Qed.

(** ** Selection by position *)

Lemma intmax_t_small (z : Z) :
  (- 2 ^ 63 <= z < 2 ^ 63)%Z -> CollectDeps.intmax_t z = z.
Proof.
  intros Hz. unfold CollectDeps.intmax_t. rewrite Z.mod_small; lia.
Qed.


Example last_exceeding_selects_all :
  CollectDeps.select_packages (CollectDeps.last "5") ["vim"; "git"; "zsh"] [] []
  = CollectDeps.Selected ["vim"; "git"; "zsh"].
Proof. by vm_compute. Qed.

Example last_two_keeps_order :
  CollectDeps.select_packages (CollectDeps.last "2") ["vim"; "git"; "zsh"] [] []
  = CollectDeps.Selected ["git"; "zsh"].
Proof. by vm_compute. Qed.

Example first_zero_selects_nothing :
  CollectDeps.select_packages (CollectDeps.first "0") ["vim"; "git"; "zsh"] [] []
  = CollectDeps.Selected [].
Proof. by vm_compute. Qed.

(** ** Closures *)

Lemma forEach_ext {A S : Type} (f g : A -> S -> option S) (l : list A) (s : S) :
  (forall x t, f x t = g x t) -> forEach f l s = forEach g l s.
Proof.
  intros Hfg. revert s. induction l as [| x l IH]; intros s; simpl; [done |].
  rewrite Hfg. destruct (g x s); [apply IH | done].
Qed.

(** An invariant of the state that every call keeps is kept by the loop. *)
Lemma forEach_invariant {A S : Type} (f : A -> S -> option S) (P : S -> Prop)
    (l : list A) (s s' : S) :
  (forall x t t', x ∈ l -> P t -> f x t = Some t' -> P t') ->
  P s -> forEach f l s = Some s' -> P s'.
Proof.
  revert s. induction l as [| x l IH]; intros s Hstep Hs; simpl.
  - by intros [= <-].
  - destruct (f x s) as [t |] eqn:Hf; [| done].
    apply IH.
    + intros y u u' Hy. apply Hstep. by apply list_elem_of_further.
    + eapply Hstep; [apply list_elem_of_here | done | done].
Qed.

(** If every call returns under the invariant, so does the loop. *)
Lemma forEach_returns {A S : Type} (f : A -> S -> option S) (P : S -> Prop)
    (l : list A) (s : S) :
  (forall x t, x ∈ l -> P t -> exists t', f x t = Some t' /\ P t') ->
  P s -> exists s', forEach f l s = Some s'.
Proof.
  revert s. induction l as [| x l IH]; intros s Hstep Hs; simpl.
  - by exists s.
  - destruct (Hstep x s (list_elem_of_here _ _) Hs) as (t & -> & Ht).
    apply IH; [| done].
    intros y u Hy. apply Hstep. by apply list_elem_of_further.
Qed.

Lemma collectPackageTree_collect (nodes : list PackageNode) (fuel : nat)
    (packageId : string) (result : list string) :
  collectPackageTree fuel packageId nodes result =
    collect depends_on nodes fuel packageId result.
Proof.
  revert packageId result. induction fuel as [| fuel IH]; intros p r; simpl; [done |].
  destruct (JsSet.has r p); [done |].
  destruct (find_node p nodes); [| done]. by apply forEach_ext.
Qed.

Lemma collectReversePackageTree_collect (nodes : list PackageNode) (fuel : nat)
    (packageId : string) (result : list string) :
  collectReversePackageTree fuel packageId nodes result =
    collect required_by nodes fuel packageId result.
Proof.
  revert packageId result. induction fuel as [| fuel IH]; intros p r; simpl; [done |].
  destruct (JsSet.has r p); [done |].
  destruct (find_node p nodes); [| done]. by apply forEach_ext.
Qed.

(** A loop whose calls only add to the set, and add their argument, ends
    with every argument in the set. *)
Lemma forEach_covers (f : string -> list string -> option (list string))
    (l : list string) (s s' : list string) :
  (forall x t t', x ∈ l -> f x t = Some t' ->
     x ∈ t' /\ forall y, y ∈ t -> y ∈ t') ->
  forEach f l s = Some s' ->
  (forall y, y ∈ s -> y ∈ s') /\ (forall x, x ∈ l -> x ∈ s').
Proof.
  revert s. induction l as [| x l IH]; intros s Hstep; simpl.
  - intros [= <-]. split; [done |]. by intros x ?%elem_of_nil.
  - destruct (f x s) as [t |] eqn:Hf; [| done]. intros Hrest.
    destruct (Hstep x s t (list_elem_of_here _ _) Hf) as [Hx Hst].
    destruct (IH t) as [Hts' Hl]; [| done |].
    { intros y u u' Hy. apply Hstep. by apply list_elem_of_further. }
    split; [by auto |].
    intros y [-> | Hy]%elem_of_cons; by auto.
Qed.

Section ClosureFacts.
Variable edges : PackageNode -> list string.
Variable nodes : list PackageNode.

Lemma edge_target (x y : string) :
  edge_of edges nodes x y -> y ∈ flat_map edges nodes.
Proof.
  intros (pkg & Hfind & Hy). apply find_node_Some in Hfind as [Hin _].
  apply list_elem_of_In, in_flat_map. exists pkg.
  split; by apply list_elem_of_In.
Qed.

Lemma edge_of_unknown (x y : string) :
  find_node x nodes = None -> ~ edge_of edges nodes x y.
Proof. intros Hnone (pkg & Hfind & _). congruence. Qed.

Lemma pending_bound (result : list string) :
  pending edges nodes result <= length (flat_map edges nodes).
Proof. unfold pending. apply List.filter_length_le. Qed.

(** What a call that returns has done to the set. *)
Lemma collect_sound (fuel : nat) :
  forall (p : string) (R R' : list string),
    collect edges nodes fuel p R = Some R' ->
    (forall x, x ∈ R -> x ∈ R') /\
    p ∈ R' /\
    (forall x, x ∈ R' -> x ∈ R \/ reachable edges nodes p x) /\
    (forall grey, closed_except edges nodes grey R ->
                  closed_except edges nodes grey R') /\
    (NoDup R -> NoDup R').
Proof.
  induction fuel as [| fuel IH]; intros p R R'; simpl; [done |].
  destruct (JsSet.has R p) eqn:Hhas.
  { intros [= <-]. apply JsSet_has_true in Hhas. repeat split; auto. }
  apply JsSet_has_false in Hhas.
  assert (Hadd : forall x, x ∈ JsSet.add R p <-> x ∈ R \/ x = p)
    by (intros x; apply JsSet_elem_of_add).
  destruct (find_node p nodes) as [pkg |] eqn:Hfind.
  - intros Hloop.
    destruct (forEach_covers _ _ _ _
                (fun x t t' _ Hc =>
                   let H := IH x t t' Hc in conj (proj1 (proj2 H)) (proj1 H))
                Hloop) as [Hincl Hdeps].
    assert (Hedge : forall d, d ∈ edges pkg -> edge_of edges nodes p d)
      by (intros d Hd; by exists pkg).
    split; [| split; [| split; [| split]]].
    + intros x Hx. apply Hincl, Hadd. tauto.
    + apply Hincl, Hadd. tauto.
    + refine (forEach_invariant _
                (fun t => forall x, x ∈ t -> x ∈ R \/ reachable edges nodes p x)
                _ _ _ _ _ Hloop).
      * intros d t t' Hd Ht Hc x Hx.
        destruct (IH d t t' Hc) as (_ & _ & Hreach & _).
        destruct (Hreach x Hx) as [Hxt | Hxd]; [by apply Ht |].
        right. eapply rtc_l; [by apply Hedge | done].
      * intros x [Hx | ->]%Hadd; [tauto | right; apply rtc_refl].
    + intros grey Hclosed.
      assert (Hgrey : closed_except edges nodes (fun x => grey x \/ x = p) R').
      { refine (forEach_invariant _
                  (closed_except edges nodes (fun x => grey x \/ x = p))
                  _ _ _ _ _ Hloop).
        - intros d t t' _ Ht Hc. by apply (IH d t t' Hc).
        - intros x y [Hx | ->]%Hadd Hng Hxy; [| tauto].
          apply Hadd. left. apply (Hclosed x y); tauto. }
      intros x y Hx Hng Hxy. destruct (decide (x = p)) as [-> | Hne].
      * destruct Hxy as (pkg' & Hfind' & Hy).
        apply Hdeps. congruence.
      * apply (Hgrey x y); tauto.
    + intros Hnd. refine (forEach_invariant _ NoDup _ _ _ _ _ Hloop).
      * intros d t t' _ Ht Hc. by apply (IH d t t' Hc).
      * by apply JsSet_NoDup_add.
  - intros [= <-]. split; [| split; [| split; [| split]]].
    + intros x Hx. apply Hadd. tauto.
    + apply Hadd. tauto.
    + intros x [Hx | ->]%Hadd; [tauto | right; apply rtc_refl].
    + intros grey Hclosed x y [Hx | ->]%Hadd Hng Hxy.
      * apply Hadd. left. by apply (Hclosed x y).
      * by apply edge_of_unknown in Hxy.
    + by apply JsSet_NoDup_add.
Qed.

(** The fuel never runs out once it exceeds the number of targets by two:
    every nested call is on a target, and adds it or returns at once. *)
Lemma pending_mono (l R R' : list string) :
  (forall x, x ∈ R -> x ∈ R') ->
  length (List.filter (fun x => negb (JsSet.has R' x)) l) <=
  length (List.filter (fun x => negb (JsSet.has R x)) l).
Proof.
  intros Hincl. induction l as [| x l IH]; simpl; [done |].
  destruct (JsSet.has R x) eqn:Hx; simpl.
  - apply JsSet_has_true, Hincl, JsSet_has_true in Hx. rewrite Hx. simpl. lia.
  - destruct (JsSet.has R' x); simpl; lia.
Qed.

Lemma pending_add (l R : list string) (p : string) :
  p ∈ l -> p ∉ R ->
  length (List.filter (fun x => negb (JsSet.has (JsSet.add R p) x)) l) <
  length (List.filter (fun x => negb (JsSet.has R x)) l).
Proof.
  intros Hp HR. induction l as [| x l IH]; [by apply elem_of_nil in Hp |].
  assert (Hle := pending_mono l R (JsSet.add R p)
                   (fun y Hy => proj2 (JsSet_elem_of_add R p y) (or_introl Hy))).
  simpl. destruct (decide (x = p)) as [-> | Hne].
  - rewrite (proj2 (JsSet_has_false R p) HR).
    rewrite (proj2 (JsSet_has_true (JsSet.add R p) p)); [simpl; lia |].
    apply JsSet_elem_of_add. tauto.
  - apply elem_of_cons in Hp as [-> | Hp]; [done |]. specialize (IH Hp).
    destruct (JsSet.has R x) eqn:Hx.
    + rewrite (proj2 (JsSet_has_true (JsSet.add R p) x)); [simpl; lia |].
      apply JsSet_elem_of_add. left. by apply JsSet_has_true.
    + rewrite (proj2 (JsSet_has_false (JsSet.add R p) x)); [simpl; lia |].
      rewrite JsSet_elem_of_add. apply JsSet_has_false in Hx. tauto.
Qed.

Lemma collect_returns_target (fuel : nat) :
  forall (p : string) (R : list string),
    p ∈ flat_map edges nodes -> pending edges nodes R < fuel ->
    exists R', collect edges nodes fuel p R = Some R'.
Proof.
  induction fuel as [| fuel IH]; intros p R Hp Hfuel; [lia |]. simpl.
  destruct (JsSet.has R p) eqn:Hhas; [by exists R |].
  apply JsSet_has_false in Hhas.
  destruct (find_node p nodes) as [pkg |] eqn:Hfind; [| by eexists].
  assert (Hlt := pending_add (flat_map edges nodes) R p Hp Hhas).
  apply (forEach_returns _ (fun t => pending edges nodes t < fuel)).
  - intros d t Hd Ht.
    destruct (IH d t) as [t' Hc]; [| done |].
    { apply (edge_target p). by exists pkg. }
    exists t'. split; [done |].
    destruct (collect_sound _ _ _ _ Hc) as [Hincl _].
    pose proof (pending_mono (flat_map edges nodes) t t' Hincl).
    unfold pending in *. lia.
  - unfold pending in *. lia.
Qed.

Lemma collect_returns (fuel : nat) (p : string) (R : list string) :
  enough_fuel edges nodes <= fuel ->
  exists R', collect edges nodes fuel p R = Some R'.
Proof.
  unfold enough_fuel. destruct fuel as [| fuel]; [lia |]. intros Hfuel. simpl.
  destruct (JsSet.has R p); [by eexists |].
  destruct (find_node p nodes) as [pkg |] eqn:Hfind; [| by eexists].
  apply (forEach_returns _ (fun _ => True)); [| done].
  intros d t Hd _.
  destruct (collect_returns_target fuel d t) as [t' Hc].
  - apply (edge_target p). by exists pkg.
  - pose proof (pending_bound t). lia.
  - by exists t'.
Qed.

(** From the empty set, a closure that returns is the set of the names
    reached from the start. *)
Lemma collect_closure (fuel : nat) (p : string) (R' : list string) :
  collect edges nodes fuel p [] = Some R' ->
  NoDup R' /\ forall x, x ∈ R' <-> reachable edges nodes p x.
Proof.
  intros Hc.
  destruct (collect_sound _ _ _ _ Hc) as (_ & Hp & Hsound & Hclosed & Hnd).
  split; [apply Hnd, NoDup_nil_2 |].
  intros x. split.
  - intros Hx. destruct (Hsound x Hx) as [Hnil | ?]; [| done].
    by apply elem_of_nil in Hnil.
  - specialize (Hclosed (fun _ => False)).
    assert (Hcl : closed_except edges nodes (fun _ => False) R').
    { apply Hclosed. intros y z Hy. by apply elem_of_nil in Hy. }
    assert (Hstep : forall a b, rtc (edge_of edges nodes) a b -> a ∈ R' -> b ∈ R').
    { clear -Hcl. intros a b Hab. induction Hab as [| a b c Hab _ IH]; [done |].
      intros Ha. apply IH, (Hcl a b); [done | tauto | done]. }
    intros Hreach. by apply (Hstep p x).
Qed.

Lemma collect_unknown (fuel : nat) (p : string) :
  find_node p nodes = None ->
  collect edges nodes (S fuel) p [] = Some [p].
Proof. intros Hnone. simpl. by rewrite Hnone. Qed.
End ClosureFacts.

(** On a cycle the closures return: a name already in the set is not
    visited again. *)
Example closure_of_a_cycle :
  collectPackageTree (enough_fuel depends_on example_mutual) "A" example_mutual
    JsSet.empty = Some ["A"; "B"] /\
  collectReversePackageTree (enough_fuel required_by example_mutual) "B"
    example_mutual JsSet.empty = Some ["B"; "A"].
Proof. split; by vm_compute. Qed.

(** C2: with enough fuel the forward closure from the empty set returns; its
    result holds no name twice and is the set of the names reached from the
    start by following [depends_on] edges zero or more times, so it holds
    the start and is closed under the edges, dangling targets included; a
    name without a record is not expanded, its closure is itself; and the
    closure of every member returns and stays inside, so the union of the
    closures of the members is the closure. *)
Theorem collectPackageTree_closure (nodes : list PackageNode) (start : string)
    (fuel : nat) :
  enough_fuel depends_on nodes <= fuel ->
  exists closure,
    collectPackageTree fuel start nodes JsSet.empty = Some closure /\
    NoDup closure /\
    (forall x, x ∈ closure <-> reachable depends_on nodes start x) /\
    start ∈ closure /\
    (forall x pkg d, x ∈ closure -> find_node x nodes = Some pkg ->
                     d ∈ depends_on pkg -> d ∈ closure) /\
    (forall d, find_node d nodes = None ->
               collectPackageTree fuel d nodes JsSet.empty = Some [d]) /\
    (forall q, q ∈ closure ->
       exists closure_q,
         collectPackageTree fuel q nodes JsSet.empty = Some closure_q /\
         forall x, x ∈ closure_q -> x ∈ closure) /\
    (forall x, x ∈ closure ->
       exists q closure_q,
         q ∈ closure /\
         collectPackageTree fuel q nodes JsSet.empty = Some closure_q /\
         x ∈ closure_q).
Proof.
  intros Hfuel. unfold JsSet.empty.
  destruct (collect_returns depends_on nodes fuel start [] Hfuel) as [closure Hc].
  destruct (collect_closure _ _ _ _ _ Hc) as [Hnd Hreach].
  assert (Hstart : start ∈ closure) by (apply Hreach, rtc_refl).
  exists closure. rewrite collectPackageTree_collect.
  repeat split; try done; try apply Hreach.
  - intros x pkg d Hx Hfind Hd. apply Hreach.
    eapply rtc_r; [by apply Hreach |]. by exists pkg.
  - intros d Hnone. rewrite collectPackageTree_collect.
    destruct fuel as [| fuel]; [unfold enough_fuel in Hfuel; lia |].
    by apply collect_unknown.
  - intros q Hq. rewrite collectPackageTree_collect.
    destruct (collect_returns depends_on nodes fuel q [] Hfuel) as [cq Hcq].
    exists cq. split; [done |]. intros x Hx.
    apply Hreach. apply (rtc_trans start q x); [by apply Hreach |].
    by apply (collect_closure _ _ _ _ _ Hcq).
  - intros x Hx. exists start, closure.
    by rewrite collectPackageTree_collect.
Qed.

Lemma collectPackageTree_closure_witness :
  exists closure,
    collectPackageTree 10 "A" example_graph JsSet.empty = Some closure /\
    forall x, x ∈ closure <-> reachable depends_on example_graph "A" x.
Proof.
  destruct (collectPackageTree_closure example_graph "A" 10)
    as (closure & Hc & _ & Hreach & _).
  - vm_compute. lia.
  - by exists closure.
Defined.

(** ** Random selection *)

Lemma command_substitution_names (lines : list string) :
  Forall (fun s => s <> "") lines ->
  CollectDeps.command_substitution lines = lines.
Proof.
  induction 1 as [| l rest Hl _ IH]; simpl; [done |].
  rewrite IH. destruct rest; [| done].
  by destruct (String.eqb_spec l "").
Qed.

(** C8, as the code has it: on a non-empty explicit list of non-empty names
    and for [N >= 1], [--random N] never exits; it selects the first [N]
    lines of the shuffled list, which are [N] names drawn without
    replacement when [N] is at most the length of the list, and the whole
    list, shuffled, when [N] exceeds it. *)
Theorem random_selection (explicit_array all_packages shuffled : list string)
    (N : nat) :
  CollectDeps.shuf_draws explicit_array shuffled ->
  Forall (fun s => s <> "") explicit_array ->
  explicit_array <> [] ->
  1 <= N ->
  exists selected rest,
    CollectDeps.select_packages (CollectDeps.random N) explicit_array
      all_packages shuffled = CollectDeps.Selected selected /\
    Permutation (selected ++ rest) explicit_array /\
    length selected = N `min` length explicit_array /\
    (NoDup explicit_array -> NoDup selected) /\
    (length explicit_array <= N -> Permutation selected explicit_array).
Proof.
  unfold CollectDeps.shuf_draws. intros Hperm Hnames Hne HN.
  assert (Hlines : CollectDeps.printf_lines explicit_array = explicit_array)
    by (by destruct explicit_array).
  rewrite Hlines in Hperm.
  assert (Hshuffled : Forall (fun s => s <> "") shuffled)
    by (by rewrite <- Hperm).
  exists (take N shuffled), (drop N shuffled). simpl.
  unfold CollectDeps.shuf_n.
  rewrite command_substitution_names by (by apply Forall_take).
  split; [| split; [| split; [| split]]].
  - destruct shuffled as [| s shuffled].
    + apply Permutation_nil_r in Hperm. done.
    + destruct N as [| N]; [lia | done].
  - by rewrite take_drop.
  - rewrite length_take. by rewrite (Permutation_length Hperm).
  - intros Hnd. rewrite Hperm in Hnd.
    rewrite <- (take_drop N shuffled) in Hnd. by apply NoDup_app in Hnd as [? _].
  - intros Hle. rewrite take_ge; [done |].
    by rewrite <- (Permutation_length Hperm).
Qed.

Lemma random_selection_witness :
  exists selected rest,
    CollectDeps.select_packages (CollectDeps.random 2) ["vim"; "git"; "zsh"]
      ["git"; "vim"; "zsh"] ["git"; "vim"; "zsh"] = CollectDeps.Selected selected /\
    Permutation (selected ++ rest) ["vim"; "git"; "zsh"] /\
    length selected = 2 `min` length ["vim"; "git"; "zsh"] /\
    (NoDup ["vim"; "git"; "zsh"] -> NoDup selected) /\
    (length ["vim"; "git"; "zsh"] <= 2 -> Permutation selected ["vim"; "git"; "zsh"]).
Proof.
  apply (random_selection ["vim"; "git"; "zsh"] ["git"; "vim"; "zsh"]
           ["git"; "vim"; "zsh"] 2).
  - unfold CollectDeps.shuf_draws. simpl. apply perm_swap.
  - repeat constructor; discriminate.
  - discriminate.
  - lia.
Defined.

(** [--random 0]: the empty output of [shuf] is read back as one empty line,
    so the selection is one empty name and not the empty selection. *)
Lemma random_zero_selects_empty_name (explicit_array all_packages shuffled : list string) :
  CollectDeps.select_packages (CollectDeps.random 0) explicit_array
    all_packages shuffled = CollectDeps.Selected [""].
Proof. reflexivity. Qed.

(** C8 fails as stated: [--random 2] on an explicit list of one package does
    not exit, it selects that package. *)
Lemma random_selection_counterexample :
  CollectDeps.shuf_draws ["vim"] ["vim"] /\
  length ["vim"] < 2 /\
  CollectDeps.select_packages (CollectDeps.random 2) ["vim"] ["vim"] ["vim"]
    = CollectDeps.Selected ["vim"] /\
  ~ (exists status,
       CollectDeps.select_packages (CollectDeps.random 2) ["vim"] ["vim"] ["vim"]
       = CollectDeps.Exit status).
Proof.
  split; [unfold CollectDeps.shuf_draws; simpl; apply Permutation_refl |].
  split; [simpl; lia |]. split; [done |].
  intros [status Hexit]. discriminate Hexit.
Qed.

(** ** Links of a sub-graph *)

Lemma append_empty (s : string) : "" +:+ s = s.
Proof. reflexivity. Qed.

Lemma append_String (c : ascii) (a s : string) :
  String c a +:+ s = String c (a +:+ s).
Proof. reflexivity. Qed.

(** The key determines the pair when the sources have no [>]. *)
Lemma link_key_inj (a a' b b' : string) :
  no_gt a = true -> no_gt a' = true ->
  link_key a b = link_key a' b' -> a = a' /\ b = b'.
Proof.
  unfold link_key. revert a'.
  induction a as [| c a IH]; intros [| c' a'];
    rewrite ?append_String, ?append_empty.
  - intros _ _ [= ->]. done.
  - intros _ Ha' [= <- Heq]. destruct a' as [| c'' a''].
    + rewrite append_empty in Heq. discriminate Heq.
    + rewrite append_String in Heq. injection Heq as <- _. done.
  - intros Ha _ [= -> Heq]. destruct a as [| c'' a''].
    + rewrite append_empty in Heq. discriminate Heq.
    + rewrite append_String in Heq. injection Heq as -> _. done.
  - simpl. intros [_ Ha]%andb_true_iff [_ Ha']%andb_true_iff [= -> Heq].
    destruct (IH a' Ha Ha') as [-> ->]; [| done].
    by rewrite ?append_String, ?append_empty.
Qed.

Lemma foldl_invariant {A B : Type} (f : A -> B -> A) (P : A -> Prop)
    (l : list B) (a : A) :
  (forall a x, x ∈ l -> P a -> P (f a x)) -> P a -> P (foldl f a l).
Proof.
  revert a. induction l as [| x l IH]; intros a Hstep Ha; simpl; [done |].
  apply IH.
  - intros b y Hy. apply Hstep. by apply list_elem_of_further.
  - apply Hstep; [apply list_elem_of_here | done].
Qed.

(** What a step establishes for its element and every later step keeps
    holds for every element at the end. *)
Lemma foldl_covers {A B : Type} (f : A -> B -> A) (Q : B -> A -> Prop)
    (l : list B) (a : A) :
  (forall a x, x ∈ l -> Q x (f a x)) ->
  (forall a x y, Q y a -> Q y (f a x)) ->
  forall x, x ∈ l -> Q x (foldl f a l).
Proof.
  intros Hest Hkeep. revert a Hest.
  induction l as [| y l IH]; intros a Hest x Hx; [by apply elem_of_nil in Hx |].
  simpl. apply elem_of_cons in Hx as [-> | Hx].
  - apply (foldl_invariant f (Q y)); [by auto |].
    apply Hest, list_elem_of_here.
  - apply IH; [| done]. intros b z Hz. apply Hest. by apply list_elem_of_further.
Qed.

Lemma foldl_ext_in {A B : Type} (f g : A -> B -> A) (l : list B) (a : A) :
  (forall a x, f a x = g a x) -> foldl f a l = foldl g a l.
Proof.
  intros Hfg. revert a. induction l as [| x l IH]; intros a; simpl; [done |].
  by rewrite Hfg, IH.
Qed.

Section ScanFacts.
Context {LinkType : Type}.
Implicit Types (st : list string * list (Investigate.PackageLink LinkType)).
Variables (c : string -> bool) (k : string -> string)
          (mk : string -> Investigate.PackageLink LinkType).

Lemma push_link_inv (x : string) st :
  key_of (mk x) = k x -> links_inv st -> links_inv (push_link (k x) (mk x) st).
Proof.
  unfold links_inv, push_link. intros Hk [Hkeys Hnd].
  destruct (JsSet.has (fst st) (k x)) eqn:Hhas; simpl; [done |].
  split; [| by apply JsSet_NoDup_add].
  unfold JsSet.add. rewrite Hhas, map_app, <- Hkeys. simpl. by rewrite Hk.
Qed.

Lemma push_link_grows (x : string) st (y : string) :
  y ∈ fst st -> y ∈ fst (push_link (k x) (mk x) st).
Proof.
  unfold push_link. destruct (JsSet.has (fst st) (k x)); simpl; [done |].
  intros Hy. apply JsSet_elem_of_add. tauto.
Qed.

Lemma push_link_has (x : string) st :
  k x ∈ fst (push_link (k x) (mk x) st).
Proof.
  unfold push_link. destruct (JsSet.has (fst st) (k x)) eqn:Hhas; simpl.
  - by apply JsSet_has_true.
  - apply JsSet_elem_of_add. tauto.
Qed.

Lemma push_link_Forall (P : Investigate.PackageLink LinkType -> Prop)
    (x : string) st :
  P (mk x) -> Forall P (snd st) -> Forall P (snd (push_link (k x) (mk x) st)).
Proof.
  unfold push_link. intros Hx Hst.
  destruct (JsSet.has (fst st) (k x)); simpl; [done |].
  apply Forall_app. split; [done | by apply Forall_singleton].
Qed.

Lemma scan_links_inv (l : list string) st :
  (forall x, key_of (mk x) = k x) ->
  links_inv st -> links_inv (scan_links c k mk l st).
Proof.
  intros Hk. apply foldl_invariant. intros a x _ Ha.
  destruct (c x); [by apply push_link_inv | done].
Qed.

Lemma scan_links_grows (l : list string) st (y : string) :
  y ∈ fst st -> y ∈ fst (scan_links c k mk l st).
Proof.
  apply (foldl_invariant _ (fun st => y ∈ fst st)). intros a x _ Ha.
  destruct (c x); [by apply push_link_grows | done].
Qed.

Lemma scan_links_has (l : list string) st (x : string) :
  x ∈ l -> c x = true -> k x ∈ fst (scan_links c k mk l st).
Proof.
  intros Hx Hc. revert Hc.
  apply (foldl_covers _ (fun x st => c x = true -> k x ∈ fst st)); [| | done].
  - intros a y _ ->. apply push_link_has.
  - intros a y z Hz Hc. destruct (c y); [| by auto].
    by apply push_link_grows, Hz.
Qed.

Lemma scan_links_Forall (P : Investigate.PackageLink LinkType -> Prop)
    (l : list string) st :
  (forall x, x ∈ l -> c x = true -> P (mk x)) ->
  Forall P (snd st) -> Forall P (snd (scan_links c k mk l st)).
Proof.
  intros Hmk. apply (foldl_invariant _ (fun st => Forall P (snd st))).
  intros a x Hx Ha. destruct (c x) eqn:Hc; [| done].
  apply push_link_Forall; by auto.
Qed.
End ScanFacts.

Lemma foldl_add_elem (l s : list string) (x : string) :
  x ∈ foldl JsSet.add s l <-> x ∈ s \/ x ∈ l.
Proof.
  revert s. induction l as [| y l IH]; intros s; simpl.
  - rewrite elem_of_nil. tauto.
  - rewrite IH, JsSet_elem_of_add, elem_of_cons. tauto.
Qed.

Section LinkFacts.
Context {LinkType : Type}.
Variable getLinkType : option PackageNode -> PackageNode -> LinkType.
Variable nodes : list PackageNode.
Variable direction : Investigate.DependencyDirection.
Variable treePackageIds : list string.

Lemma addForwardLinks_scan (node : PackageNode)
    (st : list string * list (Investigate.PackageLink LinkType)) :
  Investigate.addForwardLinks getLinkType nodes node treePackageIds st =
    scan_links (JsSet.has treePackageIds) (link_key (id node))
      (fun dep => Investigate.mkPackageLink (id node) dep
                    (getLinkType (find_node dep nodes) node))
      (depends_on node) st.
Proof.
  unfold Investigate.addForwardLinks, scan_links. apply foldl_ext_in.
  intros [linkSet subLinks] dep. unfold push_link, link_key. simpl.
  by destruct (JsSet.has treePackageIds dep).
Qed.

Lemma addReverseLinks_scan (node : PackageNode)
    (st : list string * list (Investigate.PackageLink LinkType)) :
  Investigate.addReverseLinks getLinkType nodes node treePackageIds st =
    scan_links (JsSet.has treePackageIds) (fun parent => link_key parent (id node))
      (fun parent => Investigate.mkPackageLink parent (id node)
                       (getLinkType (find_node parent nodes) node))
      (required_by node) st.
Proof.
  unfold Investigate.addReverseLinks, scan_links. apply foldl_ext_in.
  intros [linkSet subLinks] parent. unfold push_link, link_key. simpl.
  by destruct (JsSet.has treePackageIds parent).
Qed.

(** The body of the loop over the included nodes. *)
Lemma build_links_unfold (subNodes : list PackageNode) :
  Investigate.build_links getLinkType nodes direction treePackageIds subNodes =
    foldl (fun st node =>
             let st := match direction with
                       | Investigate.reverse => st
                       | _ => Investigate.addForwardLinks getLinkType nodes node
                                treePackageIds st
                       end in
             match direction with
             | Investigate.forward => st
             | _ => Investigate.addReverseLinks getLinkType nodes node
                      treePackageIds st
             end) ([], []) subNodes.
Proof. unfold Investigate.build_links. apply foldl_ext_in. by destruct direction. Qed.

Lemma build_links_inv (subNodes : list PackageNode) :
  links_inv (Investigate.build_links getLinkType nodes direction
               treePackageIds subNodes).
Proof.
  rewrite build_links_unfold. apply foldl_invariant.
  - intros st node _ Hst. rewrite addForwardLinks_scan.
    destruct direction; rewrite ?addReverseLinks_scan;
      repeat apply scan_links_inv; done.
  - split; [done | apply NoDup_nil_2].
Qed.

Lemma build_links_sound (subNodes : list PackageNode) :
  Forall (fun l => link_from direction treePackageIds subNodes
                     (Investigate.source l) (Investigate.target l))
    (snd (Investigate.build_links getLinkType nodes direction
            treePackageIds subNodes)).
Proof.
  rewrite build_links_unfold.
  apply (foldl_invariant _ (fun st => Forall _ (snd st))); [| by apply Forall_nil].
  intros st node Hnode Hst.
  assert (Hfwd : direction <> Investigate.reverse ->
                 Forall (fun l => link_from direction treePackageIds subNodes
                                    (Investigate.source l) (Investigate.target l))
                   (snd (Investigate.addForwardLinks getLinkType nodes node
                           treePackageIds st))).
  { intros Hdir. rewrite addForwardLinks_scan.
    apply scan_links_Forall; [| done].
    intros dep Hdep Htree%JsSet_has_true. left. split; [done |].
    by exists node. }
  assert (Hrev : forall st',
            direction <> Investigate.forward ->
            Forall (fun l => link_from direction treePackageIds subNodes
                               (Investigate.source l) (Investigate.target l))
              (snd st') ->
            Forall (fun l => link_from direction treePackageIds subNodes
                               (Investigate.source l) (Investigate.target l))
              (snd (Investigate.addReverseLinks getLinkType nodes node
                      treePackageIds st'))).
  { intros st' Hdir Hst'. rewrite addReverseLinks_scan.
    apply scan_links_Forall; [| done].
    intros parent Hparent Htree%JsSet_has_true. right. split; [done |].
    by exists node. }
  destruct direction; [by apply Hfwd | by apply Hrev | apply Hrev; by auto].
Qed.

Lemma build_links_covers (subNodes : list PackageNode) (node : PackageNode) :
  node ∈ subNodes ->
  let keys := fst (Investigate.build_links getLinkType nodes direction
                     treePackageIds subNodes) in
  (direction <> Investigate.reverse ->
   forall dep, dep ∈ depends_on node -> dep ∈ treePackageIds ->
               link_key (id node) dep ∈ keys) /\
  (direction <> Investigate.forward ->
   forall parent, parent ∈ required_by node -> parent ∈ treePackageIds ->
                  link_key parent (id node) ∈ keys).
Proof.
  intros Hnode. simpl. rewrite build_links_unfold. revert node Hnode.
  apply (foldl_covers _
    (fun node st =>
       (direction <> Investigate.reverse ->
        forall dep, dep ∈ depends_on node -> dep ∈ treePackageIds ->
                    link_key (id node) dep ∈ fst st) /\
       (direction <> Investigate.forward ->
        forall parent, parent ∈ required_by node -> parent ∈ treePackageIds ->
                       link_key parent (id node) ∈ fst st))).
  - intros st node _. split.
    + intros Hdir dep Hdep Htree%JsSet_has_true.
      assert (link_key (id node) dep ∈
                fst (Investigate.addForwardLinks getLinkType nodes node
                       treePackageIds st)) as Hin.
      { rewrite addForwardLinks_scan.
        by apply (scan_links_has _ (link_key (id node))). }
      destruct direction; [done | done |].
      rewrite addReverseLinks_scan. by apply scan_links_grows.
    + intros Hdir parent Hparent Htree%JsSet_has_true.
      destruct direction; [done | |]; rewrite addReverseLinks_scan;
        by apply (scan_links_has _ (fun parent => link_key parent (id node))).
  - intros st node other [Hf Hr].
    assert (Hgrow : forall y, y ∈ fst st ->
              y ∈ fst (match direction with
                       | Investigate.forward =>
                           match direction with
                           | Investigate.reverse => st
                           | _ => Investigate.addForwardLinks getLinkType nodes
                                    node treePackageIds st
                           end
                       | _ => Investigate.addReverseLinks getLinkType nodes node
                                treePackageIds
                                match direction with
                                | Investigate.reverse => st
                                | _ => Investigate.addForwardLinks getLinkType
                                         nodes node treePackageIds st
                                end
                       end)).
    { intros y Hy. destruct direction;
        rewrite ?addReverseLinks_scan, ?addForwardLinks_scan;
        repeat apply scan_links_grows; done. }
    split; intros Hdir x Hx Htree; apply Hgrow; by auto.
Qed.
End LinkFacts.

Lemma view_fuel_enough (nodes : list PackageNode) (fuel : nat) :
  Investigate.view_fuel nodes <= fuel ->
  enough_fuel depends_on nodes <= fuel /\ enough_fuel required_by nodes <= fuel.
Proof. unfold Investigate.view_fuel. lia. Qed.

(** The node set of a sub-graph: the union of the closures of the direction. *)
Lemma collect_ids_spec (nodes : list PackageNode) (fuel : nat)
    (direction : Investigate.DependencyDirection) (start : string) :
  Investigate.view_fuel nodes <= fuel ->
  exists treePackageIds,
    Investigate.collect_ids nodes fuel direction start = Some treePackageIds /\
    forall x, x ∈ treePackageIds <->
      (direction <> Investigate.reverse /\ reachable depends_on nodes start x) \/
      (direction <> Investigate.forward /\ reachable required_by nodes start x).
Proof.
  intros [Hfwd Hrev]%view_fuel_enough. unfold Investigate.collect_ids, JsSet.empty.
  rewrite collectPackageTree_collect, collectReversePackageTree_collect.
  destruct (collect_returns depends_on nodes fuel start [] Hfwd) as [fwd Hf].
  destruct (collect_returns required_by nodes fuel start [] Hrev) as [rev Hr].
  destruct (collect_closure _ _ _ _ _ Hf) as [_ Hfwd_iff].
  destruct (collect_closure _ _ _ _ _ Hr) as [_ Hrev_iff].
  destruct direction.
  - exists fwd. split; [done |]. intros x. rewrite Hfwd_iff.
    split; [by left | intros [[_ ?] | [? _]]; done].
  - exists rev. split; [done |]. intros x. rewrite Hrev_iff.
    split; [by right | intros [[? _] | [_ ?]]; done].
  - exists (foldl JsSet.add fwd rev). rewrite Hf, Hr. split; [done |].
    intros x. rewrite foldl_add_elem, Hfwd_iff, Hrev_iff.
    split; [intros [? | ?]; [left | right]; by split |].
    intros [[_ ?] | [_ ?]]; [by left | by right].
Qed.

Lemma subGraphData_returns {LinkType : Type}
    (getLinkType : option PackageNode -> PackageNode -> LinkType)
    (nodes : list PackageNode) (selectedPackage : option PackageNode)
    (direction : Investigate.DependencyDirection) (fuel : nat) :
  Investigate.view_fuel nodes <= fuel ->
  exists g,
    Investigate.subGraphData getLinkType nodes fuel selectedPackage direction
      = Some g.
Proof.
  intros Hfuel. destruct selectedPackage as [selected |]; simpl; [| by eexists].
  destruct (collect_ids_spec nodes fuel direction (id selected) Hfuel)
    as (tree & -> & _).
  by eexists.
Qed.

Lemma plain_names_source (nodes subNodes : list PackageNode)
    (direction : Investigate.DependencyDirection) (tree : list string)
    (s t : string) :
  plain_names nodes = true ->
  (forall n, n ∈ subNodes -> n ∈ nodes) ->
  link_from direction tree subNodes s t -> no_gt s = true.
Proof.
  unfold plain_names. rewrite forallb_forall. intros Hplain Hsub Hlink.
  destruct Hlink as [[_ (n & Hn & -> & _)] | [_ (n & Hn & _ & Hs & _)]];
    apply Hsub, list_elem_of_In, Hplain, andb_true_iff in Hn as [Hid Hreq];
    [done |].
  rewrite forallb_forall in Hreq. by apply Hreq, list_elem_of_In.
Qed.

(** C6: with enough fuel the sub-graph is computed and its edge list holds
    no ordered pair twice, whatever list proposed the pair; every edge comes
    from the [depends_on] list of an included node, if the direction has the
    forward edges, or from the [required_by] list of one, if it has the reverse
    edges, with both endpoints in the node set; when no name has a [>] every
    such pair is an edge; so, under [both], a neighbour [B] that the focal
    node has in both lists gives the edge from the focal node to [B] and the
    edge from [B] to the focal node, each once. *)
Theorem subGraphData_edges {LinkType : Type}
    (getLinkType : option PackageNode -> PackageNode -> LinkType)
    (nodes : list PackageNode) (selectedPackage : option PackageNode)
    (direction : Investigate.DependencyDirection) (fuel : nat) :
  Investigate.view_fuel nodes <= fuel ->
  exists g,
    Investigate.subGraphData getLinkType nodes fuel selectedPackage direction
      = Some g /\
    NoDup (map link_pair (Investigate.sg_links g)) /\
    forall selected, selectedPackage = Some selected ->
      exists treePackageIds,
        Investigate.collect_ids nodes fuel direction (id selected)
          = Some treePackageIds /\
        Investigate.sg_nodes g =
          List.filter (fun n => JsSet.has treePackageIds (id n)) nodes /\
        (forall l, l ∈ Investigate.sg_links g ->
           link_from direction treePackageIds (Investigate.sg_nodes g)
             (Investigate.source l) (Investigate.target l)) /\
        (plain_names nodes = true ->
         forall s t,
           link_from direction treePackageIds (Investigate.sg_nodes g) s t ->
           (s, t) ∈ map link_pair (Investigate.sg_links g)) /\
        (plain_names nodes = true -> direction = Investigate.both ->
         forall n B,
           find_node (id selected) nodes = Some n ->
           B ∈ depends_on n -> B ∈ required_by n ->
           (id selected, B) ∈ map link_pair (Investigate.sg_links g) /\
           (B, id selected) ∈ map link_pair (Investigate.sg_links g)).
Proof.
  intros Hfuel. destruct selectedPackage as [selected |]; simpl.
  2: { eexists. split; [done |]. split; [apply NoDup_nil_2 | done]. }
  destruct (collect_ids_spec nodes fuel direction (id selected) Hfuel)
    as (tree & Hids & Htree).
  rewrite Hids.
  set (subNodes := List.filter (fun n => JsSet.has tree (id n)) nodes).
  set (built := Investigate.build_links getLinkType nodes direction tree subNodes).
  destruct (build_links_inv getLinkType nodes direction tree subNodes)
    as [Hkeys Hnd].
  pose proof (build_links_sound getLinkType nodes direction tree subNodes)
    as Hsound.
  fold built in Hkeys, Hnd, Hsound.
  assert (Hsub : forall n, n ∈ subNodes -> n ∈ nodes).
  { intros n Hn. apply list_elem_of_In, List.filter_In in Hn as [Hn _].
    by apply list_elem_of_In. }
  assert (Hcomplete : plain_names nodes = true ->
            forall s t, link_from direction tree subNodes s t ->
                        (s, t) ∈ map link_pair (snd built)).
  { intros Hplain s t Hlink.
    assert (Hkey : link_key s t ∈ fst built).
    { destruct Hlink as [[Hdir (n & Hn & -> & Ht & Htt)]
                        | [Hdir (n & Hn & -> & Hs & Hst)]];
        by apply (build_links_covers getLinkType nodes direction tree subNodes n). }
    rewrite Hkeys in Hkey. apply list_elem_of_fmap in Hkey as (l & Hl & Hin).
    apply list_elem_of_fmap. exists l. split; [| done].
    rewrite Forall_forall in Hsound. specialize (Hsound l Hin).
    unfold key_of in Hl.
    apply link_key_inj in Hl as [-> ->]; [done | |];
      by eapply plain_names_source. }
  eexists. split; [done |]. simpl. split.
  { rewrite Hkeys in Hnd.
    replace (map key_of (snd built))
      with (map (fun p => link_key p.1 p.2) (map link_pair (snd built))) in Hnd
      by (by rewrite map_map).
    by apply NoDup_fmap_1 in Hnd. }
  intros ? [= <-]. exists tree. split; [done |]. split; [done |].
  split; [by apply Forall_forall |]. split; [done |].
  intros Hplain -> n B Hfind HBdep HBreq.
  destruct (find_node_Some _ _ _ Hfind) as [Hn Hid].
  assert (Hstart : id n ∈ tree).
  { rewrite Hid. apply Htree. left. split; [done | apply rtc_refl]. }
  assert (HB : B ∈ tree).
  { apply Htree. left. split; [done |]. apply rtc_once. by exists n. }
  assert (Hsel : n ∈ subNodes).
  { apply list_elem_of_In, List.filter_In. split; [by apply list_elem_of_In |].
    by apply JsSet_has_true. }
  rewrite <- Hid. split; apply Hcomplete; try done.
  - left. split; [done |]. by exists n.
  - right. split; [done |]. by exists n.
Qed.

Lemma subGraphData_edges_witness :
  exists g,
    Investigate.subGraphData (fun _ _ => tt) example_mutual 20
      (Some example_mutual_A) Investigate.both = Some g /\
    NoDup (map link_pair (Investigate.sg_links g)) /\
    Investigate.sg_links g =
      [Investigate.mkPackageLink "A" "B" tt; Investigate.mkPackageLink "B" "A" tt].
Proof.
  destruct (subGraphData_edges (fun _ _ => tt) example_mutual
              (Some example_mutual_A) Investigate.both 20)
    as (g & Hg & Hnd & _).
  - vm_compute. lia.
  - exists g. split; [done |]. split; [done |].
    vm_compute in Hg. by injection Hg as <-.
Defined.

(** ** Sorting and the store *)

Section SortFacts.
Context {A : Type}.
Variable compareFn : A -> A -> Z.

Lemma insert_sorted_perm (x : A) (l : list A) :
  Permutation (insert_sorted compareFn x l) (x :: l).
Proof.
  induction l as [| y l IH]; simpl; [done |].
  destruct (compareFn x y <=? 0)%Z; [done |].
  rewrite IH. apply perm_swap.
Qed.

Lemma Array_sort_perm (l : list A) : Permutation (Array_sort compareFn l) l.
Proof.
  induction l as [| x l IH]; simpl; [done |].
  by rewrite insert_sorted_perm, IH.
Qed.

Hypothesis compareFn_total :
  forall x y, (0 < compareFn x y)%Z -> (compareFn y x <= 0)%Z.

Lemma insert_sorted_Sorted (x : A) (l : list A) :
  Sorted (fun a b => (compareFn a b <= 0)%Z) l ->
  Sorted (fun a b => (compareFn a b <= 0)%Z) (insert_sorted compareFn x l).
Proof.
  induction 1 as [| y l Hl IH Hhd]; simpl.
  - by repeat constructor.
  - destruct (Z.leb_spec (compareFn x y) 0) as [Hle | Hgt].
    + by repeat constructor.
    + constructor; [done |].
      destruct Hhd as [| z l Hyz]; simpl.
      * constructor. by apply compareFn_total.
      * destruct (compareFn x z <=? 0)%Z; constructor;
          [by apply compareFn_total | done].
Qed.

Lemma Array_sort_Sorted (l : list A) :
  Sorted (fun a b => (compareFn a b <= 0)%Z) (Array_sort compareFn l).
Proof.
  induction l as [| x l IH]; simpl; [constructor |].
  by apply insert_sorted_Sorted.
Qed.
End SortFacts.

Section StoreFacts.
Context {LinkType : Type}.
Implicit Types (st : list (InStore.Obj LinkType)).

Lemma write_spec (l : nat) (o o' : InStore.Obj LinkType) st :
  st !! l = Some o ->
  InStore.write l o' st = Some (tt, <[l := o']> st) /\
  only_updates l st (<[l := o']> st) /\
  <[l := o']> st !! l = Some o'.
Proof.
  intros Hl. pose proof (lookup_lt_Some _ _ _ Hl) as Hlt.
  unfold InStore.write. rewrite decide_True by done.
  split; [done |]. split.
  - split; [apply length_insert |].
    intros l' Hne. by apply list_lookup_insert_ne.
  - by apply list_lookup_insert_eq.
Qed.

Lemma alloc_spec (o : InStore.Obj LinkType) st :
  InStore.alloc o st = Some (length st, st ++ [o]) /\
  (st ++ [o]) !! length st = Some o.
Proof. split; [done |]. by apply list_lookup_middle. Qed.

Lemma only_allocates_lookup st st' (l : nat) (o : InStore.Obj LinkType) :
  only_allocates st st' -> st !! l = Some o -> st' !! l = Some o.
Proof. intros [new ->]. apply lookup_app_l_Some. Qed.

(** A closure in the store: it updates the set and nothing else. *)
Lemma closure_in_store (edges : PackageNode -> list string)
    (op : nat -> string -> list PackageNode -> list string -> option (list string))
    (fuel : nat) (packageId : string) (nodes result : nat)
    (a : list PackageNode) (s : list string) st :
  (forall p r, op fuel p a r = collect edges a fuel p r) ->
  st !! nodes = Some (InStore.NodeArray a) ->
  st !! result = Some (InStore.StringSet s) ->
  enough_fuel edges a <= fuel ->
  exists s' st',
    op fuel packageId a s = Some s' /\
    InStore.bind (InStore.read_nodes nodes) (fun a =>
      InStore.bind (InStore.read_set result) (fun s =>
        InStore.bind (InStore.lift (op fuel packageId a s)) (fun s' =>
          InStore.write result (InStore.StringSet s')))) st = Some (tt, st') /\
    only_updates result st st' /\
    st' !! result = Some (InStore.StringSet s') /\
    st' !! nodes = Some (InStore.NodeArray a).
Proof.
  intros Hop Hnodes Hresult Hfuel.
  destruct (collect_returns edges a fuel packageId s Hfuel) as [s' Hs'].
  rewrite <- Hop in Hs'.
  destruct (write_spec result _ (InStore.StringSet s') st Hresult)
    as (Hwrite & Hupd & Hnew).
  exists s', (<[result := InStore.StringSet s']> st).
  split; [done |]. split; [| split; [done | split; [done |]]].
  - unfold InStore.bind, InStore.read_nodes, InStore.read_set, InStore.lift.
    by rewrite Hnodes, Hresult, Hs'.
  - destruct Hupd as [_ Hframe]. rewrite Hframe; [done |].
    intros ->. congruence.
Qed.
End StoreFacts.

(** C7, as the code has it: the synthesis, the counting, the closures and the
    sub-graph extraction leave the array of the nodes as it was; the
    synthesis and the extraction return new arrays, the counting changes
    nothing, a closure updates only the set it is given.  The sorting is in
    place: it returns the location of its argument, whose array now holds
    the same records reordered, by name when the comparator is total; no
    other object changes. *)
Theorem query_operations_frame {LinkType : Type}
    (getLinkType : option PackageNode -> PackageNode -> LinkType)
    (localeCompare : string -> string -> Z)
    (st : list (InStore.Obj LinkType)) (nodes : nat) (a : list PackageNode) :
  st !! nodes = Some (InStore.NodeArray a) ->
  (exists st',
     InStore.processBrokenDependencies nodes st = Some (length st, st') /\
     only_allocates st st' /\
     st' !! length st = Some (InStore.NodeArray (processBrokenDependencies a)) /\
     st' !! nodes = Some (InStore.NodeArray a)) /\
  InStore.countPackages nodes st = Some (countPackages a, st) /\
  (forall fuel packageId result s,
     st !! result = Some (InStore.StringSet s) ->
     enough_fuel depends_on a <= fuel ->
     exists s' st',
       collectPackageTree fuel packageId a s = Some s' /\
       InStore.collectPackageTree fuel packageId nodes result st = Some (tt, st') /\
       only_updates result st st' /\
       st' !! result = Some (InStore.StringSet s') /\
       st' !! nodes = Some (InStore.NodeArray a)) /\
  (forall fuel packageId result s,
     st !! result = Some (InStore.StringSet s) ->
     enough_fuel required_by a <= fuel ->
     exists s' st',
       collectReversePackageTree fuel packageId a s = Some s' /\
       InStore.collectReversePackageTree fuel packageId nodes result st
         = Some (tt, st') /\
       only_updates result st st' /\
       st' !! result = Some (InStore.StringSet s') /\
       st' !! nodes = Some (InStore.NodeArray a)) /\
  (forall fuel selectedPackage direction,
     Investigate.view_fuel a <= fuel ->
     exists g st',
       Investigate.subGraphData getLinkType a fuel selectedPackage direction
         = Some g /\
       InStore.subGraphData getLinkType fuel nodes selectedPackage direction st
         = Some ((length st, S (length st)), st') /\
       only_allocates st st' /\
       st' !! length st = Some (InStore.NodeArray (Investigate.sg_nodes g)) /\
       st' !! S (length st) = Some (InStore.LinkArray (Investigate.sg_links g)) /\
       st' !! nodes = Some (InStore.NodeArray a)) /\
  (exists st',
     InStore.sortPackagesByName localeCompare nodes st = Some (nodes, st') /\
     only_updates nodes st st' /\
     st' !! nodes = Some (InStore.NodeArray (sorted_by_name localeCompare a)) /\
     Permutation (sorted_by_name localeCompare a) a /\
     (total_compare localeCompare ->
      Sorted (fun x y => (localeCompare (id x) (id y) <= 0)%Z)
        (sorted_by_name localeCompare a))).
Proof.
  intros Hnodes.
  assert (Hread : InStore.read_nodes nodes st = Some (a, st))
    by (unfold InStore.read_nodes; by rewrite Hnodes).
  split; [| split; [| split; [| split; [| split]]]].
  - exists (st ++ [InStore.NodeArray (processBrokenDependencies a)]).
    unfold InStore.processBrokenDependencies, InStore.bind. rewrite Hread.
    split; [done |]. split; [by eexists |].
    split; [by apply list_lookup_middle | by apply lookup_app_l_Some].
  - unfold InStore.countPackages, InStore.bind. by rewrite Hread.
  - intros fuel packageId result s Hresult Hfuel.
    apply (closure_in_store depends_on
             (fun fuel p a r => collectPackageTree fuel p a r)); try done.
    intros p r. apply collectPackageTree_collect.
  - intros fuel packageId result s Hresult Hfuel.
    apply (closure_in_store required_by
             (fun fuel p a r => collectReversePackageTree fuel p a r)); try done.
    intros p r. apply collectReversePackageTree_collect.
  - intros fuel selectedPackage direction Hfuel.
    destruct (subGraphData_returns getLinkType a selectedPackage direction fuel Hfuel)
      as (g & Hg).
    exists g, (st ++ [InStore.NodeArray (Investigate.sg_nodes g);
                      InStore.LinkArray (Investigate.sg_links g)]).
    split; [done |].
    unfold InStore.subGraphData, InStore.bind, InStore.lift, InStore.alloc,
      InStore.ret.
    rewrite Hread, Hg, length_app. simpl.
    rewrite Nat.add_1_r, <- app_assoc. simpl.
    split; [done |]. split; [by eexists |].
    split; [by apply list_lookup_middle |].
    split; [| by apply lookup_app_l_Some].
    rewrite (lookup_app_r st) by lia.
    by replace (S (length st) - length st) with 1 by lia.
  - destruct (write_spec nodes _
                (InStore.NodeArray (sorted_by_name localeCompare a)) st Hnodes)
      as (Hwrite & Hupd & Hnew).
    eexists. unfold InStore.sortPackagesByName, InStore.bind, InStore.ret.
    rewrite Hread, Hwrite.
    split; [done |]. split; [done |]. split; [done |].
    split; [apply Array_sort_perm |].
    intros Htotal. apply Array_sort_Sorted. intros x y. apply Htotal.
Qed.

Lemma codeUnitCompare_total : total_compare codeUnitCompare.
Proof.
  intros x y. unfold codeUnitCompare. rewrite (String.compare_antisym y x).
  by destruct (String.compare x y).
Defined.

Lemma query_operations_frame_witness :
  exists st',
    InStore.sortPackagesByName codeUnitCompare 0 example_store = Some (0, st') /\
    only_updates 0 example_store st' /\
    st' !! 0 = Some (InStore.NodeArray (sorted_by_name codeUnitCompare
                                          [example_B; example_A])) /\
    Sorted (fun x y => (codeUnitCompare (id x) (id y) <= 0)%Z)
      (sorted_by_name codeUnitCompare [example_B; example_A]) /\
    InStore.countPackages 0 example_store
      = Some (countPackages [example_B; example_A], example_store).
Proof.
  destruct (query_operations_frame (fun _ _ => tt) codeUnitCompare
              example_store 0 [example_B; example_A] eq_refl)
    as (_ & Hcount & _ & _ & _ & st' & Hsort & Hupd & Hnew & _ & Hsorted).
  exists st'. split; [done |]. split; [done |]. split; [done |].
  split; [| done]. apply Hsorted, codeUnitCompare_total.
Defined.

(** C7 fails as stated for the sorting: after [sortPackagesByName] on the
    array of [B] and [A], the array that was passed holds [A] and [B]. *)
Lemma sortPackagesByName_mutates_counterexample :
  example_store !! 0 = Some (InStore.NodeArray [example_B; example_A]) /\
  exists st',
    InStore.sortPackagesByName codeUnitCompare 0 example_store = Some (0, st') /\
    st' !! 0 = Some (InStore.NodeArray [example_A; example_B]) /\
    st' !! 0 <> example_store !! 0.
Proof.
  split; [done |].
  exists [InStore.NodeArray [example_A; example_B]].
  split; [by vm_compute |]. split; [done |]. simpl. intros [= H].
Qed.

(** * Further properties *)

(** ** The closures, from any set *)

Lemma forEach_establishes {A S : Type} (f : A -> S -> option S)
    (Q : A -> S -> Prop) (l : list A) (s s' : S) :
  (forall x t t', x ∈ l -> f x t = Some t' -> Q x t') ->
  (forall x y t t', f x t = Some t' -> Q y t -> Q y t') ->
  forEach f l s = Some s' -> forall x, x ∈ l -> Q x s'.
Proof.
  intros Hest Hkeep. revert s Hest.
  induction l as [| y l IH]; intros s Hest Hloop x Hx; [by apply elem_of_nil in Hx |].
  simpl in Hloop. destruct (f y s) as [t |] eqn:Hf; [| done].
  apply elem_of_cons in Hx as [-> | Hx].
  - refine (forEach_invariant f (Q y) l t s' _ _ Hloop).
    + intros z u u' _ Hu Hfz. by apply (Hkeep z y u u').
    + apply (Hest y s t); [apply list_elem_of_here | done].
  - apply (IH t); [| done | done].
    intros z u u' Hz. apply Hest. by apply list_elem_of_further.
Qed.

Lemma forEach_projection {A S T : Type} (proj : S -> T)
    (f : A -> S -> option S) (g : A -> T -> option T) (l : list A) (s : S) :
  (forall x t, proj <$> f x t = g x (proj t)) ->
  proj <$> forEach f l s = forEach g l (proj s).
Proof.
  intros Hfg. revert s. induction l as [| x l IH]; intros s; simpl; [done |].
  rewrite <- Hfg. destruct (f x s) as [t |]; simpl; [apply IH | done].
Qed.

Lemma extends_list_refl (l : list string) : extends_list l l.
Proof. exists []. by rewrite app_nil_r. Qed.

Lemma extends_list_trans (l1 l2 l3 : list string) :
  extends_list l1 l2 -> extends_list l2 l3 -> extends_list l1 l3.
Proof. intros [n1 ->] [n2 ->]. exists (n1 ++ n2). by rewrite app_assoc. Qed.

Lemma extends_list_add (l : list string) (x : string) :
  extends_list l (JsSet.add l x).
Proof.
  unfold JsSet.add. destruct (JsSet.has l x); [apply extends_list_refl |].
  by exists [x].
Qed.

Section ClosureFrom.
Variable edges : PackageNode -> list string.
Variable nodes : list PackageNode.

Lemma collect_extends (fuel : nat) :
  forall (p : string) (R R' : list string),
    collect edges nodes fuel p R = Some R' -> extends_list R R'.
Proof.
  induction fuel as [| fuel IH]; intros p R R'; simpl; [done |].
  destruct (JsSet.has R p); [intros [= <-]; apply extends_list_refl |].
  destruct (find_node p nodes) as [pkg |].
  - intros Hloop. apply (extends_list_trans _ (JsSet.add R p));
      [apply extends_list_add |].
    refine (forEach_invariant _ (extends_list (JsSet.add R p)) _ _ _ _ _ Hloop).
    + intros d t t' _ Ht Hc. eapply extends_list_trans; [done | by eapply IH].
    + apply extends_list_refl.
  - intros [= <-]. apply extends_list_add.
Qed.
End ClosureFrom.

(** X1: with enough fuel, the forward closure into any set returns; the set
    it was handed is the beginning of the result, so no member is removed or
    moved; a set without repetition stays so; the start is in the result and
    every added name is reached from the start. *)
Theorem collectPackageTree_accumulates (nodes : list PackageNode)
    (packageId : string) (result : list string) (fuel : nat) :
  enough_fuel depends_on nodes <= fuel ->
  exists result',
    collectPackageTree fuel packageId nodes result = Some result' /\
    extends_list result result' /\
    packageId ∈ result' /\
    (NoDup result -> NoDup result') /\
    (forall x, x ∈ result' ->
               x ∈ result \/ reachable depends_on nodes packageId x).
Proof.
  intros Hfuel. rewrite collectPackageTree_collect.
  destruct (collect_returns depends_on nodes fuel packageId result Hfuel)
    as [result' Hc].
  destruct (collect_sound _ _ _ _ _ _ Hc) as (_ & Hp & Hsound & _ & Hnd).
  exists result'. split; [done |]. split; [by eapply collect_extends |]. done.
Qed.

Lemma collectPackageTree_accumulates_witness :
  exists result',
    collectPackageTree 10 "A" example_graph ["B"; "Z"] = Some result' /\
    extends_list ["B"; "Z"] result'.
Proof.
  destruct (collectPackageTree_accumulates example_graph "A" ["B"; "Z"] 10)
    as (result' & Hc & Hext & _).
  - vm_compute. lia.
  - by exists result'.
Defined.

(** ** The reverse closure *)

(** X2: with enough fuel the reverse closure from the empty set returns; its
    result holds no name twice and is the set of the names reached from the
    start by following [required_by] edges zero or more times; a name
    without a record is its own closure. *)
Theorem collectReversePackageTree_closure (nodes : list PackageNode)
    (start : string) (fuel : nat) :
  enough_fuel required_by nodes <= fuel ->
  exists closure,
    collectReversePackageTree fuel start nodes JsSet.empty = Some closure /\
    NoDup closure /\
    (forall x, x ∈ closure <-> reachable required_by nodes start x) /\
    (find_node start nodes = None -> closure = [start]).
Proof.
  intros Hfuel. unfold JsSet.empty. rewrite collectReversePackageTree_collect.
  destruct (collect_returns required_by nodes fuel start [] Hfuel) as [closure Hc].
  destruct (collect_closure _ _ _ _ _ Hc) as [Hnd Hreach].
  exists closure. split; [done |]. split; [done |]. split; [done |].
  intros Hnone. destruct fuel as [| fuel]; [unfold enough_fuel in Hfuel; lia |].
  rewrite (collect_unknown required_by nodes fuel start Hnone) in Hc. congruence.
Qed.

Lemma collectReversePackageTree_closure_witness :
  exists closure,
    collectReversePackageTree 10 "B" example_graph JsSet.empty = Some closure /\
    forall x, x ∈ closure <-> reachable required_by example_graph "B" x.
Proof.
  destruct (collectReversePackageTree_closure example_graph "B" 10)
    as (closure & Hc & _ & Hreach & _).
  - vm_compute. lia.
  - by exists closure.
Defined.

Lemma reachable_converse (nodes : list PackageNode) (x y : string) :
  (forall a b, edge_of required_by nodes a b -> edge_of depends_on nodes b a) ->
  reachable required_by nodes x y -> reachable depends_on nodes y x.
Proof.
  intros Hconv Hxy. induction Hxy as [| a b c Hab _ IH]; [apply rtc_refl |].
  eapply rtc_r; [done | by apply Hconv].
Qed.

Lemma reachable_converse_back (nodes : list PackageNode) (x y : string) :
  (forall a b, edge_of depends_on nodes b a -> edge_of required_by nodes a b) ->
  reachable depends_on nodes y x -> reachable required_by nodes x y.
Proof.
  intros Hconv Hyx. induction Hyx as [| a b c Hab _ IH]; [apply rtc_refl |].
  eapply rtc_r; [done | by apply Hconv].
Qed.

(** X3: on a graph whose [required_by] edges are the [depends_on] edges
    turned around, a package is in the reverse closure of [p] exactly when
    [p] is in its forward closure: the reverse closure is the set of the
    packages that need [p]. *)
Theorem reverse_closure_is_converse (nodes : list PackageNode) (p x : string)
    (fuel : nat) :
  enough_fuel depends_on nodes <= fuel ->
  enough_fuel required_by nodes <= fuel ->
  (forall a b, edge_of required_by nodes a b <-> edge_of depends_on nodes b a) ->
  exists reverse_of_p forward_of_x,
    collectReversePackageTree fuel p nodes JsSet.empty = Some reverse_of_p /\
    collectPackageTree fuel x nodes JsSet.empty = Some forward_of_x /\
    (x ∈ reverse_of_p <-> p ∈ forward_of_x).
Proof.
  intros Hfwd Hrev Hconv. unfold JsSet.empty.
  rewrite collectReversePackageTree_collect, collectPackageTree_collect.
  destruct (collect_returns required_by nodes fuel p [] Hrev) as [rp Hrp].
  destruct (collect_returns depends_on nodes fuel x [] Hfwd) as [fx Hfx].
  destruct (collect_closure _ _ _ _ _ Hrp) as [_ Hr].
  destruct (collect_closure _ _ _ _ _ Hfx) as [_ Hf].
  exists rp, fx. split; [done |]. split; [done |].
  rewrite Hr, Hf. split.
  - apply reachable_converse. intros a b. apply Hconv.
  - apply reachable_converse_back. intros a b. apply Hconv.
Qed.

Lemma example_mutual_converse (a b : string) :
  edge_of required_by example_mutual a b <-> edge_of depends_on example_mutual b a.
Proof.
  assert (Hfind : forall q pkg, find_node q example_mutual = Some pkg ->
            (q = "A" /\ pkg = example_mutual_A) \/
            (q = "B" /\ pkg = example_mutual_B)).
  { intros q pkg. unfold find_node, example_mutual.
    change (List.find _ _) with
      (if String.eqb "A" q then Some example_mutual_A
       else if String.eqb "B" q then Some example_mutual_B else None).
    destruct (String.eqb_spec "A" q) as [<- | _]; [intros [= <-]; by left |].
    destruct (String.eqb_spec "B" q) as [<- | _]; [intros [= <-]; by right |].
    done. }
  split.
  - intros (pkg & Hpkg & Hb).
    destruct (Hfind a pkg Hpkg) as [[-> ->] | [-> ->]]; simpl in Hb;
      apply list_elem_of_singleton in Hb as ->.
    + exists example_mutual_B. split; [done | by apply list_elem_of_singleton].
    + exists example_mutual_A. split; [done | by apply list_elem_of_singleton].
  - intros (pkg & Hpkg & Ha).
    destruct (Hfind b pkg Hpkg) as [[-> ->] | [-> ->]]; simpl in Ha;
      apply list_elem_of_singleton in Ha as ->.
    + exists example_mutual_B. split; [done | by apply list_elem_of_singleton].
    + exists example_mutual_A. split; [done | by apply list_elem_of_singleton].
Defined.

Lemma reverse_closure_is_converse_witness :
  exists reverse_of_p forward_of_x,
    collectReversePackageTree 10 "A" example_mutual JsSet.empty
      = Some reverse_of_p /\
    collectPackageTree 10 "B" example_mutual JsSet.empty = Some forward_of_x /\
    ("B" ∈ reverse_of_p <-> "A" ∈ forward_of_x).
Proof.
  apply (reverse_closure_is_converse example_mutual "A" "B" 10).
  - vm_compute. lia.
  - vm_compute. lia.
  - exact example_mutual_converse.
Defined.

(** ** [collectDependencies] *)

Section DependenciesFacts.
Variable nodes : list PackageNode.

(** The set [visited] evolves as the set of the forward closure does. *)
Lemma collectDependencies_visited (fuel : nat) :
  forall (p : string) (V R : list string),
    fst <$> collectDependencies fuel p nodes V R =
      collect depends_on nodes fuel p V.
Proof.
  induction fuel as [| fuel IH]; intros p V R; simpl; [done |].
  destruct (JsSet.has V p); [done |].
  destruct (find_node p nodes) as [pkg |]; [| done].
  apply (forEach_projection fst
           (fun dep st => collectDependencies fuel dep nodes (fst st)
                            (JsSet.add (snd st) dep))
           (fun dep r => collect depends_on nodes fuel dep r)).
  intros d t. apply IH.
Qed.

Lemma tc_last_edge (x z : string) :
  tc (edge_of depends_on nodes) x z ->
  exists y, rtc (edge_of depends_on nodes) x y /\ edge_of depends_on nodes y z.
Proof.
  induction 1 as [x z Hxz | x w z Hxw _ (y & Hwy & Hyz)].
  - exists x. split; [apply rtc_refl | done].
  - exists y. split; [by eapply rtc_l | done].
Qed.

Lemma collectDependencies_sound (fuel : nat) :
  forall (p : string) (V R V' R' : list string),
    collectDependencies fuel p nodes V R = Some (V', R') ->
    (forall x, x ∈ R -> x ∈ R') /\
    (forall x, x ∈ R' -> x ∈ R \/ reachable_by_edges depends_on nodes p x) /\
    (forall grey, targets_collected nodes grey (V, R) ->
                  targets_collected nodes grey (V', R')) /\
    (NoDup R -> NoDup R').
Proof.
  induction fuel as [| fuel IH]; intros p V R V' R'; simpl; [done |].
  destruct (JsSet.has V p) eqn:Hhas.
  { intros [= <- <-]. split; [done |]. split; [by left | done]. }
  destruct (find_node p nodes) as [pkg |] eqn:Hfind.
  2: { intros [= <- <-]. split; [done |]. split; [by left |]. split; [| done].
       intros grey Hcol x y [Hx | ->]%JsSet_elem_of_add Hng Hxy.
       - by apply (Hcol x y).
       - by apply edge_of_unknown in Hxy. }
  intros Hloop.
  set (f := fun dep (st : list string * list string) =>
              collectDependencies fuel dep nodes (fst st) (JsSet.add (snd st) dep))
    in Hloop.
  assert (Hedge : forall d, d ∈ depends_on pkg -> edge_of depends_on nodes p d)
    by (intros d Hd; by exists pkg).
  assert (Hgrow : forall d t t' y, f d t = Some t' -> y ∈ snd t -> y ∈ snd t').
  { intros d [Vt Rt] [Vt' Rt'] y Hf Hy.
    destruct (IH _ _ _ _ _ Hf) as (Hincl & _). apply Hincl.
    apply JsSet_elem_of_add. by left. }
  assert (Hdeps : forall d, d ∈ depends_on pkg -> d ∈ R').
  { intros d Hd.
    refine (forEach_establishes f (fun d st => d ∈ snd st) _ _ (V', R')
              _ (fun x y t t' => Hgrow x t t' y) Hloop d Hd).
    intros e [Vt Rt] [Vt' Rt'] _ Hf.
    destruct (IH _ _ _ _ _ Hf) as (Hincl & _). apply Hincl.
    apply JsSet_elem_of_add. by right. }
  split; [| split; [| split]].
  - refine (forEach_invariant f (fun st => forall x, x ∈ R -> x ∈ snd st)
              _ _ (V', R') _ _ Hloop); [| done].
    intros d t t' _ Ht Hf x Hx. eapply Hgrow; [done | by apply Ht].
  - refine (forEach_invariant f
              (fun st => forall x, x ∈ snd st ->
                           x ∈ R \/ reachable_by_edges depends_on nodes p x)
              _ _ (V', R') _ _ Hloop); [| by left].
    intros d [Vt Rt] [Vt' Rt'] Hd Ht Hf x Hx.
    destruct (IH _ _ _ _ _ Hf) as (_ & Hsound & _).
    destruct (Hsound x Hx) as [[Hxt | ->]%JsSet_elem_of_add | Hreach].
    + by apply Ht.
    + right. apply tc_once. by apply Hedge.
    + right. eapply tc_l; [by apply Hedge | done].
  - intros grey Hcol.
    assert (Hgrey : targets_collected nodes (fun x => grey x \/ x = p) (V', R')).
    { refine (forEach_invariant f
                (targets_collected nodes (fun x => grey x \/ x = p))
                _ _ (V', R') _ _ Hloop).
      - intros d [Vt Rt] [Vt' Rt'] _ Ht Hf.
        destruct (IH _ _ _ _ _ Hf) as (_ & _ & Hkeep & _). apply Hkeep.
        intros x y Hx Hng Hxy. apply JsSet_elem_of_add. left.
        by apply (Ht x y).
      - intros x y [Hx | ->]%JsSet_elem_of_add Hng Hxy; [| tauto].
        apply (Hcol x y); tauto. }
    intros x y Hx Hng Hxy. destruct (decide (x = p)) as [-> | Hne].
    + destruct Hxy as (pkg' & Hfind' & Hy). apply Hdeps. congruence.
    + apply (Hgrey x y); tauto.
  - intros Hnd.
    refine (forEach_invariant f (fun st => NoDup (snd st)) _ _ (V', R') _ _ Hloop);
      [| done].
    intros d [Vt Rt] [Vt' Rt'] _ Ht Hf.
    destruct (IH _ _ _ _ _ Hf) as (_ & _ & _ & Hkeep). apply Hkeep.
    by apply JsSet_NoDup_add.
Qed.
End DependenciesFacts.

(** X4: with enough fuel, [collectDependencies] from empty sets returns;
    its [visited] set is the forward closure that [collectPackageTree]
    computes, and its [result] holds, without repetition, exactly the names
    reached from the start by one or more [depends_on] edges: the start
    itself is a dependency only when it is on a cycle. *)
Theorem collectDependencies_transitive (nodes : list PackageNode)
    (packageId : string) (fuel : nat) :
  enough_fuel depends_on nodes <= fuel ->
  exists visited result,
    collectDependencies fuel packageId nodes JsSet.empty JsSet.empty
      = Some (visited, result) /\
    collectPackageTree fuel packageId nodes JsSet.empty = Some visited /\
    NoDup result /\
    (forall x, x ∈ result <-> reachable_by_edges depends_on nodes packageId x) /\
    (forall x, x ∈ result -> x ∈ visited).
Proof.
  intros Hfuel. unfold JsSet.empty.
  destruct (collect_returns depends_on nodes fuel packageId [] Hfuel)
    as [closure Hc].
  pose proof (collectDependencies_visited nodes fuel packageId [] []) as Hvis.
  rewrite Hc in Hvis.
  destruct (collectDependencies fuel packageId nodes [] [])
    as [[visited result] |] eqn:Hcd; [| done].
  injection Hvis as ->.
  destruct (collect_closure _ _ _ _ _ Hc) as [_ Hreach].
  destruct (collectDependencies_sound nodes _ _ _ _ _ _ Hcd)
    as (_ & Hsound & Hcol & Hnd).
  assert (Hiff : forall x,
            x ∈ result <-> reachable_by_edges depends_on nodes packageId x).
  { intros x. split.
    - intros Hx. destruct (Hsound x Hx) as [Hnil | ?]; [| done].
      by apply elem_of_nil in Hnil.
    - intros (y & Hy & Hyx)%tc_last_edge.
      assert (Hnone : targets_collected nodes (fun _ => False) ([], []))
        by (intros a b Ha; by apply elem_of_nil in Ha).
      apply (Hcol (fun _ => False) Hnone y x); [| tauto | done].
      simpl. by apply Hreach. }
  exists closure, result. rewrite collectPackageTree_collect.
  split; [done |]. split; [done |]. split; [apply Hnd, NoDup_nil_2 |].
  split; [done |].
  intros x Hx. apply Hreach, tc_rtc. by apply Hiff.
Qed.

Lemma collectDependencies_transitive_witness :
  exists visited result,
    collectDependencies 10 "A" example_graph JsSet.empty JsSet.empty
      = Some (visited, result) /\
    collectPackageTree 10 "A" example_graph JsSet.empty = Some visited /\
    forall x, x ∈ result <-> reachable_by_edges depends_on example_graph "A" x.
Proof.
  destruct (collectDependencies_transitive example_graph "A" 10)
    as (visited & result & Hcd & Hc & _ & Hiff & _).
  - vm_compute. lia.
  - by exists visited, result.
Defined.

Example collectDependencies_of_a_cycle :
  collectDependencies 10 "A" example_mutual JsSet.empty JsSet.empty
    = Some (["A"; "B"], ["B"; "A"]) /\
  collectDependencies 10 "A" example_graph JsSet.empty JsSet.empty
    = Some (["A"; "B"; "C"], ["B"; "C"]).
Proof. split; by vm_compute. Qed.

(** ** The processed graph *)

Lemma filter_all_true {A : Type} (f : A -> bool) (l : list A) :
  (forall x, x ∈ l -> f x = true) -> List.filter f l = l.
Proof.
  induction l as [| x l IH]; intros Hall; simpl; [done |].
  rewrite (Hall x (list_elem_of_here _ _)), IH; [done |].
  intros y Hy. apply Hall. by apply list_elem_of_further.
Qed.

Lemma map_fixed {A : Type} (f : A -> A) (l : list A) :
  (forall x, x ∈ l -> f x = x) -> map f l = l.
Proof.
  induction l as [| x l IH]; intros Hall; simpl; [done |].
  rewrite (Hall x (list_elem_of_here _ _)), IH; [done |].
  intros y Hy. apply Hall. by apply list_elem_of_further.
Qed.

Lemma filter_length_map {A B : Type} (f : A -> B) (p : B -> bool) (l : list A) :
  length (List.filter p (map f l)) = length (List.filter (fun x => p (f x)) l).
Proof.
  induction l as [| x l IH]; simpl; [done |].
  destruct (p (f x)); simpl; by rewrite IH.
Qed.

(** The output is the cleaned input followed by the synthetic records of
    the missing targets, in the order of their first reference. *)
Lemma processBrokenDependencies_shape (nodes : list PackageNode) :
  exists missing,
    processBrokenDependencies nodes =
      map (clean_node (build_nodeMap nodes)) nodes ++ map synthetic_node missing /\
    NoDup missing /\
    (forall d, d ∈ missing <-> missing_target nodes d) /\
    map id (processBrokenDependencies nodes) = map id nodes ++ missing.
Proof.
  destruct (detect_broken_spec nodes) as [Hnd Hin]. simpl in Hnd, Hin.
  eexists. split; [apply processBrokenDependencies_unfold |].
  split; [done |]. split; [done |].
  rewrite processBrokenDependencies_unfold, map_app, !map_map. simpl.
  by rewrite map_id.
Qed.

Lemma processBrokenDependencies_keys (nodes : list PackageNode) (k : string) :
  is_key (processBrokenDependencies nodes) k <->
  is_key nodes k \/ missing_target nodes k.
Proof.
  destruct (processBrokenDependencies_shape nodes) as (missing & _ & _ & Hin & Hids).
  unfold is_key at 1. rewrite Hids, elem_of_app, Hin. done.
Qed.

Lemma processBrokenDependencies_closed (nodes : list PackageNode) :
  closed_graph (processBrokenDependencies nodes).
Proof.
  intros r Hr.
  destruct (processBrokenDependencies_shape nodes) as (missing & Hout & _ & _ & _).
  rewrite Hout in Hr. apply elem_of_app in Hr as [Hr | Hr].
  - apply list_elem_of_fmap in Hr as (n & -> & Hn). split.
    + intros d Hd. apply processBrokenDependencies_keys.
      destruct (decide (is_key nodes d)) as [Hk | Hk]; [by left | right].
      split; [by exists n | done].
    + intros k Hk. apply processBrokenDependencies_keys. left.
      rewrite clean_node_required_by in Hk.
      apply list_elem_of_In, List.filter_In in Hk as [_ Hk].
      by apply bool_decide_eq_true in Hk.
  - apply list_elem_of_fmap in Hr as (d & -> & _). simpl.
    split; intros x Hx; by apply elem_of_nil in Hx.
Qed.

(** X5: the processed graph has no dangling edge and one more record per
    missing target: every name in a [depends_on] or [required_by] list of an
    output record is the id of an output record; the ids of the output are
    the ids of the input followed by the missing targets, each once, so the
    output has no id twice when the input has none. *)
Theorem processBrokenDependencies_closes (nodes : list PackageNode) :
  let out := processBrokenDependencies nodes in
  closed_graph out /\
  exists missing,
    NoDup missing /\
    (forall d, d ∈ missing <-> missing_target nodes d) /\
    map id out = map id nodes ++ missing /\
    length out = length nodes + length missing /\
    (NoDup (map id nodes) -> NoDup (map id out)).
Proof.
  simpl. split; [apply processBrokenDependencies_closed |].
  destruct (processBrokenDependencies_shape nodes) as (missing & _ & Hnd & Hin & Hids).
  exists missing. split; [done |]. split; [done |]. split; [done |]. split.
  - rewrite <- (length_map id), Hids, length_app, length_map. done.
  - intros Hnodes. rewrite Hids. apply NoDup_app. split; [done |].
    split; [| done]. intros k Hk Hm. apply Hin in Hm as [_ Hnk]. by apply Hnk.
Qed.

(** X6: processing is idempotent: a second pass finds nothing to clean and
    nothing missing, and returns the list of the first. *)
Theorem processBrokenDependencies_idempotent (nodes : list PackageNode) :
  processBrokenDependencies (processBrokenDependencies nodes) =
    processBrokenDependencies nodes.
Proof.
  set (out := processBrokenDependencies nodes).
  pose proof (processBrokenDependencies_closed nodes) as Hclosed. fold out in Hclosed.
  destruct (processBrokenDependencies_shape out) as (missing & Hout & _ & Hin & _).
  assert (Hnone : missing = []).
  { apply elem_of_nil_inv. intros d [(n & Hn & Hd) Hk]%Hin.
    apply Hk. by apply (proj1 (Hclosed n Hn)). }
  rewrite Hout, Hnone. simpl. rewrite app_nil_r.
  apply map_fixed. intros r Hr.
  assert (Hreq : List.filter (fun dep => Map_has (build_nodeMap out) dep)
                   (required_by r) = required_by r).
  { apply filter_all_true. intros k Hk. apply Map_has_nodeMap.
    by apply (proj2 (Hclosed r Hr)). }
  destruct r. unfold clean_node. simpl in *. by rewrite Hreq.
Qed.

(** X7: processing changes the counts only by the synthetic records: the
    explicit and the dependency counts are those of the input, the broken
    count and the total grow by the number of missing targets. *)
Theorem countPackages_processBrokenDependencies (nodes : list PackageNode) :
  let before := countPackages nodes in
  let after := countPackages (processBrokenDependencies nodes) in
  exists missing,
    NoDup missing /\
    (forall d, d ∈ missing <-> missing_target nodes d) /\
    count_explicit after = count_explicit before /\
    count_dependency after = count_dependency before /\
    (count_broken after = count_broken before + Z.of_nat (length missing))%Z /\
    (count_total after = count_total before + Z.of_nat (length missing))%Z.
Proof.
  simpl.
  destruct (processBrokenDependencies_shape nodes) as (missing & Hout & Hnd & Hin & _).
  exists missing. split; [done |]. split; [done |].
  assert (Hsyn : forall p, (forall d, p (synthetic_node d) = false) ->
            length (List.filter p (map synthetic_node missing)) = 0).
  { intros p Hp. rewrite filter_length_map. clear -Hp.
    induction missing as [| d l IH]; simpl; [done |]. by rewrite Hp. }
  assert (Hall : length (List.filter (fun n => truthy (broken n))
                           (map synthetic_node missing)) = length missing).
  { rewrite filter_all_true; [by rewrite length_map |].
    by intros r (d & -> & _)%list_elem_of_fmap. }
  assert (Hexp : length (List.filter (fun n => explicit n && negb (truthy (broken n)))
                           (processBrokenDependencies nodes)) =
                 length (List.filter (fun n => explicit n && negb (truthy (broken n)))
                           nodes)).
  { rewrite Hout, List.filter_app, length_app, filter_length_map, Hsyn by done.
    simpl. lia. }
  assert (Hbr : length (List.filter (fun n => truthy (broken n))
                          (processBrokenDependencies nodes)) =
                length (List.filter (fun n => truthy (broken n)) nodes)
                + length missing).
  { rewrite Hout, List.filter_app, length_app, filter_length_map, Hall. done. }
  assert (Hlen : length (processBrokenDependencies nodes) =
                 length nodes + length missing).
  { by rewrite Hout, length_app, !length_map. }
  unfold countPackages. simpl. rewrite Hexp, Hbr, Hlen. repeat split; lia.
Qed.

Lemma find_node_app (p : string) (l1 l2 : list PackageNode) :
  find_node p (l1 ++ l2) =
    match find_node p l1 with
    | Some n => Some n
    | None => find_node p l2
    end.
Proof.
  unfold find_node. induction l1 as [| n l1 IH]; simpl; [done |].
  by destruct (String.eqb (id n) p).
Qed.

Lemma find_node_cleaned (m : gmap string PackageNode) (p : string)
    (l : list PackageNode) :
  find_node p (map (clean_node m) l) = clean_node m <$> find_node p l.
Proof.
  unfold find_node. induction l as [| n l IH]; simpl; [done |].
  by destruct (String.eqb (id n) p).
Qed.

Lemma find_node_synthetic (p : string) (l : list string) :
  find_node p (map synthetic_node l) =
    if bool_decide (p ∈ l) then Some (synthetic_node p) else None.
Proof.
  unfold find_node. induction l as [| d l IH]; simpl; [done |].
  destruct (String.eqb_spec d p) as [-> | Hne].
  - by rewrite bool_decide_eq_true_2 by apply list_elem_of_here.
  - rewrite IH. destruct (decide (p ∈ l)) as [Hin | Hnin].
    + rewrite !bool_decide_eq_true_2; [done | | done].
      by apply list_elem_of_further.
    + rewrite !bool_decide_eq_false_2; [done | | done].
      rewrite not_elem_of_cons. split; [congruence | done].
Qed.

(** The record of a name in the processed graph has the [depends_on] list
    of its record in the input, or none. *)
Lemma find_node_processed (nodes : list PackageNode) (p : string) :
  match find_node p (processBrokenDependencies nodes), find_node p nodes with
  | Some r, Some n => depends_on r = depends_on n
  | Some r, None => depends_on r = []
  | None, None => True
  | None, Some _ => False
  end.
Proof.
  destruct (processBrokenDependencies_shape nodes) as (missing & -> & _).
  rewrite find_node_app, find_node_cleaned, find_node_synthetic.
  destruct (find_node p nodes) as [n |]; simpl; [done |].
  by destruct (bool_decide (p ∈ missing)).
Qed.

(** X8: the forward closure does not see the processing: from any set and
    with any fuel, the closure over the processed graph is the closure over
    the input, since a cleaned record keeps its [depends_on] list and a
    synthetic record has none. *)
Theorem collectPackageTree_processBrokenDependencies (nodes : list PackageNode)
    (fuel : nat) (packageId : string) (result : list string) :
  collectPackageTree fuel packageId (processBrokenDependencies nodes) result =
    collectPackageTree fuel packageId nodes result.
Proof.
  revert packageId result.
  induction fuel as [| fuel IH]; intros p R; simpl; [done |].
  destruct (JsSet.has R p); [done |].
  pose proof (find_node_processed nodes p) as Hfind.
  destruct (find_node p (processBrokenDependencies nodes)) as [r |],
           (find_node p nodes) as [n |]; try done.
  - rewrite Hfind. by apply forEach_ext.
  - by rewrite Hfind.
Qed.

(** ** More on the sub-graph *)

(** X9: a focal package whose name has no record gives the empty
    sub-graph, whatever the direction, with one unit of fuel. *)
Theorem subGraphData_unknown_focal {LinkType : Type}
    (getLinkType : option PackageNode -> PackageNode -> LinkType)
    (nodes : list PackageNode) (selected : PackageNode)
    (direction : Investigate.DependencyDirection) (fuel : nat) :
  find_node (id selected) nodes = None ->
  Investigate.subGraphData getLinkType nodes (S fuel) (Some selected) direction
    = Some (Investigate.mkSubGraph [] []).
Proof.
  intros Hnone.
  assert (Hids : Investigate.collect_ids nodes (S fuel) direction (id selected)
                 = Some [id selected]).
  { unfold Investigate.collect_ids, JsSet.empty.
    rewrite collectPackageTree_collect, collectReversePackageTree_collect.
    rewrite !collect_unknown by done.
    destruct direction; try done. simpl. unfold JsSet.add, JsSet.has.
    by rewrite bool_decide_eq_true_2 by apply list_elem_of_here. }
  unfold Investigate.subGraphData. rewrite Hids.
  assert (Hempty : List.filter (fun n => JsSet.has [id selected] (id n)) nodes = []).
  { apply elem_of_nil_inv. intros n Hn.
    apply list_elem_of_In, List.filter_In in Hn as [Hn Hhas].
    apply JsSet_has_true, list_elem_of_singleton in Hhas.
    apply find_node_None in Hnone. apply Hnone, list_elem_of_fmap.
    exists n. split; [done | by apply list_elem_of_In]. }
  rewrite Hempty. by destruct direction.
Qed.

Lemma subGraphData_unknown_focal_witness :
  Investigate.subGraphData (fun _ _ => tt) example_graph 1
    (Some (synthetic_node "Z")) Investigate.both
  = Some (Investigate.mkSubGraph [] []).
Proof.
  apply (subGraphData_unknown_focal (fun _ _ => tt) example_graph
           (synthetic_node "Z") Investigate.both 0).
  reflexivity.
Defined.

(** X10: on a graph without dangling edges, such as a processed graph,
    every link of a sub-graph starts and ends at a node of the sub-graph. *)
Theorem subGraphData_links_anchored {LinkType : Type}
    (getLinkType : option PackageNode -> PackageNode -> LinkType)
    (nodes : list PackageNode) (selectedPackage : option PackageNode)
    (direction : Investigate.DependencyDirection) (fuel : nat) :
  Investigate.view_fuel nodes <= fuel ->
  closed_graph nodes ->
  exists g,
    Investigate.subGraphData getLinkType nodes fuel selectedPackage direction
      = Some g /\
    forall l, l ∈ Investigate.sg_links g ->
      Investigate.source l ∈ map id (Investigate.sg_nodes g) /\
      Investigate.target l ∈ map id (Investigate.sg_nodes g).
Proof.
  intros Hfuel Hclosed. destruct selectedPackage as [selected |]; simpl.
  2: { eexists. split; [done |]. simpl. by intros l Hl%elem_of_nil. }
  destruct (collect_ids_spec nodes fuel direction (id selected) Hfuel)
    as (tree & -> & _).
  set (subNodes := List.filter (fun n => JsSet.has tree (id n)) nodes).
  eexists. split; [done |]. simpl.
  pose proof (build_links_sound getLinkType nodes direction tree subNodes)
    as Hsound.
  rewrite Forall_forall in Hsound.
  assert (Hsub : forall n, n ∈ subNodes -> n ∈ nodes).
  { intros n Hn. apply list_elem_of_In, List.filter_In in Hn as [Hn _].
    by apply list_elem_of_In. }
  assert (Hkey : forall k, is_key nodes k -> k ∈ tree -> k ∈ map id subNodes).
  { intros k (m & -> & Hm)%list_elem_of_fmap Hk. apply list_elem_of_fmap.
    exists m. split; [done |]. apply list_elem_of_In, List.filter_In.
    split; [by apply list_elem_of_In | by apply JsSet_has_true]. }
  assert (Hown : forall n, n ∈ subNodes -> id n ∈ map id subNodes).
  { intros n Hn. apply list_elem_of_fmap. by exists n. }
  intros l Hl.
  destruct (Hsound l Hl) as [[_ (n & Hn & -> & Ht & Htree)]
                            | [_ (n & Hn & -> & Hs & Htree)]].
  - split; [by apply Hown |].
    apply Hkey; [| done]. by apply (proj1 (Hclosed n (Hsub n Hn))).
  - split; [| by apply Hown].
    apply Hkey; [| done]. by apply (proj2 (Hclosed n (Hsub n Hn))).
Qed.

Lemma subGraphData_links_anchored_witness :
  exists g,
    Investigate.subGraphData (fun _ _ => tt)
      (processBrokenDependencies example_graph) 20 (Some example_A)
      Investigate.both = Some g /\
    forall l, l ∈ Investigate.sg_links g ->
      Investigate.source l ∈ map id (Investigate.sg_nodes g) /\
      Investigate.target l ∈ map id (Investigate.sg_nodes g).
Proof.
  apply (subGraphData_links_anchored (fun _ _ => tt)
           (processBrokenDependencies example_graph) (Some example_A)
           Investigate.both 20).
  - vm_compute. lia.
  - apply processBrokenDependencies_closed.
Defined.

(** ** More on the sorting *)

Section SortMore.
Context {A : Type}.
Variable compareFn : A -> A -> Z.

Lemma insert_sorted_head (x : A) (l : list A) :
  HdRel (fun a b => (compareFn a b <= 0)%Z) x l ->
  insert_sorted compareFn x l = x :: l.
Proof.
  intros [| y l' Hxy]; simpl; [done |].
  by destruct (Z.leb_spec (compareFn x y) 0); [| lia].
Qed.

Lemma Array_sort_sorted (l : list A) :
  Sorted (fun a b => (compareFn a b <= 0)%Z) l -> Array_sort compareFn l = l.
Proof.
  induction 1 as [| x l Hl IH Hhd]; simpl; [done |].
  rewrite IH. by apply insert_sorted_head.
Qed.

(** An inserted element passes only elements of another class. *)
Lemma insert_sorted_filter (P : A -> bool) (x : A) (l : list A) :
  (forall a b, P a = true -> P b = true -> (compareFn a b <= 0)%Z) ->
  List.filter P (insert_sorted compareFn x l) = List.filter P (x :: l).
Proof.
  intros Hclass. induction l as [| y l IH]; [done |].
  cbn [insert_sorted].
  destruct (Z.leb_spec (compareFn x y) 0) as [Hle | Hgt]; [done |].
  cbn [List.filter] in *. rewrite IH.
  destruct (P x) eqn:Hx, (P y) eqn:Hy; try done.
  exfalso. specialize (Hclass x y Hx Hy). lia.
Qed.

Lemma Array_sort_filter (P : A -> bool) (l : list A) :
  (forall a b, P a = true -> P b = true -> (compareFn a b <= 0)%Z) ->
  List.filter P (Array_sort compareFn l) = List.filter P l.
Proof.
  intros Hclass. induction l as [| x l IH]; [done |]. simpl.
  rewrite insert_sorted_filter by done. simpl. by rewrite IH.
Qed.
End SortMore.

(** X11: for a total and transitive comparator, a list that is in name
    order is left as it is by the sorting, and sorting twice is sorting
    once. *)
Theorem sorted_by_name_idempotent (localeCompare : string -> string -> Z)
    (packages : list PackageNode) :
  total_compare localeCompare ->
  transitive_compare localeCompare ->
  (Sorted (fun x y => (localeCompare (id x) (id y) <= 0)%Z) packages ->
   sorted_by_name localeCompare packages = packages) /\
  sorted_by_name localeCompare (sorted_by_name localeCompare packages) =
    sorted_by_name localeCompare packages.
Proof.
  intros Htotal _. unfold sorted_by_name. split.
  - apply Array_sort_sorted.
  - apply Array_sort_sorted, Array_sort_Sorted. intros x y. apply Htotal.
Qed.

(** X12: the sorting is stable on the records of one name: for a reflexive
    comparator, the records with a given id come out in the order they came
    in. *)
Theorem sorted_by_name_stable (localeCompare : string -> string -> Z)
    (packages : list PackageNode) (name : string) :
  reflexive_compare localeCompare ->
  List.filter (fun n => String.eqb (id n) name)
    (sorted_by_name localeCompare packages) =
  List.filter (fun n => String.eqb (id n) name) packages.
Proof.
  intros Hrefl. unfold sorted_by_name. apply Array_sort_filter.
  intros a b ->%String.eqb_eq ->%String.eqb_eq. by rewrite Hrefl.
Qed.

Lemma ascii_compare_N (a b : ascii) :
  Ascii.compare a b = N.compare (N_of_ascii a) (N_of_ascii b).
Proof. reflexivity. Qed.

Lemma ascii_compare_trans (a b c : ascii) :
  Ascii.compare a b <> Gt -> Ascii.compare b c <> Gt -> Ascii.compare a c <> Gt.
Proof.
  rewrite !ascii_compare_N. intros Hab Hbc.
  exact (N.le_trans _ _ _ Hab Hbc).
Qed.

Lemma string_compare_trans (x y z : string) :
  String.compare x y <> Gt -> String.compare y z <> Gt ->
  String.compare x z <> Gt.
Proof.
  revert y z. induction x as [| a x IH]; intros [| b y] [| c z]; simpl;
    try done.
  pose proof (ascii_compare_trans a b c) as Htrans.
  destruct (Ascii.compare a b) eqn:Hab; try done;
    destruct (Ascii.compare b c) eqn:Hbc; try done;
    try apply Ascii.compare_eq_iff in Hab as ->;
    try apply Ascii.compare_eq_iff in Hbc as ->;
    rewrite ?Hab, ?Hbc; try done.
  - assert (Hcc : Ascii.compare c c = Eq).
    { rewrite ascii_compare_N. apply N.compare_refl. }
    rewrite Hcc. apply IH.
  - intros _ _. destruct (Ascii.compare a c) eqn:Hac; try done.
    + apply Ascii.compare_eq_iff in Hac as ->.
      rewrite Ascii.compare_antisym, Hbc in Hab. done.
    + exfalso. apply Htrans; done.
Qed.

Lemma codeUnitCompare_le (x y : string) :
  (codeUnitCompare x y <= 0)%Z <-> String.compare x y <> Gt.
Proof. unfold codeUnitCompare. destruct (String.compare x y); split; done || lia. Qed.

Lemma codeUnitCompare_transitive : transitive_compare codeUnitCompare.
Proof.
  intros x y z. rewrite !codeUnitCompare_le. apply string_compare_trans.
Defined.

Lemma codeUnitCompare_reflexive : reflexive_compare codeUnitCompare.
Proof.
  intros x. unfold codeUnitCompare.
  pose proof (String.compare_antisym x x) as H.
  by destruct (String.compare x x).
Defined.

Lemma sorted_by_name_idempotent_witness :
  sorted_by_name codeUnitCompare (sorted_by_name codeUnitCompare [example_B; example_A])
  = sorted_by_name codeUnitCompare [example_B; example_A].
Proof.
  apply (sorted_by_name_idempotent codeUnitCompare [example_B; example_A]).
  - exact codeUnitCompare_total.
  - exact codeUnitCompare_transitive.
Defined.

Lemma sorted_by_name_stable_witness :
  List.filter (fun n => String.eqb (id n) "A")
    (sorted_by_name codeUnitCompare [example_B; example_mutual_A; example_A]) =
  List.filter (fun n => String.eqb (id n) "A")
    [example_B; example_mutual_A; example_A].
Proof.
  apply (sorted_by_name_stable codeUnitCompare
           [example_B; example_mutual_A; example_A] "A").
  exact codeUnitCompare_reflexive.
Defined.

(** ** The package list of the Investigate view *)

Section ListFacts.
Context {LinkType : Type}.
Implicit Types (st : list (InStore.Obj LinkType)).
Variable fuzzyMatch : string -> string -> bool.
Variable localeCompare : string -> string -> Z.

(** Sorting an array that was made after [st] leaves [st] as it is. *)
Lemma sortPackagesByName_new st (new : list (InStore.Obj LinkType)) (r : nat)
    (b : list PackageNode) :
  (st ++ new) !! r = Some (InStore.NodeArray b) ->
  length st <= r ->
  exists new',
    InStore.sortPackagesByName localeCompare r (st ++ new)
      = Some (r, st ++ new') /\
    (st ++ new') !! r = Some (InStore.NodeArray (sorted_by_name localeCompare b)).
Proof.
  intros Hr Hle.
  destruct (write_spec r _ (InStore.NodeArray (sorted_by_name localeCompare b))
              (st ++ new) Hr) as (Hwrite & _ & Hnew).
  rewrite insert_app_r_alt in Hwrite, Hnew by done.
  eexists. unfold InStore.sortPackagesByName, InStore.bind, InStore.read_nodes,
    InStore.ret.
  rewrite Hr, Hwrite. done.
Qed.

(** X13: the package list is built in new arrays: [filteredPackages]
    leaves every object of the store as it was, the array of the nodes
    included, although it ends with the in-place sorting; the array it
    returns is new and holds, reordered by the sorting, exactly the nodes
    whose name matches the search and whose kind passes the filter. *)
Theorem filteredPackages_fresh st (nodes : nat) (a : list PackageNode)
    (searchQuery : string) (filterType : InvestigateList.InvestigateFilterType) :
  st !! nodes = Some (InStore.NodeArray a) ->
  let result :=
    InvestigateList.filtered_list fuzzyMatch localeCompare a searchQuery filterType in
  exists r st',
    InvestigateList.filteredPackages fuzzyMatch localeCompare nodes searchQuery
      filterType st = Some (r, st') /\
    only_allocates st st' /\
    length st <= r /\
    st' !! r = Some (InStore.NodeArray result) /\
    st' !! nodes = Some (InStore.NodeArray a) /\
    (forall n, n ∈ result <->
       n ∈ a /\ fuzzyMatch searchQuery (id n) = true /\
       match filterType with
       | InvestigateList.filter_all => True
       | InvestigateList.filter_explicit => explicit n = true
       | InvestigateList.filter_dependency => explicit n = false
       end).
Proof.
  intros Hnodes result.
  set (f1 := List.filter (fun n => fuzzyMatch searchQuery (id n)) a).
  assert (Hmem : forall n, n ∈ result <->
            n ∈ a /\ fuzzyMatch searchQuery (id n) = true /\
            match filterType with
            | InvestigateList.filter_all => True
            | InvestigateList.filter_explicit => explicit n = true
            | InvestigateList.filter_dependency => explicit n = false
            end).
  { intros n. subst result. unfold InvestigateList.filtered_list, sorted_by_name.
    rewrite (Array_sort_perm _ _). fold f1.
    assert (Hf1 : n ∈ f1 <-> n ∈ a /\ fuzzyMatch searchQuery (id n) = true).
    { subst f1. rewrite !list_elem_of_In. apply List.filter_In. }
    destruct filterType; rewrite ?list_elem_of_In, ?List.filter_In,
      <- ?list_elem_of_In, ?Hf1, ?negb_true_iff; tauto. }
  assert (Hfinish : forall new r b,
            (st ++ new) !! r = Some (InStore.NodeArray b) -> length st <= r ->
            b = match filterType with
                | InvestigateList.filter_explicit =>
                    List.filter (fun n => explicit n) f1
                | InvestigateList.filter_dependency =>
                    List.filter (fun n => negb (explicit n)) f1
                | InvestigateList.filter_all => f1
                end ->
            exists st',
              InStore.sortPackagesByName localeCompare r (st ++ new)
                = Some (r, st') /\
              only_allocates st st' /\ length st <= r /\
              st' !! r = Some (InStore.NodeArray result) /\
              st' !! nodes = Some (InStore.NodeArray a)).
  { intros new r b Hr Hle Hb.
    destruct (sortPackagesByName_new st new r b Hr Hle) as (new' & Hsort & Hnew).
    exists (st ++ new'). split; [done |]. split; [by eexists |].
    split; [done |]. split; [| by apply lookup_app_l_Some].
    rewrite Hnew. subst result b. unfold InvestigateList.filtered_list.
    by destruct filterType. }
  assert (Hread : InStore.read_nodes nodes st = Some (a, st))
    by (unfold InStore.read_nodes; by rewrite Hnodes).
  unfold InvestigateList.filteredPackages, InStore.bind at 1 2.
  rewrite Hread. unfold InStore.alloc at 1. fold f1.
  destruct filterType.
  - unfold InStore.bind, InStore.ret.
    destruct (Hfinish [InStore.NodeArray f1] (length st) f1) as (st' & Hs & Hrest);
      [by apply list_lookup_middle | done | done |].
    exists (length st), st'. rewrite Hs. tauto.
  - unfold InStore.bind at 1 2, InStore.read_nodes at 1, InStore.alloc.
    rewrite list_lookup_middle by done.
    rewrite length_app, <- app_assoc. simpl.
    destruct (Hfinish [InStore.NodeArray f1;
                       InStore.NodeArray (List.filter (fun n => explicit n) f1)]
                (length st + 1) (List.filter (fun n => explicit n) f1))
      as (st' & Hs & Hrest); [| lia | done |].
    { rewrite lookup_app_r by lia. by replace (length st + 1 - length st) with 1 by lia. }
    exists (length st + 1), st'. rewrite Hs. tauto.
  - unfold InStore.bind at 1 2, InStore.read_nodes at 1, InStore.alloc.
    rewrite list_lookup_middle by done.
    rewrite length_app, <- app_assoc. simpl.
    destruct (Hfinish [InStore.NodeArray f1;
                       InStore.NodeArray (List.filter (fun n => negb (explicit n)) f1)]
                (length st + 1) (List.filter (fun n => negb (explicit n)) f1))
      as (st' & Hs & Hrest); [| lia | done |].
    { rewrite lookup_app_r by lia. by replace (length st + 1 - length st) with 1 by lia. }
    exists (length st + 1), st'. rewrite Hs. tauto.
Qed.
End ListFacts.

Lemma filteredPackages_fresh_witness :
  exists r st',
    InvestigateList.filteredPackages (fun _ _ => true) codeUnitCompare 0 ""
      InvestigateList.filter_explicit example_store = Some (r, st') /\
    st' !! 0 = Some (InStore.NodeArray [example_B; example_A]) /\
    st' !! r = Some (InStore.NodeArray [example_A]).
Proof.
  destruct (filteredPackages_fresh (fun _ _ => true) codeUnitCompare
              example_store 0 [example_B; example_A] ""
              InvestigateList.filter_explicit eq_refl)
    as (r & st' & Hop & _ & _ & Hr & Hnodes & _).
  by exists r, st'.
Defined.

(** ** The command line of [collect-deps.sh] *)

(** Induction over an argument list that is consumed by one or two. *)
Lemma args_induction (P : list string -> Prop) :
  P [] ->
  (forall a, P [a]) ->
  (forall a b rest, P rest -> P (b :: rest) -> P (a :: b :: rest)) ->
  forall args, P args.
Proof.
  intros Hnil Hone Hstep args.
  assert (Hboth : P args /\ forall a, P (a :: args)).
  { induction args as [| b rest [IH1 IH2]]; [by split |].
    split; [apply IH2 |]. intros a. apply Hstep; [done | apply IH2]. }
  apply Hboth.
Qed.

Ltac parse_cases :=
  repeat match goal with
         | |- context [if ?c then _ else _] => destruct c eqn:?
         end.

(** X14: the option loop keeps the options valid: when it ends without
    exit, the mode is empty with an empty value, or [first], [last] or
    [random] with a value made of one or more digits, or [select] with a
    non-empty value. *)
Theorem parse_args_valid (args : list string)
    (o o' : CollectDepsSteps.Options) :
  CollectDepsSteps.valid_options o ->
  CollectDepsSteps.parse_args args o = CollectDepsSteps.Parsed_ok o' ->
  CollectDepsSteps.valid_options o'.
Proof.
  revert o. induction args as [| a | a b rest IH1 IH2] using args_induction;
    intros o Hvalid.
  - by intros [= <-].
  - simpl. parse_cases; try done. intros [= <-].
    unfold CollectDepsSteps.valid_options in *. simpl. done.
  - cbn [CollectDepsSteps.parse_args].
    destruct (String.eqb a "--debug" || String.eqb a "-d").
    { apply IH2. unfold CollectDepsSteps.valid_options in *. simpl. done. }
    destruct (String.eqb a "--first" || String.eqb a "-f").
    { destruct (CollectDepsSteps.numeric b) eqn:Hnum; [| done].
      apply IH1. right. left. simpl. tauto. }
    destruct (String.eqb a "--last" || String.eqb a "-l").
    { destruct (CollectDepsSteps.numeric b) eqn:Hnum; [| done].
      apply IH1. right. left. simpl. tauto. }
    destruct (String.eqb a "--random" || String.eqb a "-r").
    { destruct (CollectDepsSteps.numeric b) eqn:Hnum; [| done].
      apply IH1. right. left. simpl. tauto. }
    destruct (String.eqb a "--select" || String.eqb a "-s"); [| done].
    destruct (String.eqb_spec b ""); [done |].
    apply IH1. right. right. simpl. done.
Qed.

Lemma parse_args_valid_witness :
  CollectDepsSteps.valid_options
    {| CollectDepsSteps.DEBUG := true; CollectDepsSteps.FILTER_MODE := "last";
       CollectDepsSteps.FILTER_VALUE := "5" |}.
Proof.
  apply (parse_args_valid ["--first"; "10"; "-d"; "-l"; "5"]
           CollectDepsSteps.initial_options).
  - left. done.
  - reflexivity.
Defined.

(** X15: the options are read from left to right and a later filter
    replaces an earlier one: after arguments that are read without exit,
    the remaining arguments are read from the options reached; so a final
    [--first N] with a numeric [N] sets the mode and the value whatever
    filter came before, and keeps the debug flag. *)
Theorem parse_args_app (args1 args2 : list string)
    (o o1 : CollectDepsSteps.Options) :
  CollectDepsSteps.parse_args args1 o = CollectDepsSteps.Parsed_ok o1 ->
  CollectDepsSteps.parse_args (args1 ++ args2) o =
    CollectDepsSteps.parse_args args2 o1 /\
  forall N, CollectDepsSteps.numeric N = true ->
    CollectDepsSteps.parse_args (args1 ++ ["--first"; N]) o =
      CollectDepsSteps.Parsed_ok
        {| CollectDepsSteps.DEBUG := CollectDepsSteps.DEBUG o1;
           CollectDepsSteps.FILTER_MODE := "first";
           CollectDepsSteps.FILTER_VALUE := N |}.
Proof.
  intros Hok.
  assert (Happ : forall args2,
            CollectDepsSteps.parse_args (args1 ++ args2) o =
              CollectDepsSteps.parse_args args2 o1).
  { clear args2. intros args2. revert o Hok.
    induction args1 as [| a | a b rest IH1 IH2] using args_induction;
      intros o.
    - by intros [= <-].
    - simpl. parse_cases; try done. by intros [= <-].
    - cbn [CollectDepsSteps.parse_args app].
      change (b :: rest ++ args2) with ((b :: rest) ++ args2).
      destruct (String.eqb a "--debug" || String.eqb a "-d"); [apply IH2 |].
      destruct (String.eqb a "--first" || String.eqb a "-f").
      { destruct (CollectDepsSteps.numeric b); [apply IH1 | done]. }
      destruct (String.eqb a "--last" || String.eqb a "-l").
      { destruct (CollectDepsSteps.numeric b); [apply IH1 | done]. }
      destruct (String.eqb a "--random" || String.eqb a "-r").
      { destruct (CollectDepsSteps.numeric b); [apply IH1 | done]. }
      destruct (String.eqb a "--select" || String.eqb a "-s"); [| done].
      destruct (negb (String.eqb b "")); [apply IH1 | done]. }
  split; [apply Happ |].
  intros N HN. rewrite Happ. simpl. by rewrite HN.
Qed.

Lemma parse_args_app_witness :
  CollectDepsSteps.parse_args (["-d"; "--select"; "vim,git"] ++ ["--first"; "3"])
    CollectDepsSteps.initial_options =
  CollectDepsSteps.Parsed_ok
    {| CollectDepsSteps.DEBUG := true; CollectDepsSteps.FILTER_MODE := "first";
       CollectDepsSteps.FILTER_VALUE := "3" |}.
Proof.
  refine (proj2 (parse_args_app ["-d"; "--select"; "vim,git"] []
                   CollectDepsSteps.initial_options
                   {| CollectDepsSteps.DEBUG := true;
                      CollectDepsSteps.FILTER_MODE := "select";
                      CollectDepsSteps.FILTER_VALUE := "vim,git" |} _) "3" _);
    reflexivity.
Defined.

Example parse_args_rejects :
  CollectDepsSteps.parse_args ["--first"] CollectDepsSteps.initial_options
    = CollectDepsSteps.Parsed_exit 1 /\
  CollectDepsSteps.parse_args ["--last"; "5x"] CollectDepsSteps.initial_options
    = CollectDepsSteps.Parsed_exit 1 /\
  CollectDepsSteps.parse_args ["--select"; ""] CollectDepsSteps.initial_options
    = CollectDepsSteps.Parsed_exit 1 /\
  CollectDepsSteps.parse_args ["--all"] CollectDepsSteps.initial_options
    = CollectDepsSteps.Parsed_exit 1.
Proof. repeat split. Qed.

(** ** The selection by position, for a count written in base ten *)

Lemma decimal_digit_bounds (c : ascii) :
  (Ascii.leb "0" c && Ascii.leb c "9")%char = true ->
  (0 <= Z.of_N (N_of_ascii c) - 48 <= 9)%Z.
Proof.
  rewrite andb_true_iff. unfold Ascii.leb, Ascii.compare.
  change (N_of_ascii "0") with 48%N. change (N_of_ascii "9") with 57%N.
  intros [H0 H9].
  assert (48 <= N_of_ascii c)%N
    by (apply N.compare_le_iff; intros Hgt; by rewrite Hgt in H0).
  assert (N_of_ascii c <= 57)%N
    by (apply N.compare_le_iff; intros Hgt; by rewrite Hgt in H9).
  lia.
Qed.

Lemma decimal_digits_ge (s : string) (val N : Z) :
  (0 <= val)%Z -> decimal_digits val s = Some N -> (val <= N)%Z.
Proof.
  revert val. induction s as [| c s IH]; intros val Hval; simpl.
  - intros [= <-]. lia.
  - destruct (Ascii.leb "0" c && Ascii.leb c "9")%char eqn:Hc; [| done].
    apply decimal_digit_bounds in Hc. intros H%IH; lia.
Qed.

(** Below 2^63 the shell reads a string of decimal digits as the number
    that it denotes in base ten. *)
Lemma strlong_decimal (s : string) (val N : Z) :
  (0 <= val)%Z -> decimal_digits val s = Some N -> (N < 2 ^ 63)%Z ->
  CollectDeps.strlong 10 val s = Some N.
Proof.
  revert val. induction s as [| c s IH]; intros val Hval; simpl.
  - by intros [= <-].
  - destruct (Ascii.leb "0" c && Ascii.leb c "9")%char eqn:Hc; [| done].
    apply decimal_digit_bounds in Hc. intros Hs HN.
    assert (10 * val + (Z.of_N (N_of_ascii c) - 48) <= N)%Z
      by (apply (decimal_digits_ge s); [lia | done]).
    replace ((0 <=? Z.of_N (N_of_ascii c) - 48)%Z
             && (Z.of_N (N_of_ascii c) - 48 <? 10)%Z) with true
      by (symmetry; apply andb_true_iff; split; lia).
    rewrite intmax_t_small by lia.
    replace (val * 10)%Z with (10 * val)%Z by lia.
    apply IH; [lia | done | done].
Qed.

Lemma arith_value_decimal (FILTER_VALUE : string) (N : Z) :
  decimal_numeral FILTER_VALUE = Some N -> (N < 2 ^ 63)%Z ->
  CollectDeps.arith_value FILTER_VALUE = Some N /\ (0 <= N)%Z.
Proof.
  destruct FILTER_VALUE as [| c s]; [done |].
  unfold decimal_numeral, CollectDeps.arith_value.
  destruct (Ascii.eqb c "0") eqn:Hc.
  - destruct (String.eqb_spec s "") as [-> | _]; [| done].
    intros [= <-] _. done.
  - intros Hs HN. split; [by apply strlong_decimal |].
    by apply (decimal_digits_ge (String c s) 0).
Qed.

(** X25: for a count [N] below 2^63 that is written in base ten without a
    leading zero, [--first N] selects the first [N] names of the explicit
    list and [--last N] the last [N], in the order of the list; the whole
    list when [N] is at least its length, the start index of [--last] being
    clamped at zero; and [--first 0] selects nothing.  Neither exits. *)
Theorem first_last_decimal (explicit_array all_packages shuffled : list string)
    (FILTER_VALUE : string) (N : Z) :
  decimal_numeral FILTER_VALUE = Some N ->
  (N < 2 ^ 63)%Z ->
  (Z.of_nat (length explicit_array) < 2 ^ 63)%Z ->
  (exists selected rest,
     CollectDeps.select_packages (CollectDeps.first FILTER_VALUE) explicit_array
       all_packages shuffled = CollectDeps.Selected selected /\
     explicit_array = selected ++ rest /\
     length selected = Z.to_nat N `min` length explicit_array /\
     ((Z.of_nat (length explicit_array) <= N)%Z -> selected = explicit_array) /\
     (N = 0%Z -> selected = [])) /\
  (exists selected front,
     CollectDeps.select_packages (CollectDeps.last FILTER_VALUE) explicit_array
       all_packages shuffled = CollectDeps.Selected selected /\
     explicit_array = front ++ selected /\
     length selected = Z.to_nat N `min` length explicit_array /\
     ((Z.of_nat (length explicit_array) <= N)%Z ->
        CollectDeps.start_idx explicit_array FILTER_VALUE = Some 0%Z /\
        selected = explicit_array)).
Proof.
  intros Hnum HN Hlen.
  destruct (arith_value_decimal FILTER_VALUE N Hnum HN) as [Hval H0].
  split.
  - exists (take (Z.to_nat N) explicit_array), (drop (Z.to_nat N) explicit_array).
    simpl. rewrite Hval.
    destruct (Z.ltb_spec N 0) as [? | _]; [lia |].
    split; [done |]. split; [by rewrite take_drop |].
    split; [by rewrite length_take |].
    split; [intros ?; apply take_ge; lia | by intros ->].
  - assert (Hidx : CollectDeps.start_idx explicit_array FILTER_VALUE =
              Some (Z.of_nat (length explicit_array - Z.to_nat N))).
    { unfold CollectDeps.start_idx. rewrite Hval.
      rewrite intmax_t_small by lia. f_equal.
      destruct (Z.ltb_spec (Z.of_nat (length explicit_array) - N) 0); lia. }
    set (k := length explicit_array - Z.to_nat N) in *.
    exists (drop k explicit_array), (take k explicit_array). simpl.
    rewrite Hidx, Nat2Z.id.
    split; [done |]. split; [by rewrite take_drop |].
    split; [rewrite length_drop; lia |].
    intros Hle. replace k with 0 by lia. done.
Qed.

Lemma first_last_decimal_witness :
  exists selected,
    CollectDeps.select_packages (CollectDeps.last "10") example_explicit [] []
      = CollectDeps.Selected selected /\
    length selected = 10.
Proof.
  destruct (first_last_decimal example_explicit [] [] "10" 10)
    as [_ (selected & front & Hsel & _ & Hlen & _)].
  - reflexivity.
  - reflexivity.
  - reflexivity.
  - exists selected. split; [exact Hsel | exact Hlen].
Defined.

(** ** The selection by name *)

Lemma all_packages_map_lookup (all_packages : list string) (pkg : string) :
  CollectDeps.all_packages_map all_packages !! pkg =
    if decide (pkg ∈ all_packages) then Some "1" else None.
Proof.
  unfold CollectDeps.all_packages_map.
  assert (H : forall installed : gmap string string,
            foldl (fun installed pkg => <[pkg := "1"]> installed) installed
              all_packages !! pkg =
            if decide (pkg ∈ all_packages) then Some "1" else installed !! pkg).
  { induction all_packages as [| p l IH]; intros installed; cbn [foldl].
    - destruct (decide (pkg ∈ [])) as [Hin |]; [| done].
      by apply elem_of_nil in Hin.
    - rewrite IH. destruct (decide (pkg ∈ l)) as [Hin | Hnin].
      + by rewrite decide_True by (by right).
      + destruct (decide (pkg = p)) as [-> | Hne].
        * rewrite decide_True by left. by rewrite lookup_insert_eq.
        * rewrite decide_False by (rewrite elem_of_cons; tauto).
          by rewrite lookup_insert_ne. }
  rewrite H. by destruct (decide _).
Qed.

(** The test of the loop, by membership. *)
Lemma verify_installed_test (all_packages : list string) (pkg : string) :
  "" ∉ all_packages ->
  (String.eqb pkg "" ||
   String.eqb (default "" (CollectDeps.all_packages_map all_packages !! pkg)) "")
    = true <-> pkg ∉ all_packages.
Proof.
  intros Hne. rewrite all_packages_map_lookup, orb_true_iff.
  destruct (String.eqb_spec pkg "") as [-> | Hpkg].
  - tauto.
  - destruct (decide (pkg ∈ all_packages)); simpl; split; try done.
    + by intros [? | ?].
    + by right.
Qed.

Lemma verify_installed_spec (all_packages names : list string) :
  "" ∉ all_packages ->
  match CollectDeps.verify_installed
          (CollectDeps.all_packages_map all_packages) names with
  | None => forall pkg, pkg ∈ names -> pkg ∈ all_packages
  | Some pkg =>
      (pkg ∉ all_packages) /\
      exists before after,
        names = before ++ pkg :: after /\
        forall p, p ∈ before -> p ∈ all_packages
  end.
Proof.
  intros Hne. induction names as [| n names IH]; simpl.
  - intros pkg Hin. by apply elem_of_nil in Hin.
  - pose proof (verify_installed_test all_packages n Hne) as Htest.
    destruct (String.eqb n "") eqn:Hn; simpl in Htest.
    { split; [by apply Htest |]. exists [], names. split; [done |].
      intros p Hp. by apply elem_of_nil in Hp. }
    destruct (String.eqb (default "" (CollectDeps.all_packages_map all_packages !! n)) "")
      eqn:Hm.
    { split; [by apply Htest |]. exists [], names. split; [done |].
      intros p Hp. by apply elem_of_nil in Hp. }
    assert (Hin : n ∈ all_packages).
    { destruct (decide (n ∈ all_packages)) as [? | Hnin]; [done |].
      by apply Htest in Hnin. }
    destruct (CollectDeps.verify_installed _ names) as [pkg |].
    + destruct IH as (Hpkg & before & after & -> & Hbefore).
      split; [done |]. exists (n :: before), after. split; [done |].
      intros p [-> | Hp]%elem_of_cons; [done | by apply Hbefore].
    + intros pkg [-> | Hp]%elem_of_cons; [done | by apply IH].
Qed.

(** X16: with the lookup map filled from the installed packages, the loop
    of [--select] lets the given names through, in the given order, exactly
    when every one of them is an installed package; otherwise the script
    exits with status 1, and it does so at the first name of the list that
    is not installed, the names before it being installed. *)
Theorem select_mode_checks (names explicit_array all_packages shuffled : list string) :
  "" ∉ all_packages ->
  (CollectDeps.select_packages (CollectDeps.select names) explicit_array
     all_packages shuffled = CollectDeps.Selected names <->
   forall pkg, pkg ∈ names -> pkg ∈ all_packages) /\
  (CollectDeps.select_packages (CollectDeps.select names) explicit_array
     all_packages shuffled = CollectDeps.Exit 1 <->
   exists pkg, pkg ∈ names /\ pkg ∉ all_packages) /\
  (forall pkg,
     CollectDeps.verify_installed (CollectDeps.all_packages_map all_packages)
       names = Some pkg ->
     (pkg ∉ all_packages) /\
     exists before after,
       names = before ++ pkg :: after /\
       forall p, p ∈ before -> p ∈ all_packages).
Proof.
  intros Hne. pose proof (verify_installed_spec all_packages names Hne) as Hspec.
  simpl.
  destruct (CollectDeps.verify_installed _ names) as [bad |].
  - destruct Hspec as (Hbad & before & after & -> & Hbefore).
    assert (Hin : bad ∈ before ++ bad :: after)
      by (rewrite elem_of_app, elem_of_cons; tauto).
    split; [| split].
    + split; [done |]. intros Hall. by apply Hall in Hin.
    + split; [| done]. intros _. by exists bad.
    + intros pkg [= <-]. split; [done |]. by exists before, after.
  - split; [| split].
    + done.
    + split; [done |]. intros (pkg & Hin & Hnin). by apply Hspec in Hin.
    + done.
Qed.

Lemma select_mode_checks_witness :
  CollectDeps.select_packages (CollectDeps.select ["vim"; "git"]) ["vim"]
    ["vim"; "glibc"; "git"] [] = CollectDeps.Selected ["vim"; "git"].
Proof.
  refine (proj2 (proj1 (select_mode_checks ["vim"; "git"] ["vim"]
                          ["vim"; "glibc"; "git"] [] _)) _).
  - apply (bool_decide_unpack _). by vm_compute.
  - apply Forall_forall. apply (bool_decide_unpack _). by vm_compute.
Defined.

Example select_mode_rejects :
  CollectDeps.select_packages (CollectDeps.select ["vim"; "emacs"; "nano"])
    ["vim"] ["vim"; "glibc"; "git"] [] = CollectDeps.Exit 1 /\
  CollectDeps.verify_installed
    (CollectDeps.all_packages_map ["vim"; "glibc"; "git"])
    ["vim"; "emacs"; "nano"] = Some "emacs" /\
  CollectDeps.select_packages (CollectDeps.select ["vim"; ""; "git"])
    ["vim"] ["vim"; "glibc"; "git"] [] = CollectDeps.Exit 1.
Proof. repeat split; by vm_compute. Qed.

(** ** The restriction of the package list *)

Section RestrictFacts.
Variable pactree_o : string -> option (list string).

Lemma non_empty_true (s : string) :
  CollectDepsSteps.non_empty s = true <-> s <> "".
Proof.
  unfold CollectDepsSteps.non_empty. rewrite negb_true_iff. apply String.eqb_neq.
Qed.

Lemma include_lines_get (inc : gmap string string) (out : list string)
    (k : string) :
  CollectDepsSteps.get (CollectDepsSteps.include_lines inc out) k <> "" <->
  CollectDepsSteps.get inc k <> "" \/ (k ∈ out /\ k <> "").
Proof.
  unfold CollectDepsSteps.include_lines. revert inc.
  induction out as [| l out IH]; intros inc; simpl.
  - rewrite elem_of_nil. tauto.
  - rewrite IH, elem_of_cons. clear IH.
    destruct (CollectDepsSteps.non_empty l) eqn:Hl.
    + apply non_empty_true in Hl. unfold CollectDepsSteps.get.
      destruct (decide (l = k)) as [-> | Hne].
      * rewrite lookup_insert_eq. simpl. split; [tauto |]. intros _. by left.
      * rewrite lookup_insert_ne by done. split; [tauto |].
        intros [? | [[-> | ?] ?]]; tauto.
    + apply not_true_iff_false in Hl. rewrite non_empty_true in Hl.
      split; [tauto |]. intros [? | [[-> | ?] ?]]; tauto.
Qed.

Lemma build_included_spec (selected : list string) :
  forall inc0,
    match forEach (fun pkg inc =>
                     match pactree_o pkg with
                     | Some pactree_out =>
                         Some (CollectDepsSteps.include_lines inc pactree_out)
                     | None => None
                     end) selected inc0 with
    | Some inc =>
        (forall sel, sel ∈ selected -> is_Some (pactree_o sel)) /\
        forall k, CollectDepsSteps.get inc k <> "" <->
                  CollectDepsSteps.get inc0 k <> "" \/
                  (k <> "" /\ exists sel out,
                     sel ∈ selected /\ pactree_o sel = Some out /\ k ∈ out)
    | None => exists sel, sel ∈ selected /\ pactree_o sel = None
    end.
Proof.
  induction selected as [| s selected IH]; intros inc0; simpl.
  - split; [by intros sel ?%elem_of_nil |]. intros k. split; [tauto |].
    intros [? | [_ (sel & out & Hsel & _)]]; [done |]. by apply elem_of_nil in Hsel.
  - destruct (pactree_o s) as [out |] eqn:Hs.
    2: { exists s. split; [apply list_elem_of_here | done]. }
    specialize (IH (CollectDepsSteps.include_lines inc0 out)).
    destruct (forEach _ selected _) as [inc |].
    + destruct IH as [Hall Hget]. split.
      * intros sel [-> | Hsel]%elem_of_cons; [by rewrite Hs | by apply Hall].
      * intros k. rewrite Hget, include_lines_get. split.
        -- intros [[? | [Hk Hne]] | [Hne (sel & o & Hsel & Ho & Hk)]]; [tauto | |].
           ++ right. split; [done |]. exists s, out.
              split; [apply list_elem_of_here | done].
           ++ right. split; [done |]. exists sel, o.
              split; [by apply list_elem_of_further | done].
        -- intros [? | [Hne (sel & o & [-> | Hsel]%elem_of_cons & Ho & Hk)]];
             [tauto | |].
           ++ left. right. split; [congruence | done].
           ++ right. split; [done |]. by exists sel, o.
    + destruct IH as (sel & Hsel & Hnone). exists sel.
      split; [by apply list_elem_of_further | done].
Qed.

Lemma filter_sublist_of {A : Type} (f : A -> bool) (l : list A) :
  List.filter f l `sublist_of` l.
Proof.
  induction l as [| x l IH]; simpl; [constructor |].
  destruct (f x); by constructor.
Qed.

(** X17: the restriction to the selected trees exits exactly when the tree
    of a selected package cannot be listed; otherwise the new package list
    is the old one without the packages outside of every tree, in the old
    order, and the new explicit count is the number of its explicit
    packages, so it is at most the new package count. *)
Theorem restrict_packages_spec (EXPLICIT : gmap string string)
    (selected_packages all_packages : list string) :
  (CollectDepsSteps.restrict_packages pactree_o EXPLICIT selected_packages
     all_packages = None <->
   exists sel, sel ∈ selected_packages /\ pactree_o sel = None) /\
  forall filtered_packages explicit_count,
    CollectDepsSteps.restrict_packages pactree_o EXPLICIT selected_packages
      all_packages = Some (filtered_packages, explicit_count) ->
    filtered_packages `sublist_of` all_packages /\
    (forall pkg, pkg ∈ filtered_packages <->
       pkg ∈ all_packages /\ pkg <> "" /\
       exists sel out,
         sel ∈ selected_packages /\ pactree_o sel = Some out /\ pkg ∈ out) /\
    explicit_count =
      length (List.filter (fun pkg => bool_decide (CollectDepsSteps.get EXPLICIT pkg <> ""))
                filtered_packages) /\
    explicit_count <= length filtered_packages.
Proof.
  unfold CollectDepsSteps.restrict_packages, CollectDepsSteps.build_included.
  pose proof (build_included_spec selected_packages ∅) as Hspec.
  destruct (forEach _ selected_packages ∅) as [inc |].
  - destruct Hspec as [Hall Hget]. split.
    + split; [done |]. intros (sel & Hsel & Hnone).
      destruct (Hall sel Hsel) as [out Hout]. congruence.
    + intros filtered count [= <- <-].
      split; [apply filter_sublist_of |]. split; [| split].
      * intros pkg. unfold CollectDepsSteps.filter_packages.
        rewrite list_elem_of_In, List.filter_In, <- list_elem_of_In,
          non_empty_true, Hget.
        unfold CollectDepsSteps.get at 1. rewrite lookup_empty. simpl.
        split; [intros [? [? | [? ?]]]; [done | tauto] | tauto].
      * unfold CollectDepsSteps.count_explicit_in. f_equal.
        apply List.filter_ext. intros pkg.
        destruct (CollectDepsSteps.non_empty _) eqn:Hne.
        -- apply non_empty_true in Hne. by rewrite bool_decide_eq_true_2.
        -- apply not_true_iff_false in Hne. rewrite non_empty_true in Hne.
           by rewrite bool_decide_eq_false_2.
      * apply List.filter_length_le.
  - split; [by split | done].
Qed.
End RestrictFacts.

(** ** The repository of a package *)


(** ** Selection classes *)

Lemma classed_elem_of (name : string) (value : bool) (e : D3Utils.NodeElement)
    (c : string) :
  c ∈ D3Utils.classList (D3Utils.classed name value e) <->
  if String.eqb c name then value = true else c ∈ D3Utils.classList e.
Proof.
  unfold D3Utils.classed. simpl. destruct value.
  - destruct (decide (name ∈ D3Utils.classList e)) as [Hin | Hnin].
    + rewrite bool_decide_eq_true_2 by done.
      destruct (String.eqb_spec c name) as [-> | _]; [done | done].
    + rewrite bool_decide_eq_false_2 by done.
      rewrite elem_of_app, list_elem_of_singleton.
      destruct (String.eqb_spec c name) as [-> | Hne]; tauto.
  - rewrite list_elem_of_In, List.filter_In, <- list_elem_of_In, negb_true_iff.
    destruct (String.eqb_spec c name); intuition congruence.
Qed.

Lemma classed_where_elem_of (name selectedId : string)
    (e : D3Utils.NodeElement) (c : string) :
  c ∈ D3Utils.classList (D3Utils.classed_where name selectedId e) <->
  c ∈ D3Utils.classList e \/ (c = name /\ D3Utils.datum_id e = selectedId).
Proof.
  unfold D3Utils.classed_where.
  destruct (String.eqb_spec (D3Utils.datum_id e) selectedId) as [Heq | Hne].
  - rewrite classed_elem_of.
    destruct (String.eqb_spec c name) as [-> | Hne]; tauto.
  - tauto.
Qed.

Lemma classed_where_datum (name selectedId : string) (e : D3Utils.NodeElement) :
  D3Utils.datum_id (D3Utils.classed_where name selectedId e) = D3Utils.datum_id e.
Proof. unfold D3Utils.classed_where. by destruct (String.eqb _ _). Qed.

Lemma truthy_id_true (selectedId : option string) :
  D3Utils.truthy_id selectedId = true <->
  exists s, selectedId = Some s /\ s <> "".
Proof.
  destruct selectedId as [s |]; simpl.
  - rewrite negb_true_iff, String.eqb_neq. split; [by exists s | by intros (? & [= <-] & ?)].
  - split; [done | by intros (? & ? & ?)].
Qed.

(** The classes of an element after the three steps of
    [updateDualSelection]. *)
Lemma dual_selection_classes (e : D3Utils.NodeElement) (l g : string)
    (tl tg : bool) (c : string) :
  let e1 := D3Utils.classed "list-selected" false
              (D3Utils.classed "selected" false e) in
  let e2 := if tl then D3Utils.classed_where "list-selected" l e1 else e1 in
  let e3 := if tg then D3Utils.classed_where "selected" g e2 else e2 in
  D3Utils.datum_id e3 = D3Utils.datum_id e /\
  (c ∈ D3Utils.classList e3 <->
   (c ∈ D3Utils.classList e /\ c <> "selected" /\ c <> "list-selected") \/
   (c = "list-selected" /\ tl = true /\ D3Utils.datum_id e = l) \/
   (c = "selected" /\ tg = true /\ D3Utils.datum_id e = g)).
Proof.
  simpl.
  assert (H1 : forall c,
            c ∈ D3Utils.classList
                  (D3Utils.classed "list-selected" false
                     (D3Utils.classed "selected" false e)) <->
            c ∈ D3Utils.classList e /\ c <> "selected" /\ c <> "list-selected").
  { intros d. rewrite classed_elem_of.
    destruct (String.eqb_spec d "list-selected") as [-> | ?]; [intuition congruence |].
    rewrite classed_elem_of.
    destruct (String.eqb_spec d "selected") as [-> | ?]; intuition congruence. }
  destruct tl, tg; rewrite ?classed_where_datum; (split; [done |]);
    rewrite ?classed_where_elem_of, ?classed_where_datum, H1; simpl;
    intuition congruence.
Qed.

(** X19: after [updateDualSelection] the elements are the same, in the
    same order, with the same data; an element has the class
    [list-selected] exactly when the list selection is a non-empty id and it
    is the id of its datum, and the class [selected] exactly when the graph
    selection is a non-empty id, the sidebar is shown and it is the id of its
    datum; every other class is as it was.  Without an element nothing is
    done. *)
Theorem updateDualSelection_spec (nodes : list D3Utils.NodeElement)
    (listSelectedId graphSelectedId : option string) (sidebarHidden : bool) :
  D3Utils.updateDualSelection None listSelectedId graphSelectedId sidebarHidden
    = None /\
  exists nodes',
    D3Utils.updateDualSelection (Some nodes) listSelectedId graphSelectedId
      sidebarHidden = Some nodes' /\
    Forall2 (fun e e' =>
               D3Utils.datum_id e' = D3Utils.datum_id e /\
               ("list-selected" ∈ D3Utils.classList e' <->
                exists s, listSelectedId = Some s /\ s <> "" /\
                          D3Utils.datum_id e = s) /\
               ("selected" ∈ D3Utils.classList e' <->
                sidebarHidden = false /\
                exists s, graphSelectedId = Some s /\ s <> "" /\
                          D3Utils.datum_id e = s) /\
               (forall c, c <> "selected" -> c <> "list-selected" ->
                          (c ∈ D3Utils.classList e' <-> c ∈ D3Utils.classList e)))
            nodes nodes'.
Proof.
  split; [done |].
  set (l := default "" listSelectedId). set (g := default "" graphSelectedId).
  set (tl := D3Utils.truthy_id listSelectedId).
  set (tg := D3Utils.truthy_id graphSelectedId && negb sidebarHidden).
  exists (map (fun e =>
                 let e1 := D3Utils.classed "list-selected" false
                             (D3Utils.classed "selected" false e) in
                 let e2 := if tl then D3Utils.classed_where "list-selected" l e1
                           else e1 in
                 if tg then D3Utils.classed_where "selected" g e2 else e2) nodes).
  split.
  { unfold D3Utils.updateDualSelection. fold tl tg l g.
    destruct tl, tg; by rewrite ?map_map. }
  assert (Hl : forall x, tl = true /\ x = l <->
                 exists s, listSelectedId = Some s /\ s <> "" /\ x = s).
  { intros x. subst tl l. rewrite truthy_id_true. split.
    - intros [(s & -> & Hs) ->]. by exists s.
    - intros (s & -> & Hs & ->). split; [by exists s | done]. }
  assert (Hg : forall x, tg = true /\ x = g <->
                 sidebarHidden = false /\
                 exists s, graphSelectedId = Some s /\ s <> "" /\ x = s).
  { intros x. subst tg g. rewrite andb_true_iff, negb_true_iff, truthy_id_true.
    split.
    - intros [[(s & -> & Hs) Hh] ->]. split; [done | by exists s].
    - intros (Hh & s & -> & Hs & ->). split; [| done]. split; [by exists s | done]. }
  apply Forall2_fmap_r, Forall_Forall2_diag, Forall_forall. intros e _.
  pose proof (fun c => dual_selection_classes e l g tl tg c) as Hc. simpl in Hc.
  split; [apply (Hc "")|]. split; [| split].
  - rewrite (proj2 (Hc "list-selected")), <- Hl. intuition congruence.
  - rewrite (proj2 (Hc "selected")), <- Hg. intuition congruence.
  - intros c Hc1 Hc2. rewrite (proj2 (Hc c)). intuition congruence.
Qed.

(** [clearNodeSelection] is [updateDualSelection] without any selection,
    whatever the sidebar; it removes the two selection classes from every
    element and keeps the other classes in their order. *)
Lemma clearNodeSelection_spec (svg : option (list D3Utils.NodeElement))
    (sidebarHidden : bool) :
  D3Utils.clearNodeSelection svg =
    D3Utils.updateDualSelection svg None None sidebarHidden /\
  forall nodes, svg = Some nodes ->
    D3Utils.clearNodeSelection svg =
      Some (map (fun e =>
                   D3Utils.mkNodeElement (D3Utils.datum_id e)
                     (List.filter (fun c => negb (String.eqb c "selected") &&
                                            negb (String.eqb c "list-selected"))
                        (D3Utils.classList e))) nodes).
Proof.
  split; [by destruct svg |].
  intros nodes ->. simpl. f_equal. rewrite map_map. apply map_ext. intros e.
  unfold D3Utils.classed. simpl. f_equal.
  induction (D3Utils.classList e) as [| c cl IH]; simpl; [done |].
  destruct (String.eqb c "selected"); simpl; [done |].
  destruct (String.eqb c "list-selected"); simpl; by rewrite IH.
Qed.

Section DualSelection.
Variables (l g : string) (tl tg : bool).

Local Abbreviation dual := (dual_element l g tl tg).
Local Abbreviation keep := keep_class.

Lemma filter_keep_twice (cl : list string) :
  List.filter (fun c => negb (String.eqb c "list-selected"))
    (List.filter (fun c => negb (String.eqb c "selected")) cl) =
  List.filter keep cl.
Proof.
  induction cl as [| c cl IH]; simpl; [done |]. unfold keep_class at 1.
  destruct (String.eqb c "selected"); simpl; [done |].
  destruct (String.eqb c "list-selected"); simpl; by rewrite IH.
Qed.

Lemma keep_not_in (name : string) (cl : list string) :
  keep name = false -> name ∉ List.filter keep cl.
Proof.
  intros Hname Hin. apply list_elem_of_In, List.filter_In in Hin as [_ Hk].
  congruence.
Qed.

Lemma dual_normal_form (e : D3Utils.NodeElement) :
  dual e =
    D3Utils.mkNodeElement (D3Utils.datum_id e)
      (List.filter keep (D3Utils.classList e)
       ++ (if tl && String.eqb (D3Utils.datum_id e) l then ["list-selected"] else [])
       ++ (if tg && String.eqb (D3Utils.datum_id e) g then ["selected"] else [])).
Proof.
  unfold dual_element, D3Utils.classed_where, D3Utils.classed. simpl.
  rewrite filter_keep_twice.
  set (cl := List.filter keep (D3Utils.classList e)).
  assert (Hls : "list-selected" ∉ cl) by (by apply keep_not_in).
  assert (Hs : "selected" ∉ cl) by (by apply keep_not_in).
  assert (Hs' : "selected" ∉ cl ++ ["list-selected"]).
  { rewrite elem_of_app, list_elem_of_singleton. intros [? | ?]; done. }
  destruct tl, (String.eqb (D3Utils.datum_id e) l) eqn:Hl; simpl;
    rewrite ?Hl; simpl;
    destruct tg, (String.eqb (D3Utils.datum_id e) g) eqn:Hg; simpl;
    rewrite ?Hg; simpl;
    rewrite ?(bool_decide_eq_false_2 _ Hls), ?(bool_decide_eq_false_2 _ Hs),
      ?(bool_decide_eq_false_2 _ Hs'), ?app_nil_r, <- ?app_assoc; done.
Qed.

Lemma filter_keep_normal (cl : list string) (a b : bool) :
  List.filter keep
    (List.filter keep cl
     ++ (if a then ["list-selected"] else [])
     ++ (if b then ["selected"] else [])) =
  List.filter keep cl.
Proof.
  rewrite !List.filter_app.
  assert (Hidem : List.filter keep (List.filter keep cl) = List.filter keep cl).
  { apply filter_all_true. intros c Hc.
    by apply list_elem_of_In, List.filter_In in Hc as [_ ?]. }
  rewrite Hidem. destruct a, b; simpl; by rewrite ?app_nil_r.
Qed.

Lemma dual_idempotent (e : D3Utils.NodeElement) : dual (dual e) = dual e.
Proof.
  rewrite (dual_normal_form (dual e)), (dual_normal_form e). simpl.
  by rewrite filter_keep_normal.
Qed.

Lemma updateDualSelection_map (nodes : list D3Utils.NodeElement)
    (listSelectedId graphSelectedId : option string) (sidebarHidden : bool) :
  l = default "" listSelectedId -> g = default "" graphSelectedId ->
  tl = D3Utils.truthy_id listSelectedId ->
  tg = D3Utils.truthy_id graphSelectedId && negb sidebarHidden ->
  D3Utils.updateDualSelection (Some nodes) listSelectedId graphSelectedId
    sidebarHidden = Some (map dual nodes).
Proof.
  intros -> -> Htl Htg. unfold D3Utils.updateDualSelection, dual_element.
  rewrite <- Htl, <- Htg. destruct tl, tg; by rewrite ?map_map.
Qed.
End DualSelection.

(** X20: [updateDualSelection] is idempotent: run again with the same
    selection on the elements it has updated, it changes nothing, neither a
    class nor the order of the classes of an element. *)
Theorem updateDualSelection_idempotent (nodes : list D3Utils.NodeElement)
    (listSelectedId graphSelectedId : option string) (sidebarHidden : bool) :
  exists nodes',
    D3Utils.updateDualSelection (Some nodes) listSelectedId graphSelectedId
      sidebarHidden = Some nodes' /\
    D3Utils.updateDualSelection (Some nodes') listSelectedId graphSelectedId
      sidebarHidden = Some nodes'.
Proof.
  eexists. split.
  - by apply (updateDualSelection_map (default "" listSelectedId)
                (default "" graphSelectedId) (D3Utils.truthy_id listSelectedId)
                (D3Utils.truthy_id graphSelectedId && negb sidebarHidden)).
  - rewrite (updateDualSelection_map (default "" listSelectedId)
               (default "" graphSelectedId) (D3Utils.truthy_id listSelectedId)
               (D3Utils.truthy_id graphSelectedId && negb sidebarHidden)) by done.
    f_equal. rewrite map_map. apply map_ext. intros e. apply dual_idempotent.
Qed.

Example updateDualSelection_example :
  D3Utils.updateDualSelection
    (Some [D3Utils.mkNodeElement "vim" ["node"; "selected"];
           D3Utils.mkNodeElement "git" ["node"; "list-selected"]])
    (Some "vim") (Some "git") false
  = Some [D3Utils.mkNodeElement "vim" ["node"; "list-selected"];
          D3Utils.mkNodeElement "git" ["node"; "selected"]] /\
  D3Utils.updateDualSelection
    (Some [D3Utils.mkNodeElement "vim" ["node"; "selected"];
           D3Utils.mkNodeElement "git" ["node"; "list-selected"]])
    (Some "vim") (Some "git") true
  = Some [D3Utils.mkNodeElement "vim" ["node"; "list-selected"];
          D3Utils.mkNodeElement "git" ["node"]].
Proof. split; by vm_compute. Qed.

(** X21: [updateNodeSelection] and [clearNodeSelection] touch the selection
    classes only.  After [updateNodeSelection] an element has the class
    [selected] exactly when the selection is a non-empty id, the sidebar is
    shown and it is the id of its datum, and its data and every other class
    are as they were.  After [clearNodeSelection] the classes of an element
    are its classes other than [selected] and [list-selected], in their
    order, and its data are as they were.  With no svg element nothing is
    done. *)
Theorem updateNodeSelection_spec (nodes : list D3Utils.NodeElement)
    (selectedNodeId : option string) (sidebarHidden : bool) :
  (exists nodes',
     D3Utils.updateNodeSelection (Some nodes) selectedNodeId sidebarHidden
       = Some nodes' /\
     Forall2 (fun e e' =>
                D3Utils.datum_id e' = D3Utils.datum_id e /\
                ("selected" ∈ D3Utils.classList e' <->
                 sidebarHidden = false /\
                 exists s, selectedNodeId = Some s /\ s <> "" /\
                           D3Utils.datum_id e = s) /\
                (forall c, c <> "selected" ->
                           (c ∈ D3Utils.classList e' <-> c ∈ D3Utils.classList e)))
             nodes nodes') /\
  (exists nodes',
     D3Utils.clearNodeSelection (Some nodes) = Some nodes' /\
     Forall2 (fun e e' =>
                D3Utils.datum_id e' = D3Utils.datum_id e /\
                D3Utils.classList e' =
                  List.filter keep_class (D3Utils.classList e))
             nodes nodes') /\
  D3Utils.updateNodeSelection None selectedNodeId sidebarHidden = None /\
  D3Utils.clearNodeSelection None = None.
Proof.
  split; [| split; [| done]].
  - set (t := D3Utils.truthy_id selectedNodeId && negb sidebarHidden).
    set (s0 := default "" selectedNodeId).
    exists (map (fun e =>
                   let e1 := D3Utils.classed "selected" false e in
                   if t then D3Utils.classed_where "selected" s0 e1 else e1) nodes).
    split.
    { unfold D3Utils.updateNodeSelection. fold t s0. destruct t; by rewrite ?map_map. }
    assert (Ht : forall x, t = true /\ x = s0 <->
                   sidebarHidden = false /\
                   exists s, selectedNodeId = Some s /\ s <> "" /\ x = s).
    { intros x. subst t s0. rewrite andb_true_iff, negb_true_iff, truthy_id_true.
      split.
      - intros [[(s & -> & Hs) Hh] ->]. split; [done | by exists s].
      - intros (Hh & s & -> & Hs & ->). split; [| done]. split; [by exists s | done]. }
    apply Forall2_fmap_r, Forall_Forall2_diag, Forall_forall. intros e _.
    assert (Hc : forall c,
              c ∈ D3Utils.classList
                    (if t then D3Utils.classed_where "selected" s0
                                 (D3Utils.classed "selected" false e)
                     else D3Utils.classed "selected" false e) <->
              (c ∈ D3Utils.classList e /\ c <> "selected") \/
              (c = "selected" /\ t = true /\ D3Utils.datum_id e = s0)).
    { intros c. destruct t; rewrite ?classed_where_elem_of, classed_elem_of; simpl;
        destruct (String.eqb_spec c "selected"); intuition congruence. }
    simpl. split; [by destruct t; rewrite ?classed_where_datum |]. split.
    + rewrite Hc, <- Ht. intuition congruence.
    + intros c Hne. rewrite Hc. intuition congruence.
  - eexists. split; [reflexivity |]. rewrite map_map.
    apply Forall2_fmap_r, Forall_Forall2_diag, Forall_forall. intros e _.
    split; [done |]. simpl. unfold keep_class.
    induction (D3Utils.classList e) as [| c l IH]; [done |]. simpl.
    destruct (String.eqb c "selected"); simpl; [done |].
    destruct (String.eqb c "list-selected"); simpl; [done | by rewrite IH].
Qed.

(** ** Orphans and closures of the processed graph *)

(** X22: a cleaned record is an orphan exactly when its original is not
    explicit and none of the packages that require it is in the graph; so
    an orphan stays one, and a dependency required only from outside of the
    graph becomes one. *)
Theorem isOrphaned_cleaned (nodes : list PackageNode) (n : PackageNode) :
  (isOrphaned (clean_node (build_nodeMap nodes) n) = true <->
   explicit n = false /\ forall r, r ∈ required_by n -> ~ is_key nodes r) /\
  (isOrphaned n = true ->
   isOrphaned (clean_node (build_nodeMap nodes) n) = true).
Proof.
  assert (Hiff : isOrphaned (clean_node (build_nodeMap nodes) n) = true <->
            explicit n = false /\ forall r, r ∈ required_by n -> ~ is_key nodes r).
  { unfold isOrphaned. rewrite andb_true_iff, negb_true_iff, Nat.eqb_eq.
    rewrite clean_node_required_by. simpl.
    assert (Hnil : length (List.filter (fun r => bool_decide (is_key nodes r))
                             (required_by n)) = 0 <->
                   forall r, r ∈ required_by n -> ~ is_key nodes r).
    { rewrite length_zero_iff_nil. split.
      - intros Hnil r Hr Hk.
        assert (Hin : r ∈ List.filter (fun r => bool_decide (is_key nodes r))
                            (required_by n)).
        { apply list_elem_of_In, List.filter_In.
          split; [by apply list_elem_of_In | by apply bool_decide_eq_true]. }
        rewrite Hnil in Hin. by apply elem_of_nil in Hin.
      - intros Hall. apply elem_of_nil_inv. intros r Hr.
        apply list_elem_of_In, List.filter_In in Hr as [Hr Hk].
        apply bool_decide_eq_true in Hk. apply (Hall r); [| done].
        by apply list_elem_of_In. }
    by rewrite Hnil. }
  split; [done |].
  intros Horph. apply Hiff. unfold isOrphaned in Horph.
  apply andb_true_iff in Horph as [He%negb_true_iff Hr%Nat.eqb_eq].
  split; [done |]. apply length_zero_iff_nil in Hr. rewrite Hr.
  by intros r ?%elem_of_nil.
Qed.

Lemma edge_of_required_by_processed (nodes : list PackageNode) (a b : string) :
  edge_of required_by (processBrokenDependencies nodes) a b ->
  edge_of required_by nodes a b /\ is_key nodes b.
Proof.
  intros (r & Hfind & Hb).
  destruct (processBrokenDependencies_shape nodes) as (missing & Hout & _).
  rewrite Hout, find_node_app, find_node_cleaned, find_node_synthetic in Hfind.
  destruct (find_node a nodes) as [n |] eqn:Hn; simpl in Hfind.
  - injection Hfind as <-. rewrite clean_node_required_by in Hb.
    apply list_elem_of_In, List.filter_In in Hb as [Hb Hk].
    split; [| by apply bool_decide_eq_true in Hk].
    exists n. split; [done | by apply list_elem_of_In].
  - destruct (bool_decide (a ∈ missing)); [| done].
    injection Hfind as <-. by apply elem_of_nil in Hb.
Qed.

Lemma flat_map_cleaned_length (m : gmap string PackageNode)
    (l : list PackageNode) :
  length (flat_map required_by (map (clean_node m) l)) <=
  length (flat_map required_by l).
Proof.
  induction l as [| n l IH]; simpl; [done |]. rewrite !length_app.
  pose proof (List.filter_length_le (fun dep => Map_has m dep) (required_by n)).
  lia.
Qed.

Lemma flat_map_synthetic_required_by (missing : list string) :
  flat_map required_by (map synthetic_node missing) = [].
Proof. induction missing as [| d l IH]; simpl; [done | by rewrite IH]. Qed.

(** X23: processing can only shrink a reverse closure: over the processed
    graph, every name of the reverse closure of a package is in its reverse
    closure over the input, and every name but the start is a key of the
    input. *)
Theorem collectReversePackageTree_processed (nodes : list PackageNode)
    (start : string) (fuel : nat) :
  enough_fuel required_by nodes <= fuel ->
  exists before after,
    collectReversePackageTree fuel start nodes JsSet.empty = Some before /\
    collectReversePackageTree fuel start (processBrokenDependencies nodes)
      JsSet.empty = Some after /\
    forall x, x ∈ after -> x ∈ before /\ (x = start \/ is_key nodes x).
Proof.
  intros Hfuel. unfold JsSet.empty. rewrite !collectReversePackageTree_collect.
  destruct (collect_returns required_by nodes fuel start [] Hfuel) as [before Hb].
  assert (Hfuel' : enough_fuel required_by (processBrokenDependencies nodes) <= fuel).
  { unfold enough_fuel in *.
    destruct (processBrokenDependencies_shape nodes) as (missing & Hout & _).
    assert (length (flat_map required_by (processBrokenDependencies nodes)) <=
            length (flat_map required_by nodes)); [| lia].
    rewrite Hout, flat_map_app, length_app, flat_map_synthetic_required_by.
    pose proof (flat_map_cleaned_length (build_nodeMap nodes) nodes).
    simpl. lia. }
  destruct (collect_returns required_by (processBrokenDependencies nodes) fuel
              start [] Hfuel') as [after Ha].
  destruct (collect_closure _ _ _ _ _ Hb) as [_ Hbefore].
  destruct (collect_closure _ _ _ _ _ Ha) as [_ Hafter].
  exists before, after. split; [done |]. split; [done |].
  intros x Hx%Hafter. rewrite Hbefore. revert x Hx.
  apply (rtc_ind_r (fun x => reachable required_by nodes start x /\
                              (x = start \/ is_key nodes x)) start).
  - split; [apply rtc_refl | by left].
  - intros y z _ Hyz [IH _].
    apply edge_of_required_by_processed in Hyz as [Hedge Hkey].
    split; [by eapply rtc_r | by right].
Qed.

Lemma collectReversePackageTree_processed_witness :
  exists before after,
    collectReversePackageTree 10 "B" example_graph JsSet.empty = Some before /\
    collectReversePackageTree 10 "B" (processBrokenDependencies example_graph)
      JsSet.empty = Some after /\
    forall x, x ∈ after -> x ∈ before /\ (x = "B" \/ is_key example_graph x).
Proof.
  apply (collectReversePackageTree_processed example_graph "B" 10).
  vm_compute. lia.
Defined.

(** ** The node set of a sub-graph *)

Lemma subGraphData_nodes {LinkType : Type}
    (getLinkType : option PackageNode -> PackageNode -> LinkType)
    (nodes : list PackageNode) (selected : PackageNode)
    (direction : Investigate.DependencyDirection) (fuel : nat) :
  Investigate.view_fuel nodes <= fuel ->
  exists g,
    Investigate.subGraphData getLinkType nodes fuel (Some selected) direction
      = Some g /\
    Investigate.sg_nodes g `sublist_of` nodes /\
    forall n, n ∈ Investigate.sg_nodes g <->
      n ∈ nodes /\
      ((direction <> Investigate.reverse /\
        reachable depends_on nodes (id selected) (id n)) \/
       (direction <> Investigate.forward /\
        reachable required_by nodes (id selected) (id n))).
Proof.
  intros Hfuel. simpl.
  destruct (collect_ids_spec nodes fuel direction (id selected) Hfuel)
    as (tree & -> & Htree).
  eexists. split; [done |]. simpl. split; [apply filter_sublist_of |].
  intros n. by rewrite list_elem_of_In, List.filter_In, <- list_elem_of_In,
    JsSet_has_true, Htree.
Qed.

(** X24: the nodes of a sub-graph are nodes of the graph, in the order of
    the graph; the sub-graph of both directions has exactly the nodes of the
    forward and of the reverse sub-graph together; and the record of the
    focal name is in each of them. *)
Theorem subGraphData_both_union {LinkType : Type}
    (getLinkType : option PackageNode -> PackageNode -> LinkType)
    (nodes : list PackageNode) (selected : PackageNode) (fuel : nat) :
  Investigate.view_fuel nodes <= fuel ->
  exists gf gr gb,
    Investigate.subGraphData getLinkType nodes fuel (Some selected)
      Investigate.forward = Some gf /\
    Investigate.subGraphData getLinkType nodes fuel (Some selected)
      Investigate.reverse = Some gr /\
    Investigate.subGraphData getLinkType nodes fuel (Some selected)
      Investigate.both = Some gb /\
    Investigate.sg_nodes gf `sublist_of` nodes /\
    Investigate.sg_nodes gr `sublist_of` nodes /\
    Investigate.sg_nodes gb `sublist_of` nodes /\
    (forall n, n ∈ Investigate.sg_nodes gb <->
               n ∈ Investigate.sg_nodes gf \/ n ∈ Investigate.sg_nodes gr) /\
    (forall n, find_node (id selected) nodes = Some n ->
               n ∈ Investigate.sg_nodes gf /\ n ∈ Investigate.sg_nodes gr /\
               n ∈ Investigate.sg_nodes gb).
Proof.
  intros Hfuel.
  destruct (subGraphData_nodes getLinkType nodes selected Investigate.forward
              fuel Hfuel) as (gf & Hgf & Hsubf & Hf).
  destruct (subGraphData_nodes getLinkType nodes selected Investigate.reverse
              fuel Hfuel) as (gr & Hgr & Hsubr & Hr).
  destruct (subGraphData_nodes getLinkType nodes selected Investigate.both
              fuel Hfuel) as (gb & Hgb & Hsub & Hb).
  exists gf, gr, gb. split; [done |]. split; [done |]. split; [done |].
  split; [done |]. split; [done |]. split; [done |]. split.
  - intros n. rewrite Hb, Hf, Hr. intuition congruence.
  - intros n [Hn Hid]%find_node_Some.
    rewrite Hb, Hf, Hr, Hid.
    pose proof (rtc_refl (edge_of depends_on nodes) (id selected)).
    pose proof (rtc_refl (edge_of required_by nodes) (id selected)).
    unfold reachable. intuition congruence.
Qed.

Lemma subGraphData_both_union_witness :
  exists gf gr gb,
    Investigate.subGraphData (fun _ _ => tt) example_graph 20 (Some example_B)
      Investigate.forward = Some gf /\
    Investigate.subGraphData (fun _ _ => tt) example_graph 20 (Some example_B)
      Investigate.reverse = Some gr /\
    Investigate.subGraphData (fun _ _ => tt) example_graph 20 (Some example_B)
      Investigate.both = Some gb /\
    forall n, n ∈ Investigate.sg_nodes gb <->
              n ∈ Investigate.sg_nodes gf \/ n ∈ Investigate.sg_nodes gr.
Proof.
  destruct (subGraphData_both_union (fun _ _ => tt) example_graph example_B 20)
    as (gf & gr & gb & Hf & Hr & Hb & _ & _ & _ & Hunion & _).
  - vm_compute. lia.
  - by exists gf, gr, gb.
Defined.
